(** * DuperMemory: orchestration, memory consolidation and quiescence detection

    A shallow embedding of the JavaScript sources of the DuperMemory browser
    extension (utils/memory.js, utils/summarize-generic.js, utils/format.js,
    utils/models.js, background.js and the content-script response detectors)
    together with the properties that its specification states about them.

    Conventions of the embedding.
    - A JavaScript string is a Rocq [string].  The embedding is exact on
      ASCII text: case mapping, white space and word characters are the
      ASCII ones, and a character above 127 is an opaque symbol that
      [toLowerCase] leaves alone and that is neither white space nor a word
      character.
    - A duck-typed value is a [JsVal]: a string, or a value of another type
      of which the code only observes the truthiness and the string
      conversion.
    - A function that can throw returns [option]; [None] is the exception.
    - [new Date().toISOString()] is an explicit argument [now]. *)

From Stdlib Require Import ZArith Lia Ascii String List Bool.
From stdpp Require Import base option list sorting gmap strings pretty.

(** ** JavaScript string primitives used by the sources *)

Module Js.

Definition code (c : ascii) : N := N_of_ascii c.

(** White space as [String.prototype.trim] and the regular expression class
    [\s] see it, restricted to ASCII: TAB, LF, VT, FF, CR and SPACE. *)
Definition isWhiteSpace (c : ascii) : bool :=
  ((9 <=? code c)%N && (code c <=? 13)%N) || (code c =? 32)%N.

Definition isUpper (c : ascii) : bool :=
  (65 <=? code c)%N && (code c <=? 90)%N.

Definition lowerChar (c : ascii) : ascii :=
  if isUpper c then ascii_of_N (code c + 32) else c.

(** The class [\w] of regular expressions: letters, digits and underscore. *)
Definition isWordChar (c : ascii) : bool :=
  ((48 <=? code c)%N && (code c <=? 57)%N)
  || ((65 <=? code c)%N && (code c <=? 90)%N)
  || ((97 <=? code c)%N && (code c <=? 122)%N)
  || (code c =? 95)%N.

Fixpoint toLowerCase (s : string) : string :=
  match s with
  | EmptyString => EmptyString
  | String c s' => String (lowerChar c) (toLowerCase s')
  end.

Fixpoint trimStart (s : string) : string :=
  match s with
  | EmptyString => EmptyString
  | String c s' => if isWhiteSpace c then trimStart s' else s
  end.

Fixpoint trimEnd (s : string) : string :=
  match s with
  | EmptyString => EmptyString
  | String c s' =>
      match trimEnd s' with
      | EmptyString => if isWhiteSpace c then EmptyString else String c EmptyString
      | t => String c t
      end
  end.

Definition trim (s : string) : string := trimEnd (trimStart s).

(** [s.length] *)
Definition strlen (s : string) : Z := Z.of_nat (String.length s).

(** [s === ""] is the falsy string. *)
Definition isEmpty (s : string) : bool :=
  match s with EmptyString => true | _ => false end.

(** [hay.indexOf(needle)]: the index of the first occurrence, or -1. *)
Fixpoint indexOfFrom (needle hay : string) (i : Z) : Z :=
  if String.prefix needle hay then i
  else match hay with
       | EmptyString => (-1)%Z
       | String _ hay' => indexOfFrom needle hay' (i + 1)%Z
       end.

Definition indexOf (hay needle : string) : Z := indexOfFrom needle hay 0%Z.

Fixpoint dropChars (n : nat) (s : string) : string :=
  match n, s with
  | O, _ => s
  | S _, EmptyString => EmptyString
  | S n', String _ s' => dropChars n' s'
  end.

Fixpoint takeChars (n : nat) (s : string) : string :=
  match n, s with
  | O, _ => EmptyString
  | S _, EmptyString => EmptyString
  | S n', String c s' => String c (takeChars n' s')
  end.

(** [s.slice(from)] and [s.slice(from, to)] for the non-negative indices the
    sources pass; an end before the start gives the empty string. *)
Definition sliceFrom (s : string) (from : Z) : string :=
  dropChars (Z.to_nat from) s.

Definition slice (s : string) (from to : Z) : string :=
  takeChars (Z.to_nat to - Z.to_nat from) (dropChars (Z.to_nat from) s).

(** [s.charAt(0) === c] *)
Definition startsWithChar (c : ascii) (s : string) : bool :=
  match s with
  | String c' _ => Ascii.eqb c' c
  | EmptyString => false
  end.

(** [s.split(sep)] for a one-character separator: never the empty array. *)
Fixpoint split (sep : ascii) (s : string) : list string :=
  match s with
  | EmptyString => [EmptyString]
  | String c s' =>
      if Ascii.eqb c sep then EmptyString :: split sep s'
      else match split sep s' with
           | h :: t => String c h :: t
           | [] => [String c EmptyString]
           end
  end.

(** [parts.join(sep)] *)
Fixpoint join (sep : string) (parts : list string) : string :=
  match parts with
  | [] => EmptyString
  | [p] => p
  | p :: rest => p +:+ sep +:+ join sep rest
  end.

(** [a.localeCompare(b)] on the timestamps the sources compare.  Both are
    [toISOString()] results, fixed-width digit strings with the same
    punctuation, on which collation is the code-unit order. *)
Fixpoint localeCompare (a b : string) : Z :=
  match a, b with
  | EmptyString, EmptyString => 0
  | EmptyString, String _ _ => -1
  | String _ _, EmptyString => 1
  | String x a', String y b' =>
      if (code x <? code y)%N then -1
      else if (code y <? code x)%N then 1
      else localeCompare a' b'
  end%Z.

(** [Array.prototype.sort(cmp)].  The sort is stable and, for a consistent
    comparator, its result is the unique stable arrangement; insertion from
    the right computes it. *)
Section Sort.
Context {A : Type} (cmp : A -> A -> Z).

Fixpoint insertSorted (x : A) (l : list A) : list A :=
  match l with
  | [] => [x]
  | y :: l' => if (cmp x y <=? 0)%Z then x :: l else y :: insertSorted x l'
  end.

Definition sort (l : list A) : list A := foldr insertSorted [] l.
End Sort.

(** A duck-typed value: a string, or any other value, given by what the
    sources observe of it, namely its truthiness and [String(v)]. *)
Inductive JsVal : Type :=
  | JStr (s : string)
  | JOther (truthy : bool) (shown : string).

Definition undefined : JsVal := JOther false "undefined".

Definition truthy (v : JsVal) : bool :=
  match v with
  | JStr s => negb (isEmpty s)
  | JOther t _ => t
  end.

(** [String(v)], also the conversion done by [+] with a string. *)
Definition toStr (v : JsVal) : string :=
  match v with
  | JStr s => s
  | JOther _ shown => shown
  end.

(** [a || b] *)
Definition orElse (a b : JsVal) : JsVal := if truthy a then a else b.

#[global] Instance JsVal_eq_dec : EqDecision JsVal.
Proof. solve_decision. Defined.

End Js.

(** ** utils/memory.js: the central conversation memory *)

Module Memory.
Import Js.

(** [MEMORY_LIMITS] *)
Definition maxEntities : nat := 30.
Definition maxDecisions : nat := 20.
Definition maxOpenQuestions : nat := 10.
Definition maxConstraints : nat := 15.

(** An entry of [memory.entities]. *)
Record Entity : Type := mkEntity {
  name : string;
  type : JsVal;
  summary : JsVal;
  mentions : Z;
  last_updated : string;
}.

(** An entry of [memory.decisions] and [memory.open_questions]. *)
Record Item : Type := mkItem {
  text : string;
  added_at : string;
}.

Record ConversationMemory : Type := mkMemory {
  version : Z;
  conversation_id : string;
  created_at : string;
  updated_at : string;
  topic : JsVal;
  user_goal : JsVal;
  entities : list Entity;
  decisions : list Item;
  open_questions : list Item;
  constraints : list string;
  current_task : JsVal;
  iteration_count : Z;
}.

(** An element of [summary.entities], read through its three properties; a
    property that is absent, and any property of an element that is not an
    object, is [undefined]. *)
Record SummaryEntity : Type := mkSummaryEntity {
  se_name : JsVal;
  se_type : JsVal;
  se_summary : JsVal;
}.

(** The summary object handed to [mergeMemory].  A list field is [None] when
    [Array.isArray] rejects it. *)
Record Summary : Type := mkSummary {
  s_topic : JsVal;
  s_user_goal : JsVal;
  s_important_facts : option (list JsVal);
  s_decisions_made : option (list JsVal);
  s_current_task : JsVal;
  s_entities : option (list SummaryEntity);
  s_open_questions : option (list JsVal);
  s_constraints : option (list JsVal);
}.

#[global] Instance Entity_eq_dec : EqDecision Entity.
Proof. solve_decision. Defined.

#[global] Instance Item_eq_dec : EqDecision Item.
Proof. solve_decision. Defined.

Definition createEmptyMemory (conversationId now : string) : ConversationMemory :=
  {| version := 1;
     conversation_id := conversationId;
     created_at := now;
     updated_at := now;
     topic := JStr "";
     user_goal := JStr "";
     entities := [];
     decisions := [];
     open_questions := [];
     constraints := [];
     current_task := JStr "";
     iteration_count := 0 |}.

Definition memoryKey (conversationId : string) : string :=
  "dupermemory_" +:+ conversationId.

(** The key under which the entity loop of [mergeMemory] compares names:
    [name.toLowerCase().trim()]. *)
Definition nameKey (n : string) : string := trim (toLowerCase n).

(** The body of the inner loop on a match: the existing entity is updated in
    place. *)
Definition touchEntity (incoming : SummaryEntity) (now : string) (e : Entity) : Entity :=
  {| name := name e;
     type := if truthy (se_type incoming) then se_type incoming else type e;
     summary := if truthy (se_summary incoming) then se_summary incoming else summary e;
     mentions := mentions e + 1;
     last_updated := now |}.

(** The inner loop over [memory.entities]: the first entity whose key is
    [nameLower] is updated and the loop breaks; [None] when [found] stays
    false. *)
Fixpoint updateExisting (nameLower : string) (incoming : SummaryEntity)
    (now : string) (ents : list Entity) : option (list Entity) :=
  match ents with
  | [] => None
  | e :: rest =>
      if String.eqb (nameKey (name e)) nameLower
      then Some (touchEntity incoming now e :: rest)
      else match updateExisting nameLower incoming now rest with
           | Some rest' => Some (e :: rest')
           | None => None
           end
  end.

(** One iteration of the outer entity loop.  [None] is the TypeError raised
    by [incoming.name.toLowerCase()] on a truthy name that is not a string. *)
Definition mergeEntity (now : string) (ents : list Entity)
    (incoming : SummaryEntity) : option (list Entity) :=
  if negb (truthy (se_name incoming)) then Some ents
  else match se_name incoming with
       | JOther _ _ => None
       | JStr n =>
           match updateExisting (nameKey n) incoming now ents with
           | Some ents' => Some ents'
           | None =>
               Some (ents ++ [ {| name := trim n;
                                  type := orElse (se_type incoming) (JStr "other");
                                  summary := orElse (se_summary incoming) (JStr "");
                                  mentions := 1;
                                  last_updated := now |} ])
           end
       end.

Fixpoint mergeEntities (now : string) (ents : list Entity)
    (incoming : list SummaryEntity) : option (list Entity) :=
  match incoming with
  | [] => Some ents
  | inc :: rest =>
      ents' ← mergeEntity now ents inc;
      mergeEntities now ents' rest
  end.

(** [hay.indexOf(needle) !== -1] *)
Definition includes (hay needle : string) : bool :=
  negb (indexOf hay needle =? -1)%Z.

(** [isDuplicate(existingArray, newText)].  An entry whose [text] is falsy
    makes [(entry.text || entry).toLowerCase()] a call on the entry object,
    which throws: [None]. *)
Fixpoint isDuplicate (existingArray : list Item) (newText : string) : option bool :=
  let lower := toLowerCase newText in
  match existingArray with
  | [] => Some false
  | it :: rest =>
      if isEmpty (text it) then None
      else
        let existing := toLowerCase (text it) in
        if String.eqb existing lower then Some true
        else if includes existing lower || includes lower existing then Some true
        else isDuplicate rest newText
  end.

(** The loops over [summary.decisions_made] and [summary.open_questions]. *)
Fixpoint mergeItems (now : string) (items : list Item)
    (incoming : list JsVal) : option (list Item) :=
  match incoming with
  | [] => Some items
  | v :: rest =>
      let t := trim (toStr v) in
      if isEmpty t then mergeItems now items rest
      else
        match isDuplicate items t with
        | None => None
        | Some true => mergeItems now items rest
        | Some false =>
            mergeItems now (items ++ [ {| text := t; added_at := now |} ]) rest
        end
  end.

(** The loop over [summary.constraints]: exact-match deduplication. *)
Fixpoint mergeConstraints (cons : list string) (incoming : list JsVal) : list string :=
  match incoming with
  | [] => cons
  | v :: rest =>
      let c := trim (toStr v) in
      if isEmpty c then mergeConstraints cons rest
      else if bool_decide (c ∈ cons) then mergeConstraints cons rest
      else mergeConstraints (cons ++ [c]) rest
  end.

(** The comparator handed to [sort] by [evict]. *)
Definition entityCompare (a b : Entity) : Z :=
  if negb (mentions a =? mentions b)%Z then (mentions b - mentions a)%Z
  else localeCompare (last_updated a) (last_updated b).

(** [arr.slice(arr.length - n)]: the last [n] elements. *)
Definition lastN {A : Type} (n : nat) (l : list A) : list A :=
  drop (length l - n) l.

Definition evict (memory : ConversationMemory) : ConversationMemory :=
  {| version := version memory;
     conversation_id := conversation_id memory;
     created_at := created_at memory;
     updated_at := updated_at memory;
     topic := topic memory;
     user_goal := user_goal memory;
     entities :=
       if (maxEntities <? length (entities memory))%nat
       then take maxEntities (sort entityCompare (entities memory))
       else entities memory;
     decisions :=
       if (maxDecisions <? length (decisions memory))%nat
       then lastN maxDecisions (decisions memory)
       else decisions memory;
     open_questions :=
       if (maxOpenQuestions <? length (open_questions memory))%nat
       then lastN maxOpenQuestions (open_questions memory)
       else open_questions memory;
     constraints :=
       if (maxConstraints <? length (constraints memory))%nat
       then lastN maxConstraints (constraints memory)
       else constraints memory;
     current_task := current_task memory;
     iteration_count := iteration_count memory |}.

(** Application of a list loop under its [Array.isArray] guard. *)
Definition whenArray {A B : Type} (field : option (list A))
    (loop : list A -> option B) (skip : B) : option B :=
  match field with
  | Some l => loop l
  | None => Some skip
  end.

(** [mergeMemory(memory, summary)] at clock reading [now].  [None] when one
    of the loops throws; the caller then drops the memory object. *)
Definition mergeMemory (memory : ConversationMemory) (summary : Summary)
    (now : string) : option ConversationMemory :=
  ents ← whenArray (s_entities summary)
           (mergeEntities now (entities memory)) (entities memory);
  decs ← whenArray (s_decisions_made summary)
           (mergeItems now (decisions memory)) (decisions memory);
  qs ← whenArray (s_open_questions summary)
           (mergeItems now (open_questions memory)) (open_questions memory);
  let cons := match s_constraints summary with
              | Some l => mergeConstraints (constraints memory) l
              | None => constraints memory
              end in
  Some (evict
    {| version := version memory;
       conversation_id := conversation_id memory;
       created_at := created_at memory;
       updated_at := now;
       topic := orElse (s_topic summary) (topic memory);
       user_goal := orElse (s_user_goal summary) (user_goal memory);
       entities := ents;
       decisions := decs;
       open_questions := qs;
       constraints := cons;
       current_task := orElse (s_current_task summary) (current_task memory);
       iteration_count := iteration_count memory + 1 |}).

End Memory.

(** ** utils/summarize-generic.js: decoding of a target reply *)

Module Summarize.
Import Js Memory.

Definition MEMORY_START_MARKER : string := "---MEMORY---".
Definition MEMORY_END_MARKER : string := "---END MEMORY---".

Definition newline : ascii := ascii_of_nat 10.

(** [a || b] on strings. *)
Definition orStr (a b : string) : string := if isEmpty a then b else a.

(** [str.split(";").map(trim).filter(nonempty)], or [[]] for a falsy [str]. *)
Definition splitSemicolons (str : string) : list string :=
  if isEmpty str then []
  else filter (λ s, (0 <? strlen s)%Z = true) (map trim (split ";" str)).

Definition strEntity (n t s : string) : SummaryEntity :=
  {| se_name := JStr n; se_type := JStr t; se_summary := JStr s |}.

(** [parseEntityEntry(entry)]: [name/type/summary], split on the first two
    slashes; [None] is the [null] returned for an empty name. *)
Definition parseEntityEntry (entry : string) : option SummaryEntity :=
  let first := indexOf entry "/" in
  if (first =? -1)%Z then
    if isEmpty (trim entry) then None
    else Some (strEntity (trim entry) "other" "")
  else
    let name := trim (slice entry 0 first) in
    let rest := sliceFrom entry (first + 1) in
    let second := indexOf rest "/" in
    if (second =? -1)%Z then
      if isEmpty name then None
      else Some (strEntity name (orStr (trim rest) "other") "")
    else
      let type := orStr (trim (slice rest 0 second)) "other" in
      let summary := trim (sliceFrom rest (second + 1)) in
      if isEmpty name then None
      else Some (strEntity name type summary).

(** [line.replace(/^[-*]\s*/, "")]: one leading dash or star and the white
    space after it. *)
Definition stripBullet (line : string) : string :=
  match line with
  | String c rest =>
      if Ascii.eqb c "-" || Ascii.eqb c "*" then trimStart rest else line
  | EmptyString => line
  end.

(** The body of the loop over the lines of a memory block: [fields] is the
    object that collects [key: value] pairs, the last value of a key wins.
    Only fixed keys are read back from it. *)
Definition readLine (fields : gmap string string) (rawLine : string) : gmap string string :=
  let line := trim rawLine in
  if isEmpty line then fields
  else
    let line := stripBullet line in
    let colonIdx := indexOf line ":" in
    if (colonIdx =? -1)%Z then fields
    else
      let key := toLowerCase (trim (slice line 0 colonIdx)) in
      let value := trim (sliceFrom line (colonIdx + 1)) in
      if isEmpty value then fields
      else <[key := value]> fields.

Definition readFields (blockStr : string) : gmap string string :=
  foldl readLine ∅ (split newline blockStr).

(** [fields[k]], with the empty string standing for [undefined]: a stored
    value is never empty. *)
Definition field (fields : gmap string string) (k : string) : string :=
  default "" (fields !! k).

Definition keepSome {A : Type} (l : list (option A)) : list A :=
  omap id l.

(** [parseMemoryBlock(blockStr)]; [None] is [null]. *)
Definition parseMemoryBlock (blockStr : string) : option Summary :=
  let fields := readFields blockStr in
  let topic := orStr (field fields "topic") "" in
  let userGoal :=
    orStr (field fields "goal")
      (orStr (field fields "user goal") (orStr (field fields "user_goal") "")) in
  let currentTask :=
    orStr (field fields "task")
      (orStr (field fields "current task") (orStr (field fields "current_task") "")) in
  let factsRaw :=
    orStr (field fields "facts")
      (orStr (field fields "important facts") (orStr (field fields "important_facts") "")) in
  let decsRaw :=
    orStr (field fields "decisions")
      (orStr (field fields "decisions made") (orStr (field fields "decisions_made") "")) in
  let openRaw :=
    orStr (field fields "open")
      (orStr (field fields "open questions") (orStr (field fields "open_questions") "")) in
  let consRaw := orStr (field fields "constraints") "" in
  let entsRaw := orStr (field fields "entities") "" in
  let facts := splitSemicolons factsRaw in
  let decisions := splitSemicolons decsRaw in
  let openQs := splitSemicolons openRaw in
  let constraints := splitSemicolons consRaw in
  let entities := keepSome (map parseEntityEntry (splitSemicolons entsRaw)) in
  if isEmpty topic && isEmpty userGoal && isEmpty currentTask
     && (length facts =? 0)%nat && (length decisions =? 0)%nat
     && (length entities =? 0)%nat
  then None
  else Some
    {| s_topic := JStr topic;
       s_user_goal := JStr userGoal;
       s_important_facts := Some (map JStr facts);
       s_decisions_made := Some (map JStr decisions);
       s_current_task := JStr currentTask;
       s_entities := Some entities;
       s_open_questions := Some (map JStr openQs);
       s_constraints := Some (map JStr constraints) |}.

(** The result of [parseTargetResponse]. *)
Record TargetResponse : Type := mkTargetResponse {
  reply : string;
  memoryUpdate : option Summary;
}.

Section WithJson.
(** The first steps of [parseSummary]: fence stripping, [trim],
    [JSON.parse], and the reads of the eight properties of the parsed
    value ([None] in a list field when it is not an array).  The
    result is [None] when the [try] block throws.  [JSON.parse] is a
    built-in of the host, so these steps are a parameter. *)
Variable readJson : string -> option Summary.

Definition stringArray (field : option (list JsVal)) : option (list JsVal) :=
  Some (match field with
        | Some l => map (λ v, JStr (toStr v)) l
        | None => []
        end).

(** [parseSummary(rawText)]: the normalisation of the parsed object, and
    the degraded result of the [catch] block. *)
Definition parseSummary (rawText : string) : Summary :=
  match readJson rawText with
  | Some obj =>
      {| s_topic := JStr (toStr (orElse (s_topic obj) (JStr "")));
         s_user_goal := JStr (toStr (orElse (s_user_goal obj) (JStr "")));
         s_important_facts := stringArray (s_important_facts obj);
         s_decisions_made := stringArray (s_decisions_made obj);
         s_current_task := JStr (toStr (orElse (s_current_task obj) (JStr "")));
         s_entities :=
           Some (match s_entities obj with
                 | Some l => filter (λ e, truthy (se_name e) = true) l
                 | None => []
                 end);
         s_open_questions := stringArray (s_open_questions obj);
         s_constraints := stringArray (s_constraints obj) |}
  | None =>
      {| s_topic := JStr "";
         s_user_goal := JStr "";
         s_important_facts := Some [];
         s_decisions_made := Some [];
         s_current_task := JStr rawText;
         s_entities := Some [];
         s_open_questions := Some [];
         s_constraints := Some [] |}
  end.

(** [arr.length > 0] under the shape [parseSummary] guarantees. *)
Definition nonEmptyArray {A : Type} (field : option (list A)) : bool :=
  match field with
  | Some (_ :: _) => true
  | _ => false
  end.

(** The [hasData] test of the JSON branch. *)
Definition hasData (jsonParsed : Summary) : bool :=
  truthy (s_topic jsonParsed) || truthy (s_user_goal jsonParsed)
  || truthy (s_current_task jsonParsed)
  || nonEmptyArray (s_entities jsonParsed)
  || nonEmptyArray (s_decisions_made jsonParsed).

(** [parseTargetResponse(fullText)] on a string. *)
Definition parseTargetResponse (fullText : string) : TargetResponse :=
  if isEmpty fullText then {| reply := ""; memoryUpdate := None |}
  else
    let startIdx := indexOf fullText MEMORY_START_MARKER in
    let endIdx := indexOf fullText MEMORY_END_MARKER in
    if (startIdx =? -1)%Z || (endIdx =? -1)%Z || (endIdx <=? startIdx)%Z
    then {| reply := trim fullText; memoryUpdate := None |}
    else
      let reply := trim (slice fullText 0 startIdx) in
      let blockStr :=
        trim (slice fullText (startIdx + strlen MEMORY_START_MARKER) endIdx) in
      if startsWithChar "{" blockStr then
        let jsonParsed := parseSummary blockStr in
        {| reply := reply;
           memoryUpdate := if hasData jsonParsed then Some jsonParsed else None |}
      else
        {| reply := reply; memoryUpdate := parseMemoryBlock blockStr |}.
End WithJson.

End Summarize.

(** ** utils/format.js: the context block *)

Module Format.
Import Js Memory.

(** The regular expressions of [META_PATTERNS] use literals, [\b], [\s*],
    [\s+], [.*], alternation and an optional group, all under the flag [i]. *)
Inductive Regex : Type :=
  | RLit (lit : string)
  | RWordBoundary
  | RClass (class : ascii -> bool)
  | RStar (class : ascii -> bool)
  | RSeq (r1 r2 : Regex)
  | RAlt (r1 r2 : Regex)
  | ROpt (r : Regex).

(** [.] matches any character but a line terminator. *)
Definition isDot (c : ascii) : bool :=
  negb ((code c =? 10)%N || (code c =? 13)%N).

Definition isWordOpt (c : option ascii) : bool :=
  match c with
  | Some c => isWordChar c
  | None => false
  end.

Definition headChar (s : string) : option ascii :=
  match s with
  | String c _ => Some c
  | EmptyString => None
  end.

(** A literal matched without regard to case; [k] receives the last
    character consumed and the rest of the input. *)
Fixpoint matchLit (lit : string) (prev : option ascii) (s : string)
    (k : option ascii -> string -> bool) : bool :=
  match lit with
  | EmptyString => k prev s
  | String x lit' =>
      match s with
      | String c s' =>
          if Ascii.eqb (lowerChar c) (lowerChar x)
          then matchLit lit' (Some c) s' k
          else false
      | EmptyString => false
      end
  end.

(** Zero or more characters of a class, every split tried. *)
Fixpoint matchStar (class : ascii -> bool) (prev : option ascii) (s : string)
    (k : option ascii -> string -> bool) : bool :=
  if k prev s then true
  else match s with
       | String c s' => if class c then matchStar class (Some c) s' k else false
       | EmptyString => false
       end.

(** Backtracking matcher in continuation-passing style: [matchRe r prev s k]
    holds when [r] matches a prefix of [s] (the character before [s] being
    [prev]) and [k] accepts what follows. *)
Fixpoint matchRe (r : Regex) (prev : option ascii) (s : string)
    (k : option ascii -> string -> bool) : bool :=
  match r with
  | RLit lit => matchLit lit prev s k
  | RWordBoundary =>
      if xorb (isWordOpt prev) (isWordOpt (headChar s)) then k prev s else false
  | RClass class =>
      match s with
      | String c s' => if class c then k (Some c) s' else false
      | EmptyString => false
      end
  | RStar class => matchStar class prev s k
  | RSeq r1 r2 => matchRe r1 prev s (λ prev' s', matchRe r2 prev' s' k)
  | RAlt r1 r2 => if matchRe r1 prev s k then true else matchRe r2 prev s k
  | ROpt r1 => if matchRe r1 prev s k then true else k prev s
  end.

(** [re.test(text)]: a match starting at any position. *)
Fixpoint testFrom (r : Regex) (prev : option ascii) (s : string) : bool :=
  if matchRe r prev s (λ _ _, true) then true
  else match s with
       | String c s' => testFrom r (Some c) s'
       | EmptyString => false
       end.

Definition test (r : Regex) (text : string) : bool := testFrom r None text.

Fixpoint reSeq (rs : list Regex) : Regex :=
  match rs with
  | [] => RLit ""
  | [r] => r
  | r :: rest => RSeq r (reSeq rest)
  end.

Fixpoint reAlt (rs : list Regex) : Regex :=
  match rs with
  | [] => RLit ""
  | [r] => r
  | r :: rest => RAlt r (reAlt rest)
  end.

Definition wordEdge : Regex := RWordBoundary.
Definition spaces0 : Regex := RStar isWhiteSpace.
(** [\s+] is [\s\s*]. *)
Definition spaces1 : Regex := RSeq (RClass isWhiteSpace) (RStar isWhiteSpace).

Definition META_PATTERNS : list Regex :=
  [ reSeq [wordEdge; RLit "json"; wordEdge];
    reSeq [wordEdge; RLit "structure"; ROpt (RLit "d"); spaces0;
         reAlt [RLit "output"; RLit "format"; RLit "data"]; wordEdge];
    reSeq [wordEdge; RLit "no"; spaces1; reAlt [RLit "additional"; RLit "extra"; RLit "other"];
         spaces1; RLit "text"; wordEdge];
    reSeq [wordEdge; RLit "exact"; spaces1; ROpt (RSeq (RLit "provided") spaces1);
         RLit "structure"; wordEdge];
    reSeq [wordEdge; RLit "valid"; spaces1; RLit "json"; wordEdge];
    reSeq [wordEdge; RLit "formatting"; spaces1; reAlt [RLit "outside"; RLit "beyond"]; wordEdge];
    reSeq [wordEdge; RLit "browser"; spaces1; RLit "extension"; wordEdge];
    reSeq [wordEdge; RLit "summariz"; reAlt [RLit "e"; RLit "ing"]; spaces1;
         reAlt [RLit "the"; RLit "our"; RLit "this"]; spaces1; RLit "conversation"; wordEdge];
    reSeq [wordEdge; RLit "must"; spaces1; RLit "follow"; spaces1; reAlt [RLit "the"; RLit "this"];
         spaces1; RStar isDot; RLit "structure"; wordEdge];
    reSeq [wordEdge; RLit "no"; spaces1; RLit "markdown"; wordEdge] ].

(** [isMetaInstruction(text)] *)
Definition isMetaInstruction (text : string) : bool :=
  existsb (λ r, test r text) META_PATTERNS.

(** U+2014, as its UTF-8 bytes. *)
Definition emDash : string :=
  String (ascii_of_nat 226) (String (ascii_of_nat 128) (String (ascii_of_nat 148) EmptyString)).

Definition entityLine (e : Entity) : string :=
  let line := "- " +:+ name e +:+ " (" +:+ toStr (type e) +:+ ")" in
  if truthy (summary e) then line +:+ ": " +:+ toStr (summary e) else line.

(** ["- " + (item.text || item)]: an item without text is shown as the
    object it is. *)
Definition itemLine (it : Item) : string :=
  "- " +:+ (if isEmpty (text it) then "[object Object]" else text it).

Definition entityLines (memory : ConversationMemory) : list string :=
  match entities memory with
  | [] => []
  | es => "Key entities:" :: map entityLine es
  end.

Definition decisionLines (memory : ConversationMemory) : list string :=
  match decisions memory with
  | [] => []
  | ds => "Decisions made:" :: map itemLine ds
  end.

Definition questionLines (memory : ConversationMemory) : list string :=
  match open_questions memory with
  | [] => []
  | qs => "Open questions:" :: map itemLine qs
  end.

(** The constraints that pass the meta-instruction filter. *)
Definition filteredConstraints (memory : ConversationMemory) : list string :=
  filter (λ c, isMetaInstruction c = false) (constraints memory).

Definition constraintLines (memory : ConversationMemory) : list string :=
  match filteredConstraints memory with
  | [] => []
  | fs => "Constraints:" :: map (λ c, "- " +:+ c) fs
  end.

(** The variable [task] after sanitising. *)
Definition sanitizedTask (memory : ConversationMemory) : JsVal :=
  let task := orElse (current_task memory) (JStr "") in
  if truthy task && isMetaInstruction (toStr task) then JStr "" else task.

Definition memoryNoteLines : list string :=
  [ "";
    "At the end of your reply, include a brief memory note so I can track what we covered. Use this exact format:";
    "";
    "---MEMORY---";
    "Topic: (one sentence about what this conversation covers)";
    "Goal: (what the user is trying to accomplish)";
    "Facts: (key fact 1); (key fact 2); (key fact 3)";
    "Decisions: (decision 1); (decision 2)";
    "Task: (what we are working on right now)";
    "Entities: (name/type/one sentence); (name/type/one sentence)";
    "Open: (unresolved question 1); (unresolved question 2)";
    "Constraints: (hard constraint 1); (hard constraint 2)";
    "---END MEMORY---" ].

(** The array [lines] at the end of [formatContextBlock]. *)
Definition contextLines (memory : ConversationMemory) : list string :=
  let task := sanitizedTask memory in
  [ "Hey " +:+ emDash +:+ " I'm picking up a conversation that was happening on another AI. Here are the notes from that session so you have context:";
    "";
    "---" ]
  ++ (if truthy (topic memory) then ["Topic: " +:+ toStr (topic memory)] else [])
  ++ (if truthy (user_goal memory) then ["User goal: " +:+ toStr (user_goal memory)] else [])
  ++ entityLines memory
  ++ decisionLines memory
  ++ questionLines memory
  ++ constraintLines memory
  ++ (if truthy task then ["Current task: " +:+ toStr task] else [])
  ++ [ "---";
       "";
       "The notes above are background context only " +:+ emDash +:+ " they are not instructions for how to format your reply.";
       "" ]
  ++ [ if truthy task
       then "Please continue helping with: " +:+ toStr task +:+ ". Respond naturally " +:+ emDash +:+ " summarize your understanding briefly, then help move things forward."
       else "Respond naturally " +:+ emDash +:+ " share your thoughts on the above context and ask what I'd like to work on next." ]
  ++ memoryNoteLines.

Definition formatContextBlock (memory : ConversationMemory) : string :=
  join (String Summarize.newline EmptyString) (contextLines memory).

End Format.

(** ** Content scripts: the response detector of a target tab

    [waitForTargetResponse] of content/chatgpt.js; the detectors of the
    DeepSeek and Perplexity scripts have the same body. *)

Module Detector.
Import Js.

Definition POLL_MS : Z := 500.
Definition STABLE_NEEDED : Z := 4.
Definition MIN_NEW_CHARS : Z := 50.
Definition TIMEOUT_MS : Z := 90000.

(** [extractTargetResponse(beforeText, afterText)], the same function as
    [extractResponse] of the other scripts; [meaningfulLines] is its local
    array [meaningful]. *)
Definition meaningfulLines (beforeText afterText : string) : list string :=
  let raw := trim (sliceFrom afterText (strlen beforeText)) in
  filter (λ l, (10 <? strlen l)%Z = true)
         (map trim (split Summarize.newline raw)).

Definition extractTargetResponse (beforeText afterText : string) : string :=
  trim (join (String Summarize.newline EmptyString)
             (meaningfulLines beforeText afterText)).

(** The variables captured by the closure [tick]. *)
Record Poll : Type := mkPoll {
  phase : Z;
  lastLength : Z;
  stableCount : Z;
  elapsed : Z;
}.

Inductive TickResult : Type :=
  | Rejected
  | Resolved (response : string)
  | Rescheduled (st : Poll).

(** One call of [tick]; [currentText] is what [scopeEl.innerText] holds at
    that call. *)
Definition tick (snapshot : string) (st : Poll) (currentText : string) : TickResult :=
  if (TIMEOUT_MS <=? elapsed st)%Z then Rejected
  else if (phase st =? 1)%Z then
    if (strlen snapshot + MIN_NEW_CHARS <? strlen currentText)%Z
    then Rescheduled {| phase := 2;
                        lastLength := strlen currentText;
                        stableCount := stableCount st;
                        elapsed := elapsed st + POLL_MS |}
    else Rescheduled {| phase := phase st;
                        lastLength := lastLength st;
                        stableCount := stableCount st;
                        elapsed := elapsed st + POLL_MS |}
  else if (strlen currentText =? lastLength st)%Z then
    if (STABLE_NEEDED <=? stableCount st + 1)%Z
    then Resolved (extractTargetResponse snapshot currentText)
    else Rescheduled {| phase := phase st;
                        lastLength := lastLength st;
                        stableCount := stableCount st + 1;
                        elapsed := elapsed st + POLL_MS |}
  else Rescheduled {| phase := phase st;
                      lastLength := strlen currentText;
                      stableCount := 0;
                      elapsed := elapsed st + POLL_MS |}.

(** The state when the promise is created; [initialText] is the text read
    there. *)
Definition initialPoll (initialText : string) : Poll :=
  {| phase := 1;
     lastLength := strlen initialText;
     stableCount := 0;
     elapsed := 0 |}.

(** How the promise settles. *)
Inductive Settled : Type :=
  | Timeout
  | Response (response : string).

(** The chain of timer callbacks: [observe n] is the text on the page at the
    [n]-th call of [tick].  [None] when [fuel] calls did not settle the
    promise. *)
Fixpoint polling (fuel : nat) (snapshot : string) (observe : nat -> string)
    (n : nat) (st : Poll) : option Settled :=
  match fuel with
  | O => None
  | S fuel' =>
      match tick snapshot st (observe n) with
      | Rejected => Some Timeout
      | Resolved r => Some (Response r)
      | Rescheduled st' => polling fuel' snapshot observe (S n) st'
      end
  end.

(** Calls of [tick] that always settle the promise: 180 polls and the call
    that sees the timeout. *)
Definition maxTicks : nat := 181.

Definition waitForTargetResponse (snapshot initialText : string)
    (observe : nat -> string) : option Settled :=
  polling maxTicks snapshot observe 0 (initialPoll initialText).

End Detector.

(** ** utils/models.js and background.js: registry and message handler *)

Module Background.
Import Js Memory.

Record Model : Type := mkModel {
  key : string;
  name : string;
  url : string;
  readyType : string;
  responseType : string;
}.

(** [MODEL_REGISTRY], in the order [for ... in] enumerates its keys. *)
Definition MODEL_REGISTRY : list Model :=
  [ mkModel "chatgpt" "ChatGPT" "https://chatgpt.com" "CHATGPT_READY" "CHATGPT_RESPONSE";
    mkModel "claude" "Claude" "https://claude.ai" "CLAUDE_READY" "CLAUDE_RESPONSE";
    mkModel "gemini" "Gemini" "https://gemini.google.com/app" "GEMINI_READY" "GEMINI_RESPONSE";
    mkModel "perplexity" "Perplexity" "https://www.perplexity.ai/" "PERPLEXITY_READY" "PERPLEXITY_RESPONSE";
    mkModel "deepseek" "DeepSeek" "https://chat.deepseek.com/" "DEEPSEEK_READY" "DEEPSEEK_RESPONSE" ].

Definition getModelByMessageType (type : string) : option Model :=
  find (λ m, String.eqb (readyType m) type || String.eqb (responseType m) type)
       MODEL_REGISTRY.

Definition getModelList (sourceModel : option string) : list (string * string) :=
  map (λ m, (key m, name m))
      (filter (λ m, match sourceModel with
                    | Some src => negb (isEmpty src) && String.eqb (key m) src
                    | None => false
                    end = false)
              MODEL_REGISTRY).

(** A tab identifier.  Chrome numbers tabs from 1, so an identifier is never
    the falsy number 0; a message that does not come from a tab has none. *)
Definition TabId : Type := positive.

(** An entry of [pendingContext]. *)
Record PendingHandoff : Type := mkHandoff {
  contextBlock : string;
  h_sourceTabId : TabId;
  h_conversationId : string;
}.

(** An entry of [pendingReview]. *)
Record PendingReview : Type := mkReview {
  r_sourceTabId : TabId;
  r_conversationId : string;
}.

(** The two module-level maps of the service worker. *)
Record State : Type := mkState {
  pendingContext : gmap positive PendingHandoff;
  pendingReview : gmap positive PendingReview;
}.

Definition initialState : State :=
  {| pendingContext := ∅; pendingReview := ∅ |}.

Record Message : Type := mkMessage {
  m_type : string;
  m_sourceModel : option string;
  m_summary : option Summary;
  m_targetModel : string;
  m_conversationId : string;
  m_content : string;
}.

(** What a call of the listener does besides updating the maps. *)
Inductive Effect : Type :=
  | RespondModels (models : list (string * string))
  | CallHandleCapture (summary : option Summary) (targetModel conversationId : string)
      (sourceTab : option TabId)
  | RespondInject (contextBlock conversationId : string)
  | RespondNull
  | MergeUpdate (conversationId : string) (update : Summary)
  | SendCritique (tab : TabId) (content : string).

(** The text [sendCritiqueToTab] sends. *)
Definition critiqueContent (modelName response : string) : string :=
  modelName +:+ " reviewed your answer. Revise your response considering this critique:"
  +:+ String Summarize.newline (String Summarize.newline EmptyString) +:+ response.

Section Listener.
Variable readJson : string -> option Summary.

(** The READY branch. *)
Definition onReady (st : State) (senderTabId : option TabId) : State * list Effect :=
  match senderTabId with
  | Some tab =>
      match pendingContext st !! tab with
      | Some pending =>
          ({| pendingContext := delete tab (pendingContext st);
              pendingReview :=
                <[tab := {| r_sourceTabId := h_sourceTabId pending;
                            r_conversationId := h_conversationId pending |}]>
                  (pendingReview st) |},
           [RespondInject (contextBlock pending) (h_conversationId pending)])
      | None => (st, [RespondNull])
      end
  | None => (st, [RespondNull])
  end.

(** The RESPONSE branch. *)
Definition onResponse (st : State) (respModel : Model) (content : string)
    (senderTabId : option TabId) : State * list Effect :=
  match senderTabId with
  | Some tab =>
      match pendingReview st !! tab with
      | Some review =>
          let parsed := Summarize.parseTargetResponse readJson content in
          ({| pendingContext := pendingContext st;
              pendingReview := delete tab (pendingReview st) |},
           match Summarize.memoryUpdate parsed with
           | Some update =>
               if isEmpty (r_conversationId review) then []
               else [MergeUpdate (r_conversationId review) update]
           | None => []
           end
           ++ [SendCritique (r_sourceTabId review)
                 (critiqueContent (name respModel) (Summarize.reply parsed))])
      | None => (st, [])
      end
  | None => (st, [])
  end.

(** The listener registered with [chrome.runtime.onMessage]. *)
Definition onMessage (st : State) (message : Message)
    (senderTabId : option TabId) : State * list Effect :=
  if String.eqb (m_type message) "GET_MODELS" then
    (st, [RespondModels (getModelList (m_sourceModel message))])
  else if String.eqb (m_type message) "CAPTURE" then
    (st, [CallHandleCapture (m_summary message) (m_targetModel message)
            (m_conversationId message) senderTabId])
  else
    match getModelByMessageType (m_type message) with
    | Some model =>
        if String.eqb (m_type message) (readyType model)
        then onReady st senderTabId
        else if String.eqb (m_type message) (responseType model)
        then onResponse st model (m_content message) senderTabId
        else (st, [])
    | None => (st, [])
    end.

(** The callback of [chrome.tabs.create] in [handleCapture]. *)
Definition onTabCreated (st : State) (tab : TabId) (handoff : PendingHandoff) : State :=
  {| pendingContext := <[tab := handoff]> (pendingContext st);
     pendingReview := pendingReview st |}.

(** The events of the service worker.  A tab handed to the callback of
    [chrome.tabs.create] is new: Chrome does not reuse the identifier of
    a tab during a browser session. *)
Inductive step : State -> State -> Prop :=
  | step_message st message sender :
      step st (fst (onMessage st message sender))
  | step_tab_created st tab handoff :
      pendingContext st !! tab = None ->
      pendingReview st !! tab = None ->
      step st (onTabCreated st tab handoff).

Inductive reachable : State -> Prop :=
  | reachable_initial : reachable initialState
  | reachable_step st st' : reachable st -> step st st' -> reachable st'.
End Listener.

End Background.

(** ** utils/memory.js: reading and writing the stored memory *)

Module Storage.
Import Js Memory.

(** [readMemory(conversationId)] over the records of [chrome.storage.local].
    The promise always resolves: with the record stored under the key of
    the conversation, or with a fresh memory when there is none or when the
    read reports [lastError] ([failed]). *)
Definition readMemory (store : gmap string ConversationMemory) (failed : bool)
    (conversationId now : string) : ConversationMemory :=
  if failed then createEmptyMemory conversationId now
  else match store !! memoryKey conversationId with
       | Some memory => memory
       | None => createEmptyMemory conversationId now
       end.

(** [writeMemory(memory)]: the record goes under the key of the
    conversation the memory names; a write that reports [lastError] leaves
    the records as they were. *)
Definition writeMemory (store : gmap string ConversationMemory) (failed : bool)
    (memory : ConversationMemory) : gmap string ConversationMemory :=
  if failed then store
  else <[memoryKey (conversation_id memory) := memory]> store.

(** The promise chain of [handleCapture] and of the RESPONSE branch:
    [readMemory(id).then(memory => writeMemory(mergeMemory(memory, summary)))].
    The read sees the records [store]; the write lands on the records
    [later], which other chains may have changed in between.  [None] when
    [mergeMemory] throws and the chain is rejected; nothing is written
    then. *)
Definition mergeIntoStore (store later : gmap string ConversationMemory)
    (readFailed writeFailed : bool) (conversationId : string) (summary : Summary)
    (nowRead nowMerge : string) : option (gmap string ConversationMemory) :=
  match mergeMemory (readMemory store readFailed conversationId nowRead)
                    summary nowMerge with
  | Some merged => Some (writeMemory later writeFailed merged)
  | None => None
  end.

End Storage.

(** ** content/chatgpt.js: the detector of the summary reply

    [waitForNewAssistantMessage]; [waitForNewResponse] of the older
    utils/summarize.js has the same body. *)

Module SourceDetector.
Import Js.

Definition POLL_MS : Z := 500.
Definition STABLE_NEEDED : Z := 4.
Definition TIMEOUT_MS : Z := 90000.

Record Poll : Type := mkPoll {
  phase : Z;
  lastContent : string;
  stableCount : Z;
  elapsed : Z;
}.

Inductive TickResult : Type :=
  | Rejected
  | Resolved (content : string)
  | Rescheduled (st : Poll).

(** [curContent]: the trimmed text of the last assistant message, or the
    empty string when the page has none.  [messages] are the texts of the
    assistant messages on the page, in document order. *)
Definition curContent (messages : list string) : string :=
  match last messages with
  | Some lastMsg => trim lastMsg
  | None => EmptyString
  end.

(** One call of [tick]. *)
Definition tick (countBefore : Z) (st : Poll) (messages : list string) : TickResult :=
  if (TIMEOUT_MS <=? elapsed st)%Z then Rejected
  else
    let curCount := Z.of_nat (length messages) in
    let content := curContent messages in
    if (phase st =? 1)%Z then
      if (countBefore <? curCount)%Z && (0 <? strlen content)%Z
      then Rescheduled {| phase := 2;
                          lastContent := content;
                          stableCount := stableCount st;
                          elapsed := elapsed st + POLL_MS |}
      else Rescheduled {| phase := phase st;
                          lastContent := lastContent st;
                          stableCount := stableCount st;
                          elapsed := elapsed st + POLL_MS |}
    else if String.eqb content (lastContent st) then
      if (STABLE_NEEDED <=? stableCount st + 1)%Z
      then Resolved content
      else Rescheduled {| phase := phase st;
                          lastContent := lastContent st;
                          stableCount := stableCount st + 1;
                          elapsed := elapsed st + POLL_MS |}
    else Rescheduled {| phase := phase st;
                        lastContent := content;
                        stableCount := 0;
                        elapsed := elapsed st + POLL_MS |}.

Definition initialPoll : Poll :=
  {| phase := 1; lastContent := EmptyString; stableCount := 0; elapsed := 0 |}.

Inductive Settled : Type :=
  | Timeout
  | Content (content : string).

(** The chain of timer callbacks; [page n] are the assistant messages on the
    page at the [n]-th call of [tick]. *)
Fixpoint polling (fuel : nat) (countBefore : Z) (page : nat -> list string)
    (n : nat) (st : Poll) : option Settled :=
  match fuel with
  | O => None
  | S fuel' =>
      match tick countBefore st (page n) with
      | Rejected => Some Timeout
      | Resolved content => Some (Content content)
      | Rescheduled st' => polling fuel' countBefore page (S n) st'
      end
  end.


End SourceDetector.

(** ** Notions used to state the properties *)

Module Spec.
Import Js Memory.

(** A string that does not begin with white space. *)
Definition startsClean (s : string) : Prop :=
  match s with
  | String c _ => isWhiteSpace c = false
  | EmptyString => True
  end.

(** The memories [mergeMemory] can produce: those obtained from a fresh
    memory by merges that return. *)
Inductive reachable : ConversationMemory -> Prop :=
  | reachable_empty conversationId now :
      reachable (createEmptyMemory conversationId now)
  | reachable_merge memory summary now memory' :
      reachable memory ->
      mergeMemory memory summary now = Some memory' ->
      reachable memory'.

(** Every stored decision or question has a text. *)
Definition textsPresent (items : list Item) : Prop :=
  Forall (λ it, isEmpty (text it) = false) items.

(** A summary whose entities are named by strings, or not named at all. *)
Definition namesAreStrings (summary : Summary) : Prop :=
  Forall (λ e, truthy (se_name e) = false ∨ ∃ n, se_name e = JStr n)
         (default [] (s_entities summary)).

(** The names of the entities, as the entity loop compares them. *)
Definition entityKeys (ents : list Entity) : list string :=
  map (λ e, nameKey (name e)) ents.

(** The bounds of [MEMORY_LIMITS]. *)
Definition withinLimits (memory : ConversationMemory) : Prop :=
  length (entities memory) ≤ 30 ∧
  length (decisions memory) ≤ 20 ∧
  length (open_questions memory) ≤ 10 ∧
  length (constraints memory) ≤ 15.

(** Total mentions recorded under a key. *)
Definition mentionsOf (k : string) (ents : list Entity) : Z :=
  foldr (λ e acc, if String.eqb (nameKey (name e)) k then mentions e + acc else acc)%Z
        0%Z ents.

(** Incoming entities that the entity loop counts under a key. *)
Definition incomingFor (k : string) (incoming : list SummaryEntity) : Z :=
  foldr (λ inc acc,
           match se_name inc with
           | JStr n => if negb (isEmpty n) && String.eqb (nameKey n) k
                       then 1 + acc else acc
           | JOther _ _ => acc
           end)%Z
        0%Z incoming.

(** Greedy test that [l1] is a subsequence of [l2]. *)
Fixpoint subseqb {A : Type} `{EqDecision A} (l1 l2 : list A) : bool :=
  match l1, l2 with
  | [], _ => true
  | _ :: _, [] => false
  | x :: l1', y :: l2' =>
      if decide (x = y) then subseqb l1' l2' else subseqb l1 l2'
  end.

(** Survivors of an eviction keep the relative order they had. *)
Definition keepsOrder (memory : ConversationMemory) : Prop :=
  sublist (entities (evict memory)) (entities memory) ∧
  sublist (decisions (evict memory)) (decisions memory) ∧
  sublist (open_questions (evict memory)) (open_questions memory) ∧
  sublist (constraints (evict memory)) (constraints memory).

(** Two entities that the comparator of [evict] cannot tell apart. *)
Definition sameRank (a b : Entity) : Prop :=
  mentions a = mentions b ∧ last_updated a = last_updated b.

#[global] Instance sameRank_dec a b : Decision (sameRank a b).
Proof. unfold sameRank. apply _. Defined.

(** From the most mentioned to the least mentioned. *)
Definition byMentions (a b : Entity) : Prop := (mentions b ≤ mentions a)%Z.

(** A summary that only carries entities, as written in the scenarios. *)
Definition entitySummary (topic : JsVal) (ents : list SummaryEntity) : Summary :=
  {| s_topic := topic;
     s_user_goal := undefined;
     s_important_facts := None;
     s_decisions_made := None;
     s_current_task := undefined;
     s_entities := Some ents;
     s_open_questions := None;
     s_constraints := None |}.

Definition tripSummary : Summary :=
  entitySummary (JStr "Trip planning")
    [ {| se_name := JStr "Paris"; se_type := JStr "tool";
         se_summary := JStr "destination" |} ].

Definition parisAgain : Summary :=
  entitySummary undefined
    [ {| se_name := JStr "paris"; se_type := undefined;
         se_summary := JStr "updated" |} ].

(** Thirty distinct entity names, [item1] to [item30]. *)
Definition thirtyNames : list string :=
  map (λ i, "item" +:+ pretty i) (seq 1 30).

Definition namedEntity (n : string) : SummaryEntity :=
  {| se_name := JStr n; se_type := undefined; se_summary := undefined |}.

Definition thirtySummary : Summary :=
  entitySummary undefined (map namedEntity thirtyNames).

Definition lateSummary : Summary :=
  entitySummary undefined [namedEntity "latecomer"].

(** A summary that mentions [item30] again and brings a new name. *)
Definition bumpSummary : Summary :=
  entitySummary undefined [namedEntity "item30"; namedEntity "latecomer"].

Definition day1 : string := "2026-01-01T10:00:00.000Z".
Definition day2 : string := "2026-01-02T10:00:00.000Z".
Definition day3 : string := "2026-01-03T10:00:00.000Z".

(** The entity [mergeMemory] stores for a first mention. *)
Definition freshEntity (n now : string) : Entity :=
  {| name := n; type := JStr "other"; summary := JStr "";
     mentions := 1; last_updated := now |}.

(** A memory in the middle of a merge, before [evict] runs: thirty entities
    of [day1], the last of them mentioned twice, and a newcomer. *)
Definition crowdedMemory : ConversationMemory :=
  {| version := 1;
     conversation_id := "conv_1";
     created_at := day1;
     updated_at := day2;
     topic := JStr "";
     user_goal := JStr "";
     entities :=
       map (λ n, freshEntity n day1) (take 29 thirtyNames)
       ++ [ {| name := "item30"; type := JStr "other"; summary := JStr "";
               mentions := 2; last_updated := day2 |};
            freshEntity "latecomer" day2 ];
     decisions := [];
     open_questions := [];
     constraints := [];
     current_task := JStr "";
     iteration_count := 2 |}.

(** A line feed and a double quote, as one-character strings. *)
Definition nl : string := String Summarize.newline EmptyString.
Definition dq : string := String (ascii_of_nat 34) EmptyString.

(** The reply of the decoding scenario. *)
Definition takeReply : string :=
  "Sure, here's my take..." +:+ nl +:+ "---MEMORY---" +:+ nl +:+ "Topic: X"
  +:+ nl +:+ "---END MEMORY---".

(** The keys of a labeled block that [parseMemoryBlock] looks at when it
    decides whether the block holds data. *)
Definition countedKeys : list string :=
  [ "topic"; "goal"; "user goal"; "user_goal";
    "task"; "current task"; "current_task";
    "facts"; "important facts"; "important_facts";
    "decisions"; "decisions made"; "decisions_made";
    "entities" ].

(** A reply whose memory note only holds open questions and constraints. *)
Definition openOnlyReply : string :=
  "Happy to help." +:+ nl +:+ "---MEMORY---" +:+ nl
  +:+ "Open: which database?; which host?" +:+ nl
  +:+ "Constraints: no backend; no API keys" +:+ nl +:+ "---END MEMORY---".

(** The same note as JSON text, and what [JSON.parse] reads from it. *)
Definition openOnlyJson : string :=
  "{" +:+ dq +:+ "open_questions" +:+ dq +:+ ":[" +:+ dq +:+ "which database?"
  +:+ dq +:+ "]," +:+ dq +:+ "constraints" +:+ dq +:+ ":[" +:+ dq
  +:+ "no backend" +:+ dq +:+ "]}".

Definition openOnlyJsonReply : string :=
  "Happy to help." +:+ nl +:+ "---MEMORY---" +:+ nl +:+ openOnlyJson +:+ nl
  +:+ "---END MEMORY---".

Definition openOnlyObject : Summary :=
  {| s_topic := undefined;
     s_user_goal := undefined;
     s_important_facts := None;
     s_decisions_made := None;
     s_current_task := undefined;
     s_entities := None;
     s_open_questions := Some [JStr "which database?"];
     s_constraints := Some [JStr "no backend"] |}.

Definition readOpenOnly (text : string) : option Summary :=
  if String.eqb text openOnlyJson then Some openOnlyObject else None.

(** A parsed object without topic, goal, task, entities and decisions. *)
Definition noCountedData (obj : Summary) : Prop :=
  truthy (s_topic obj) = false ∧
  truthy (s_user_goal obj) = false ∧
  truthy (s_current_task obj) = false ∧
  Forall (λ e, truthy (se_name e) = false) (default [] (s_entities obj)) ∧
  default [] (s_decisions_made obj) = [].

(** The memory without what the meta-instruction filter rejects. *)
Definition dropMeta (memory : ConversationMemory) : ConversationMemory :=
  {| version := version memory;
     conversation_id := conversation_id memory;
     created_at := created_at memory;
     updated_at := updated_at memory;
     topic := topic memory;
     user_goal := user_goal memory;
     entities := entities memory;
     decisions := decisions memory;
     open_questions := open_questions memory;
     constraints :=
       filter (λ c, Format.isMetaInstruction c = false) (constraints memory);
     current_task :=
       if Format.isMetaInstruction (toStr (current_task memory))
       then JStr "" else current_task memory;
     iteration_count := iteration_count memory |}.

(** The line that carries the task, and the instruction built on it. *)
Definition isTaskLine (line : string) : bool :=
  String.prefix "Current task: " line
  || String.prefix "Please continue helping with: " line.

Definition isDashLine (line : string) : bool := String.prefix "- " line.

(** The instruction used when there is no task. *)
Definition genericInstruction : string :=
  "Respond naturally " +:+ Format.emDash
  +:+ " share your thoughts on the above context and ask what I'd like to work on next.".

(** A memory whose constraints and task partly describe the summarisation. *)
Definition pollutedMemory : ConversationMemory :=
  {| version := 1;
     conversation_id := "conv_1";
     created_at := day1;
     updated_at := day1;
     topic := JStr "Cross-AI memory";
     user_goal := JStr "";
     entities := [];
     decisions := [];
     open_questions := [];
     constraints := ["Reply must be valid JSON only"; "no backend"];
     current_task := JStr "Summarizing the conversation into notes";
     iteration_count := 1 |}.

(** No tab has an entry in both maps of the service worker. *)
Definition neverInBoth (st : Background.State) : Prop :=
  ∀ tab, Background.pendingContext st !! tab = None
         ∨ Background.pendingReview st !! tab = None.

(** A state in which tab 7, opened from tab 3, waits for its context. *)
Definition waitingState : Background.State :=
  {| Background.pendingContext :=
       {[ 7%positive := Background.mkHandoff "the context block" 3%positive "conv_1" ]};
     Background.pendingReview := ∅ |}.

Definition readyFrom (type : string) : Background.Message :=
  {| Background.m_type := type;
     Background.m_sourceModel := None;
     Background.m_summary := None;
     Background.m_targetModel := "";
     Background.m_conversationId := "";
     Background.m_content := "" |}.

(** *** The response detector, over the texts it samples *)

(** The page has grown by more than the minimum at poll [n]. *)
Definition grown (snapshot : string) (observe : nat → string) (n : nat) : Prop :=
  (strlen snapshot + 50 < strlen (observe n))%Z.

Definition firstGrowth (snapshot : string) (observe : nat → string) (g : nat) : Prop :=
  grown snapshot observe g ∧ ∀ i, i < g → ¬ grown snapshot observe i.

(** Four polls in a row found the length of the poll before, none of them
    earlier than the growth at poll [g]. *)
Definition unchangedAt (observe : nat → string) (g n : nat) : Prop :=
  g + 4 ≤ n ∧ ∀ k, n - 4 ≤ k ≤ n → strlen (observe k) = strlen (observe n).

Definition firstUnchanged (observe : nat → string) (g n : nat) : Prop :=
  unchangedAt observe g n ∧ ∀ m, m < n → ¬ unchangedAt observe g m.

(** The detector has what it waits for at poll [n], one of the 180 polls
    before the timeout. *)
Definition settlesAt (snapshot : string) (observe : nat → string) (n : nat) : Prop :=
  n < 180 ∧ ∃ g, firstGrowth snapshot observe g ∧ firstUnchanged observe g n.

(** The reading of "stable" as byte-identical text: the four texts sampled
    up to poll [n] are the same. *)
Definition identicalAt (observe : nat → string) (n : nat) : Prop :=
  3 ≤ n ∧ observe (n - 3) = observe (n - 2) ∧ observe (n - 2) = observe (n - 1)
  ∧ observe (n - 1) = observe n.

Definition settledOk (snapshot : string) (observe : nat → string)
    (o : Detector.Settled) : Prop :=
  match o with
  | Detector.Response r =>
      ∃ n, settlesAt snapshot observe n
           ∧ r = Detector.extractTargetResponse snapshot (observe n)
  | Detector.Timeout => ¬ ∃ n, settlesAt snapshot observe n
  end.

(** [n] copies of a character. *)
Fixpoint repeatChar (c : ascii) (n : nat) : string :=
  match n with
  | O => EmptyString
  | S n' => String c (repeatChar c n')
  end.

(** A page that starts with 100 characters, shows 140 at the first poll and
    then 170 characters that are rewritten at every poll. *)
Definition baseline100 : string := repeatChar "." 100.

Definition flickeringPage (n : nat) : string :=
  match n with
  | O => repeatChar "." 140
  | S _ => repeatChar (ascii_of_nat (97 + n)) 170
  end.

(** A page that shows 140 characters, then 170 characters that stay. *)
Definition steadyPage (n : nat) : string :=
  match n with
  | O => repeatChar "." 140
  | S _ => repeatChar "." 100 +:+ repeatChar "a" 70
  end.

End Spec.

(** ** Notions used to state further properties *)

Module More.
Import Js Memory.

(** The test of [isDuplicate] on one stored text and a new text. *)
Definition fuzzyDuplicate (existing newText : string) : bool :=
  let e := toLowerCase existing in
  let n := toLowerCase newText in
  String.eqb e n || includes e n || includes n e.

(** No item is a fuzzy duplicate of an item stored before it. *)
Fixpoint apart (items : list Item) : Prop :=
  match items with
  | [] => True
  | x :: rest =>
      Forall (λ y, fuzzyDuplicate (text x) (text y) = false) rest ∧ apart rest
  end.


(** A stored string: trimmed and not empty. *)
Definition tidy (s : string) : Prop := trim s = s ∧ s ≠ EmptyString.

(** The text does not contain the character. *)
Definition lacks (c : ascii) (s : string) : Prop :=
  indexOf s (String c EmptyString) = (-1)%Z.

(** A summary with decisions that repeat each other. *)
Definition decisionSummary : Summary :=
  {| s_topic := JStr "Storage";
     s_user_goal := undefined;
     s_important_facts := None;
     s_decisions_made :=
       Some [JStr "Use SQLite"; JStr "  use sqlite "; JStr "SQLite";
             JStr "Deploy on Fly"];
     s_current_task := undefined;
     s_entities := None;
     s_open_questions := None;
     s_constraints := Some [JStr "no backend"; JStr " no backend "; JStr ""] |}.

(** The memory after that summary is merged into an empty memory. *)
Definition afterDecisions : ConversationMemory :=
  {| version := 1; conversation_id := "conv_1"; created_at := Spec.day1;
     updated_at := Spec.day1; topic := JStr "Storage"; user_goal := JStr "";
     entities := [];
     decisions := [ {| text := "Use SQLite"; added_at := Spec.day1 |};
                    {| text := "Deploy on Fly"; added_at := Spec.day1 |} ];
     open_questions := []; constraints := ["no backend"];
     current_task := JStr ""; iteration_count := 1 |}.


(** Every incoming text is empty or already found among the items. *)
Definition covered (items : list Item) (incoming : list JsVal) : Prop :=
  Forall (λ v, isEmpty (trim (toStr v)) = true
               ∨ isDuplicate items (trim (toStr v)) = Some true) incoming.

(** The text occurs in the other text. *)
Definition occursIn (needle hay : string) : Prop :=
  indexOf hay needle ≠ (-1)%Z.




(** An item of a list written with semicolons: trimmed, not empty, and
    without a semicolon. *)
Definition listItem (s : string) : Prop := tidy s ∧ lacks ";" s.

(** A list field as [parseMemoryBlock] fills it. *)
Definition semicolonList (field : option (list JsVal)) : Prop :=
  ∃ items, field = Some (map JStr items) ∧ Forall listItem items.

(** The summary with other facts. *)
Definition withFacts (summary : Summary) (facts : option (list JsVal)) : Summary :=
  {| s_topic := s_topic summary;
     s_user_goal := s_user_goal summary;
     s_important_facts := facts;
     s_decisions_made := s_decisions_made summary;
     s_current_task := s_current_task summary;
     s_entities := s_entities summary;
     s_open_questions := s_open_questions summary;
     s_constraints := s_constraints summary |}.


(** The records of the store are filed under the key of the conversation
    they name, and each is a memory that merges can produce. *)
Definition consistent (store : gmap string ConversationMemory) : Prop :=
  ∀ k memory, store !! k = Some memory →
    k = memoryKey (conversation_id memory) ∧ Spec.reachable memory.

End More.

(** * Properties *)

(** ** Strings *)

Section StringFacts.
Import Js Spec.

Lemma isWhiteSpace_lowerChar c : isWhiteSpace (lowerChar c) = isWhiteSpace c.
Proof.
  destruct c as [[] [] [] [] [] [] [] []]; reflexivity.
Qed.

Lemma toLowerCase_trimStart s :
  toLowerCase (trimStart s) = trimStart (toLowerCase s).
Proof.
  induction s as [|c s IH]; simpl; [done|].
  rewrite isWhiteSpace_lowerChar. by destruct (isWhiteSpace c).
Qed.

Lemma toLowerCase_trimEnd s :
  toLowerCase (trimEnd s) = trimEnd (toLowerCase s).
Proof.
  induction s as [|c s IH]; simpl; [done|].
  rewrite <- IH, isWhiteSpace_lowerChar.
  destruct (trimEnd s); simpl; [by destruct (isWhiteSpace c)|done].
Qed.

Lemma toLowerCase_trim s : toLowerCase (trim s) = trim (toLowerCase s).
Proof. unfold trim. by rewrite toLowerCase_trimEnd, toLowerCase_trimStart. Qed.

Lemma trimStart_clean s : startsClean (trimStart s).
Proof.
  induction s as [|c s IH]; simpl; [done|].
  destruct (isWhiteSpace c) eqn:E; [done|]. simpl. done.
Qed.

Lemma trimStart_of_clean s : startsClean s → trimStart s = s.
Proof. destruct s as [|c s]; simpl; [done|]. by intros ->. Qed.

Lemma trimEnd_clean s : startsClean s → startsClean (trimEnd s).
Proof.
  destruct s as [|c s]; simpl; [done|]. intros Hc.
  destruct (trimEnd s); simpl; [by rewrite Hc|done].
Qed.

Lemma trimEnd_idem s : trimEnd (trimEnd s) = trimEnd s.
Proof.
  induction s as [|c s IH]; simpl; [done|].
  destruct (trimEnd s) as [|d t] eqn:E.
  - destruct (isWhiteSpace c) eqn:Hc; simpl; [done|]. by rewrite Hc.
  - change (trimEnd (String c (String d t)) = String c (String d t)).
    simpl in IH |- *. by rewrite IH.
Qed.

Lemma trim_idem s : trim (trim s) = trim s.
Proof.
  unfold trim.
  rewrite (trimStart_of_clean (trimEnd (trimStart s))).
  - apply trimEnd_idem.
  - apply trimEnd_clean, trimStart_clean.
Qed.
End StringFacts.

(** ** utils/memory.js *)

Section MemoryFacts.
Import Js Memory Spec.

Lemma nameKey_trim n : nameKey (trim n) = nameKey n.
Proof. unfold nameKey. by rewrite toLowerCase_trim, trim_idem. Qed.

(** *** The sort of [evict] *)

Lemma insertSorted_Permutation {A} (cmp : A → A → Z) x l :
  insertSorted cmp x l ≡ₚ x :: l.
Proof.
  induction l as [|y l IH]; simpl; [done|].
  destruct (cmp x y <=? 0)%Z; [done|].
  rewrite IH. apply Permutation_swap.
Qed.

Lemma sort_Permutation {A} (cmp : A → A → Z) l : sort cmp l ≡ₚ l.
Proof.
  induction l as [|x l IH]; simpl; [done|].
  by rewrite insertSorted_Permutation, IH.
Qed.

(** *** The entity loop keeps names unique *)

Lemma updateExisting_keys k inc now ents ents' :
  updateExisting k inc now ents = Some ents' →
  entityKeys ents' = entityKeys ents.
Proof.
  revert ents'. induction ents as [|e rest IH]; intros ents'; simpl; [done|].
  destruct (String.eqb (nameKey (name e)) k).
  - intros [= <-]. done.
  - destruct (updateExisting k inc now rest) as [rest'|]; [|done].
    intros [= <-]. simpl. f_equal. by apply IH.
Qed.

Lemma updateExisting_None k inc now ents :
  updateExisting k inc now ents = None → k ∉ entityKeys ents.
Proof.
  induction ents as [|e rest IH]; simpl.
  - intros _. apply not_elem_of_nil.
  - destruct (String.eqb (nameKey (name e)) k) eqn:E; [done|].
    destruct (updateExisting k inc now rest); [done|].
    intros _. apply String.eqb_neq in E.
    rewrite not_elem_of_cons. split; [congruence|by apply IH].
Qed.

Lemma entityKeys_app l1 l2 : entityKeys (l1 ++ l2) = entityKeys l1 ++ entityKeys l2.
Proof. apply map_app. Qed.

Lemma mergeEntity_NoDup now ents inc ents' :
  NoDup (entityKeys ents) →
  mergeEntity now ents inc = Some ents' →
  NoDup (entityKeys ents').
Proof.
  intros Hnd. unfold mergeEntity.
  destruct (negb (truthy (se_name inc))); [by intros [= <-]|].
  destruct (se_name inc) as [n|]; [|done].
  destruct (updateExisting (nameKey n) inc now ents) as [upd|] eqn:E.
  - intros [= <-]. by rewrite (updateExisting_keys _ _ _ _ _ E).
  - intros [= <-]. rewrite entityKeys_app. simpl. rewrite nameKey_trim.
    apply NoDup_app. split_and!; [done| |apply NoDup_singleton].
    intros k Hk Hk'. apply list_elem_of_singleton in Hk' as ->.
    by apply (updateExisting_None _ _ _ _ E).
Qed.

Lemma mergeEntities_NoDup now incoming : ∀ ents ents',
  NoDup (entityKeys ents) →
  mergeEntities now ents incoming = Some ents' →
  NoDup (entityKeys ents').
Proof.
  induction incoming as [|inc rest IH]; intros ents ents' Hnd; simpl.
  - by intros [= <-].
  - destruct (mergeEntity now ents inc) as [mid|] eqn:E; simpl; [|done].
    apply IH. by eapply mergeEntity_NoDup.
Qed.

(** *** Eviction *)

Lemma lastN_length {A} n (l : list A) : n < length l → length (lastN n l) = n.
Proof. intros H. unfold lastN. rewrite length_drop. lia. Qed.

Lemma evict_withinLimits memory : withinLimits (evict memory).
Proof.
  unfold withinLimits, evict; simpl.
  unfold maxEntities, maxDecisions, maxOpenQuestions, maxConstraints.
  split_and!.
  - destruct (Nat.ltb_spec 30 (length (entities memory))); [|lia].
    rewrite length_take. lia.
  - destruct (Nat.ltb_spec 20 (length (decisions memory))); [|lia].
    rewrite lastN_length; lia.
  - destruct (Nat.ltb_spec 10 (length (open_questions memory))); [|lia].
    rewrite lastN_length; lia.
  - destruct (Nat.ltb_spec 15 (length (constraints memory))); [|lia].
    rewrite lastN_length; lia.
Qed.

Lemma evict_entities_submseteq memory :
  entities (evict memory) ⊆+ entities memory.
Proof.
  unfold evict; simpl.
  destruct (maxEntities <? length (entities memory)); [|done].
  rewrite <- (sort_Permutation entityCompare (entities memory)) at 2.
  apply sublist_submseteq, sublist_take.
Qed.

Lemma evict_NoDup memory :
  NoDup (entityKeys (entities memory)) →
  NoDup (entityKeys (entities (evict memory))).
Proof.
  intros Hnd. unfold evict; simpl.
  destruct (maxEntities <? length (entities memory)); [|done].
  unfold entityKeys in *.
  eapply sublist_NoDup; [|apply fmap_sublist, sublist_take].
  by rewrite (sort_Permutation entityCompare (entities memory)).
Qed.

(** What a merge that returns has done: a memory was built and evicted. *)
Lemma mergeMemory_evict memory summary now memory' :
  mergeMemory memory summary now = Some memory' →
  ∃ pre, memory' = evict pre ∧
         whenArray (s_entities summary)
           (mergeEntities now (entities memory)) (entities memory)
         = Some (entities pre).
Proof.
  unfold mergeMemory.
  destruct (whenArray (s_entities summary) _ _) as [ents|]; simpl; [|done].
  destruct (whenArray (s_decisions_made summary) _ _) as [decs|]; simpl; [|done].
  destruct (whenArray (s_open_questions summary) _ _) as [qs|]; simpl; [|done].
  intros [= <-]. eexists. split; [reflexivity|]. done.
Qed.

Lemma mergeMemory_NoDup memory summary now memory' :
  NoDup (entityKeys (entities memory)) →
  mergeMemory memory summary now = Some memory' →
  NoDup (entityKeys (entities memory')).
Proof.
  intros Hnd Hm. apply mergeMemory_evict in Hm as (pre & -> & Hents).
  apply evict_NoDup.
  destruct (s_entities summary) as [l|]; simpl in Hents.
  - by eapply mergeEntities_NoDup.
  - by injection Hents as <-.
Qed.

Lemma mergeMemory_withinLimits memory summary now memory' :
  mergeMemory memory summary now = Some memory' → withinLimits memory'.
Proof.
  intros Hm. apply mergeMemory_evict in Hm as (pre & -> & _).
  apply evict_withinLimits.
Qed.

(** C1. Every memory reachable from the empty memory by calls of
    mergeMemory, whatever the summaries, keeps each bounded list within its
    capacity (entities at most 30, decisions at most 20, open questions at
    most 10, constraints at most 15), and no two of its entities have names
    that are equal after lowercasing and trimming. *)
Theorem reachable_bounded_and_unique memory :
  reachable memory →
  length (entities memory) ≤ 30 ∧
  length (decisions memory) ≤ 20 ∧
  length (open_questions memory) ≤ 10 ∧
  length (constraints memory) ≤ 15 ∧
  NoDup (map (λ e, trim (toLowerCase (name e))) (entities memory)).
Proof.
  intros Hr.
  assert (withinLimits memory ∧ NoDup (entityKeys (entities memory))) as [HL HN].
  { induction Hr as [cid now|m s now m' _ [_ IHn] Hm].
    - split; [|apply NoDup_nil_2].
      unfold withinLimits; simpl. lia.
    - split; [by eapply mergeMemory_withinLimits|by eapply mergeMemory_NoDup]. }
  destruct HL as (? & ? & ? & ?). by split_and!.
Qed.


(** An instance: the memory after the first merge of the scenario. *)
Lemma reachable_bounded_and_unique_witness :
  let m := evict
    {| version := 1; conversation_id := "conv_1"; created_at := day1;
       updated_at := day1; topic := JStr "Trip planning"; user_goal := JStr "";
       entities := [ {| name := "Paris"; type := JStr "tool";
                        summary := JStr "destination"; mentions := 1;
                        last_updated := day1 |} ];
       decisions := []; open_questions := []; constraints := [];
       current_task := JStr ""; iteration_count := 1 |} in
  length (entities m) ≤ 30 ∧
  length (decisions m) ≤ 20 ∧
  length (open_questions m) ≤ 10 ∧
  length (constraints m) ≤ 15 ∧
  NoDup (map (λ e, trim (toLowerCase (name e))) (entities m)).
Proof.
  apply reachable_bounded_and_unique.
  apply (reachable_merge (createEmptyMemory "conv_1" day1) tripSummary day1).
  - apply reachable_empty.
  - reflexivity.
Defined.

(** *** Mentions are counted at every merge *)

Lemma mentionsOf_app k l1 l2 :
  mentionsOf k (l1 ++ l2) = (mentionsOf k l1 + mentionsOf k l2)%Z.
Proof.
  induction l1 as [|e l1 IH]; simpl; [done|].
  destruct (String.eqb (nameKey (name e)) k); lia.
Qed.

Lemma updateExisting_mentions k0 inc now ents ents' k :
  updateExisting k0 inc now ents = Some ents' →
  mentionsOf k ents'
  = (mentionsOf k ents + if String.eqb k0 k then 1 else 0)%Z.
Proof.
  revert ents'. induction ents as [|e rest IH]; intros ents'; simpl; [done|].
  destruct (String.eqb (nameKey (name e)) k0) eqn:E0.
  - intros [= <-]. simpl. apply String.eqb_eq in E0 as ->.
    destruct (String.eqb k0 k); lia.
  - destruct (updateExisting k0 inc now rest) as [rest'|]; [|done].
    intros [= <-]. simpl. rewrite (IH rest' eq_refl).
    destruct (String.eqb (nameKey (name e)) k); lia.
Qed.

Lemma mergeEntity_mentions now ents inc ents' k :
  mergeEntity now ents inc = Some ents' →
  mentionsOf k ents' = (mentionsOf k ents + incomingFor k [inc])%Z.
Proof.
  unfold mergeEntity, incomingFor. simpl.
  destruct (se_name inc) as [n|t shown]; simpl.
  - destruct (isEmpty n); simpl; [intros [= <-]; lia|].
    destruct (updateExisting (nameKey n) inc now ents) as [upd|] eqn:E.
    + intros [= <-]. rewrite (updateExisting_mentions _ _ _ _ _ k E).
      destruct (String.eqb (nameKey n) k); lia.
    + intros [= <-]. rewrite mentionsOf_app. simpl. rewrite nameKey_trim.
      destruct (String.eqb (nameKey n) k); lia.
  - destruct t; simpl; [done|]. intros [= <-]. lia.
Qed.

Lemma incomingFor_cons k inc rest :
  incomingFor k (inc :: rest) = (incomingFor k [inc] + incomingFor k rest)%Z.
Proof.
  unfold incomingFor. simpl. destruct (se_name inc) as [n|]; [|lia].
  destruct (negb (isEmpty n) && String.eqb (nameKey n) k); lia.
Qed.

Lemma mergeEntities_mentions now incoming k : ∀ ents ents',
  mergeEntities now ents incoming = Some ents' →
  mentionsOf k ents' = (mentionsOf k ents + incomingFor k incoming)%Z.
Proof.
  induction incoming as [|inc rest IH]; intros ents ents'.
  - simpl. intros [= <-]. lia.
  - rewrite (incomingFor_cons k inc rest). cbn [mergeEntities].
    destruct (mergeEntity now ents inc) as [mid|] eqn:E; [|done].
    intros Hrest. rewrite (IH _ _ Hrest), (mergeEntity_mentions _ _ _ _ k E).
    lia.
Qed.

Lemma mentionsOf_absent k ents : k ∉ entityKeys ents → mentionsOf k ents = 0%Z.
Proof.
  induction ents as [|e rest IH]; simpl; [done|].
  rewrite not_elem_of_cons. intros [Hne Hrest].
  destruct (String.eqb (nameKey (name e)) k) eqn:E; [|by apply IH].
  apply String.eqb_eq in E. congruence.
Qed.

(** With unique names, the mentions under a key are those of its entity. *)
Lemma mentionsOf_unique ents e :
  NoDup (entityKeys ents) → e ∈ ents →
  mentionsOf (nameKey (name e)) ents = mentions e.
Proof.
  induction ents as [|x rest IH]; simpl; [by intros _ ?%elem_of_nil|].
  rewrite NoDup_cons. intros [Hx Hnd] [->|Hin]%elem_of_cons.
  - rewrite String.eqb_refl, mentionsOf_absent; [lia|done].
  - destruct (String.eqb (nameKey (name x)) (nameKey (name e))) eqn:E.
    + apply String.eqb_eq in E. exfalso. apply Hx. rewrite E.
      unfold entityKeys. apply list_elem_of_fmap. by exists e.
    + by apply IH.
Qed.

Lemma evict_entities_elem memory e :
  e ∈ entities (evict memory) → e ∈ entities memory.
Proof.
  unfold evict; simpl.
  destruct (maxEntities <? length (entities memory)); [|done].
  intros Hin.
  pose proof (elem_of_sublist _ _ _ Hin (sublist_take _ maxEntities)) as Hin'.
  by rewrite (sort_Permutation entityCompare (entities memory)) in Hin'.
Qed.

(** Eviction does not change the mentions of a name that survives. *)
Lemma evict_mentions memory k :
  NoDup (entityKeys (entities memory)) →
  k ∈ entityKeys (entities (evict memory)) →
  mentionsOf k (entities (evict memory)) = mentionsOf k (entities memory).
Proof.
  intros Hnd Hk. unfold entityKeys in Hk.
  apply list_elem_of_fmap in Hk as (e & -> & He).
  rewrite (mentionsOf_unique _ e); [|by apply evict_NoDup|done].
  rewrite (mentionsOf_unique _ e); [done|done|by apply evict_entities_elem].
Qed.

Lemma mergeMemory_mentions memory summary incoming now memory' k :
  NoDup (entityKeys (entities memory)) →
  s_entities summary = Some incoming →
  mergeMemory memory summary now = Some memory' →
  k ∈ entityKeys (entities memory') →
  mentionsOf k (entities memory')
  = (mentionsOf k (entities memory) + incomingFor k incoming)%Z.
Proof.
  intros Hnd Hs Hm Hk.
  apply mergeMemory_evict in Hm as (pre & -> & Hents).
  rewrite Hs in Hents. simpl in Hents.
  rewrite evict_mentions; [|by eapply mergeEntities_NoDup|done].
  by apply (mergeEntities_mentions now).
Qed.

(** C3. Merging a summary twice duplicates no entity under the lowercased
    and trimmed name but counts its mentions each time.  From the empty
    memory, the summary with topic "Trip planning" and the entity Paris
    (type "tool", summary "destination") gives one entity with one mention;
    a further merge of the entity "paris" with summary "updated" still gives
    one entity, now with two mentions and the summary "updated".  In
    general, after two merges of one summary into a memory with unique
    names the names are unique, and a name present after both merges has
    gained twice the number of its occurrences in the summary. *)
Theorem merge_twice_counts_without_duplicates :
  (∀ now0 now1 now2, ∃ m1 m2,
     mergeMemory (createEmptyMemory "conv_1" now0) tripSummary now1 = Some m1 ∧
     entities m1 = [ {| name := "Paris"; type := JStr "tool";
                        summary := JStr "destination"; mentions := 1;
                        last_updated := now1 |} ] ∧
     mergeMemory m1 parisAgain now2 = Some m2 ∧
     entities m2 = [ {| name := "Paris"; type := JStr "tool";
                        summary := JStr "updated"; mentions := 2;
                        last_updated := now2 |} ]) ∧
  (∀ memory summary incoming t1 t2 m1 m2,
     NoDup (entityKeys (entities memory)) →
     s_entities summary = Some incoming →
     mergeMemory memory summary t1 = Some m1 →
     mergeMemory m1 summary t2 = Some m2 →
     NoDup (entityKeys (entities m2)) ∧
     ∀ k, k ∈ entityKeys (entities m1) → k ∈ entityKeys (entities m2) →
          mentionsOf k (entities m2)
          = (mentionsOf k (entities memory) + 2 * incomingFor k incoming)%Z).
Proof.
  split.
  - intros now0 now1 now2. eexists _, _. split_and!; reflexivity.
  - intros memory summary incoming t1 t2 m1 m2 Hnd Hs H1 H2.
    pose proof (mergeMemory_NoDup _ _ _ _ Hnd H1) as Hnd1.
    split; [by eapply mergeMemory_NoDup|].
    intros k Hk1 Hk2.
    rewrite (mergeMemory_mentions _ _ _ _ _ k Hnd1 Hs H2 Hk2).
    rewrite (mergeMemory_mentions _ _ _ _ _ k Hnd Hs H1 Hk1). lia.
Qed.

(** An instance: the trip summary merged twice counts Paris twice. *)
Lemma merge_twice_counts_without_duplicates_witness :
  ∃ m1 m2,
    mergeMemory (createEmptyMemory "conv_1" day1) tripSummary day2 = Some m1 ∧
    mergeMemory m1 tripSummary day3 = Some m2 ∧
    NoDup (entityKeys (entities m2)) ∧
    mentionsOf "paris" (entities m2) = 2%Z.
Proof.
  eexists _, _. split; [reflexivity|]. split; [reflexivity|].
  destruct (proj2 merge_twice_counts_without_duplicates
              (createEmptyMemory "conv_1" day1) tripSummary
              [ {| se_name := JStr "Paris"; se_type := JStr "tool";
                   se_summary := JStr "destination" |} ]
              day2 day3 _ _ NoDup_nil_2 eq_refl eq_refl eq_refl)
    as [Hnd Hcount].
  split; [exact Hnd|].
  rewrite (Hcount "paris"); [reflexivity| |]; simpl; apply list_elem_of_singleton;
    reflexivity.
Defined.

(** *** Which entities eviction keeps *)

(** C2 (evaluation of the code). Thirty entities are stored on one day and a
    new one arrives a day later; every entity has one mention.  The
    comparator of evict orders equal mentions by ascending last_updated, so
    the truncation drops the newcomer, the most recently updated entity,
    and keeps the thirty older ones. *)
Theorem evict_drops_most_recent_on_tie :
  ∃ m1 m2,
    mergeMemory (createEmptyMemory "conv_1" day1) thirtySummary day1 = Some m1 ∧
    mergeMemory m1 lateSummary day2 = Some m2 ∧
    entities m1 = map (λ n, freshEntity n day1) thirtyNames ∧
    entities m2 = entities m1 ∧
    (localeCompare day1 day2 < 0)%Z.
Proof. eexists _, _. split_and!; vm_compute; reflexivity. Qed.

Lemma localeCompare_refl s : localeCompare s s = 0%Z.
Proof.
  induction s as [|c s IH]; simpl; [done|].
  by rewrite N.ltb_irrefl.
Qed.

Lemma entityCompare_le a b :
  (entityCompare a b <=? 0)%Z = true → byMentions a b.
Proof.
  unfold entityCompare, byMentions.
  destruct (Z.eqb_spec (mentions a) (mentions b)); simpl; lia.
Qed.

Lemma entityCompare_gt a b :
  (entityCompare a b <=? 0)%Z = false → byMentions b a.
Proof.
  unfold entityCompare, byMentions.
  destruct (Z.eqb_spec (mentions a) (mentions b)); simpl; lia.
Qed.

Lemma entityCompare_sameRank e a b :
  sameRank e a → sameRank e b → (entityCompare a b <=? 0)%Z = true.
Proof.
  unfold sameRank, entityCompare. intros [Hm1 Hu1] [Hm2 Hu2].
  rewrite <- Hm1, <- Hm2, Z.eqb_refl, <- Hu1, <- Hu2. simpl.
  by rewrite localeCompare_refl.
Qed.

#[local] Instance byMentions_trans : Transitive byMentions.
Proof. unfold byMentions. intros a b c. lia. Qed.

Lemma insertSorted_byMentions x l :
  StronglySorted byMentions l →
  StronglySorted byMentions (insertSorted entityCompare x l).
Proof.
  induction 1 as [|y l Hs IH Hall]; simpl.
  - repeat constructor.
  - destruct (entityCompare x y <=? 0)%Z eqn:E.
    + apply entityCompare_le in E.
      constructor; [by constructor|].
      constructor; [done|].
      eapply Forall_impl; [exact Hall|]. intros z Hz. by etrans.
    + apply entityCompare_gt in E.
      constructor; [done|].
      rewrite insertSorted_Permutation. by constructor.
Qed.

Lemma sort_byMentions l : StronglySorted byMentions (sort entityCompare l).
Proof.
  induction l as [|x l IH]; simpl; [constructor|].
  by apply insertSorted_byMentions.
Qed.

(** Stability: the sort leaves entities of one rank in their order. *)
Lemma insertSorted_filter_sameRank e x l :
  filter (sameRank e) (insertSorted entityCompare x l)
  = filter (sameRank e) (x :: l).
Proof.
  induction l as [|y l IH]; simpl; [done|].
  destruct (entityCompare x y <=? 0)%Z eqn:E; [done|].
  rewrite (filter_cons _ y), IH, !(filter_cons _ x), !(filter_cons _ y).
  destruct (decide (sameRank e x)) as [Hx|]; [|done].
  destruct (decide (sameRank e y)) as [Hy|]; [|done].
  by rewrite (entityCompare_sameRank e x y Hx Hy) in E.
Qed.

Lemma sort_filter_sameRank e l :
  filter (sameRank e) (sort entityCompare l) = filter (sameRank e) l.
Proof.
  induction l as [|x l IH]; simpl; [done|].
  by rewrite insertSorted_filter_sameRank, !filter_cons, IH.
Qed.

Lemma filter_sublist_mono {A} (P : A → Prop) `{∀ x, Decision (P x)} l1 l2 :
  sublist l1 l2 → sublist (filter P l1) (filter P l2).
Proof.
  induction 1 as [|x l1 l2 _ IH|x l1 l2 _ IH].
  - constructor.
  - rewrite !filter_cons. destruct (decide (P x)); [by constructor|done].
  - rewrite filter_cons. destruct (decide (P x)); [by constructor|done].
Qed.

Lemma lastN_suffix {A} n (l : list A) : lastN n l `suffix_of` l.
Proof. apply suffix_drop. Qed.

Lemma suffix_sublist {A} (l1 l2 : list A) : l1 `suffix_of` l2 → sublist l1 l2.
Proof. intros [k ->]. by apply sublist_inserts_l. Qed.

Lemma evict_idempotent memory : evict (evict memory) = evict memory.
Proof.
  pose proof (evict_withinLimits memory) as (He & Hd & Hq & Hc).
  unfold evict at 1.
  unfold maxEntities, maxDecisions, maxOpenQuestions, maxConstraints.
  rewrite (proj2 (Nat.ltb_ge 30 _) He), (proj2 (Nat.ltb_ge 20 _) Hd),
    (proj2 (Nat.ltb_ge 10 _) Hq), (proj2 (Nat.ltb_ge 15 _) Hc).
  by destruct (evict memory).
Qed.

(** Eviction prefers the entities with more mentions: an entity that is
    dropped has no more mentions than any entity that is kept. *)
Lemma evict_prefers_more_mentions memory kept dropped :
  kept ∈ take maxEntities (sort entityCompare (entities memory)) →
  dropped ∈ drop maxEntities (sort entityCompare (entities memory)) →
  (mentions dropped ≤ mentions kept)%Z.
Proof.
  intros Hk Hd.
  pose proof (sort_byMentions (entities memory)) as Hs.
  rewrite <- (take_drop maxEntities (sort entityCompare (entities memory))) in Hs.
  apply (StronglySorted_app_1_elem_of _ _ _ kept dropped Hs Hk Hd).
Qed.

(** *** Merges that return *)

Lemma isDuplicate_returns items t :
  textsPresent items → is_Some (isDuplicate items t).
Proof.
  induction 1 as [|it items Hit _ IH]; simpl; [by eexists|].
  rewrite Hit. destruct (String.eqb _ _); [by eexists|].
  destruct (_ || _); [by eexists|done].
Qed.

Lemma trim_nonempty_text now t :
  isEmpty t = false → textsPresent [ {| text := t; added_at := now |} ].
Proof. intros Ht. by repeat constructor. Qed.

Lemma mergeItems_returns now incoming : ∀ items,
  textsPresent items →
  ∃ items', mergeItems now items incoming = Some items' ∧ textsPresent items'.
Proof.
  induction incoming as [|v rest IH]; intros items Hitems; simpl; [by eexists|].
  destruct (isEmpty (trim (toStr v))) eqn:Ht; [by apply IH|].
  destruct (isDuplicate_returns items (trim (toStr v)) Hitems) as [[|] ->].
  - by apply IH.
  - apply IH. apply Forall_app. split; [done|by apply trim_nonempty_text].
Qed.

Lemma mergeEntities_returns now incoming : ∀ ents,
  Forall (λ e, truthy (se_name e) = false ∨ ∃ n, se_name e = JStr n) incoming →
  is_Some (mergeEntities now ents incoming).
Proof.
  induction incoming as [|inc rest IH]; intros ents Hnames; simpl; [by eexists|].
  apply Forall_cons in Hnames as [Hinc Hrest].
  assert (is_Some (mergeEntity now ents inc)) as [mid ->]; [|by apply IH].
  unfold mergeEntity. destruct Hinc as [->|[n Hn]]; [by eexists|].
  rewrite Hn. destruct (negb _); [by eexists|].
  destruct (updateExisting _ _ _ _); by eexists.
Qed.

Lemma evict_textsPresent memory :
  textsPresent (decisions memory) ∧ textsPresent (open_questions memory) →
  textsPresent (decisions (evict memory)) ∧
  textsPresent (open_questions (evict memory)).
Proof.
  intros [Hd Hq]. unfold evict, lastN, textsPresent; simpl.
  split; destruct (_ <? _); try done; by apply Forall_drop.
Qed.

Lemma reachable_textsPresent memory :
  reachable memory →
  textsPresent (decisions memory) ∧ textsPresent (open_questions memory).
Proof.
  induction 1 as [cid now|m s now m' _ [IHd IHq] Hm].
  - split; constructor.
  - unfold mergeMemory in Hm.
    destruct (whenArray (s_entities s) _ _) as [ents|]; simpl in Hm; [|done].
    destruct (whenArray (s_decisions_made s) _ _) as [decs|] eqn:Ed;
      simpl in Hm; [|done].
    destruct (whenArray (s_open_questions s) _ _) as [qs|] eqn:Eq;
      simpl in Hm; [|done].
    injection Hm as <-. apply evict_textsPresent. simpl. split.
    + destruct (s_decisions_made s) as [l|]; simpl in Ed.
      * destruct (mergeItems_returns now l _ IHd) as (? & Hr & ?). congruence.
      * congruence.
    + destruct (s_open_questions s) as [l|]; simpl in Eq.
      * destruct (mergeItems_returns now l _ IHq) as (? & Hr & ?). congruence.
      * congruence.
Qed.

(** On a reachable memory, a merge returns whenever the entities of the
    summary are named by strings. *)
Lemma mergeMemory_returns memory summary now :
  reachable memory → namesAreStrings summary →
  is_Some (mergeMemory memory summary now).
Proof.
  intros [Hd Hq]%reachable_textsPresent Hnames. unfold mergeMemory.
  assert (is_Some (whenArray (s_entities summary)
                     (mergeEntities now (entities memory)) (entities memory)))
    as [ents ->].
  { unfold namesAreStrings in Hnames.
    destruct (s_entities summary) as [l|]; simpl in *; [|by eexists].
    by apply mergeEntities_returns. }
  assert (is_Some (whenArray (s_decisions_made summary)
                     (mergeItems now (decisions memory)) (decisions memory)))
    as [decs ->].
  { destruct (s_decisions_made summary) as [l|]; simpl; [|by eexists].
    destruct (mergeItems_returns now l _ Hd) as (? & -> & _). by eexists. }
  assert (is_Some (whenArray (s_open_questions summary)
                     (mergeItems now (open_questions memory)) (open_questions memory)))
    as [qs ->].
  { destruct (s_open_questions summary) as [l|]; simpl; [|by eexists].
    destruct (mergeItems_returns now l _ Hq) as (? & -> & _). by eexists. }
  simpl. by eexists.
Qed.

(** Subsequence test against the inductive relation. *)
Lemma subseqb_tail {A} `{EqDecision A} (x : A) l1 l2 :
  subseqb (x :: l1) l2 = true → subseqb l1 l2 = true.
Proof.
  revert l1 x. induction l2 as [|y l2 IH]; intros l1 x; simpl; [done|].
  destruct (decide (x = y)) as [->|].
  - destruct l1 as [|z l1]; [done|]. simpl.
    destruct (decide (z = y)); [apply IH|done].
  - intros Hs. destruct l1 as [|z l1]; [done|]. simpl.
    destruct (decide (z = y)); [|by eapply IH].
    eapply IH, IH. exact Hs.
Qed.

Lemma sublist_subseqb {A} `{EqDecision A} (l1 l2 : list A) :
  sublist l1 l2 → subseqb l1 l2 = true.
Proof.
  induction 1 as [|x l1 l2 _ IH|x l1 l2 _ IH]; simpl.
  - done.
  - by rewrite decide_True.
  - destruct l1 as [|z l1]; [done|].
    destruct (decide (z = x)); [by eapply subseqb_tail|done].
Qed.

(** C4 (counterexample). Thirty entities are stored, then a summary mentions
    the thirtieth again and brings a new one: when evict runs the memory
    holds the thirty entities, the last of them with two mentions, and the
    newcomer.  Eviction keeps thirty of them but moves the entity with two
    mentions from the end to the front: the survivors are not in the order
    they had. *)
Lemma evict_reorders_entities :
  (∃ m1,
     mergeMemory (createEmptyMemory "conv_1" day1) thirtySummary day1 = Some m1 ∧
     mergeMemory m1 bumpSummary day2 = Some (evict crowdedMemory)) ∧
  map name (entities crowdedMemory) = take 29 thirtyNames ++ ["item30"; "latecomer"] ∧
  map name (entities (evict crowdedMemory)) = "item30" :: take 29 thirtyNames ∧
  ¬ keepsOrder crowdedMemory.
Proof.
  split_and!.
  - eexists. split; vm_compute; reflexivity.
  - vm_compute. reflexivity.
  - vm_compute. reflexivity.
  - intros [Hents _]. apply sublist_subseqb in Hents.
    vm_compute in Hents. discriminate.
Qed.

(** C4 (amended). Eviction is idempotent.  The decisions, open questions and
    constraints that survive are the last ones, in the order they had.  The
    entities are left as they are when there are at most 30; otherwise the
    survivors are entities of the memory arranged from the most mentioned
    to the least mentioned, those of equal mentions and last_updated in the
    order they had. *)
Theorem evict_idempotent_keeps_list_order memory :
  evict (evict memory) = evict memory ∧
  decisions (evict memory) `suffix_of` decisions memory ∧
  open_questions (evict memory) `suffix_of` open_questions memory ∧
  constraints (evict memory) `suffix_of` constraints memory ∧
  sublist (decisions (evict memory)) (decisions memory) ∧
  sublist (open_questions (evict memory)) (open_questions memory) ∧
  sublist (constraints (evict memory)) (constraints memory) ∧
  (if (30 <? length (entities memory))%nat
   then StronglySorted byMentions (entities (evict memory))
   else entities (evict memory) = entities memory) ∧
  entities (evict memory) ⊆+ entities memory ∧
  (∀ e, sublist (filter (sameRank e) (entities (evict memory)))
                (filter (sameRank e) (entities memory))).
Proof.
  assert (Hd : decisions (evict memory) `suffix_of` decisions memory).
  { unfold evict; simpl. destruct (_ <? _); [apply lastN_suffix|done]. }
  assert (Hq : open_questions (evict memory) `suffix_of` open_questions memory).
  { unfold evict; simpl. destruct (_ <? _); [apply lastN_suffix|done]. }
  assert (Hc : constraints (evict memory) `suffix_of` constraints memory).
  { unfold evict; simpl. destruct (_ <? _); [apply lastN_suffix|done]. }
  split_and!; try done.
  - apply evict_idempotent.
  - by apply suffix_sublist.
  - by apply suffix_sublist.
  - by apply suffix_sublist.
  - unfold evict; simpl. unfold maxEntities.
    destruct (30 <? length (entities memory)); [|done].
    apply (StronglySorted_app_1_l _ _ (drop 30 (sort entityCompare (entities memory)))).
    rewrite take_drop. apply sort_byMentions.
  - apply evict_entities_submseteq.
  - intros e. unfold evict; simpl.
    destruct (maxEntities <? length (entities memory)); [|done].
    rewrite <- (sort_filter_sameRank e (entities memory)).
    apply filter_sublist_mono, sublist_take.
Qed.

End MemoryFacts.

(** ** utils/summarize-generic.js *)

Section SummarizeFacts.
Import Js Memory Summarize Spec.

(** *** [indexOf] finds the first occurrence *)

Lemma append_cons c s t : String c s +:+ t = String c (s +:+ t).
Proof. reflexivity. Qed.

Lemma append_empty t : "" +:+ t = t.
Proof. reflexivity. Qed.

Lemma prefix_app needle hay :
  String.prefix needle hay = true ↔ ∃ post, hay = needle +:+ post.
Proof.
  revert hay. induction needle as [|c needle IH]; intros hay; simpl.
  - destruct hay; split; eauto.
  - destruct hay as [|d hay]; simpl.
    + split; [done|]. intros [post Hp]. by rewrite append_cons in Hp.
    + destruct (ascii_dec c d) as [->|Hne].
      * rewrite IH. split; intros [post Hp]; exists post;
          rewrite append_cons in *; congruence.
      * split; [done|]. intros [post Hp]. rewrite append_cons in Hp. congruence.
Qed.

Lemma indexOfFrom_absent needle hay i :
  (0 ≤ i)%Z →
  indexOfFrom needle hay i = (-1)%Z ↔ ∀ pre post, hay ≠ pre +:+ needle +:+ post.
Proof.
  revert i. induction hay as [|c hay IH]; intros i Hi; cbn [indexOfFrom].
  - destruct (String.prefix needle "") eqn:E.
    + apply prefix_app in E as [post E]. split; [intros ?; lia|].
      intros Hno. exfalso. by apply (Hno "" post).
    + split; [|done]. intros _ pre post Heq.
      destruct pre; [rewrite append_empty in Heq|by rewrite append_cons in Heq].
      assert (String.prefix needle "" = true) by (apply prefix_app; eauto).
      congruence.
  - destruct (String.prefix needle (String c hay)) eqn:E.
    + apply prefix_app in E as [post E]. split; [intros ?; lia|].
      intros Hno. exfalso. by apply (Hno "" post).
    + rewrite (IH (i + 1)%Z) by lia. split.
      * intros Hno pre post Heq.
        destruct pre as [|d pre];
          [rewrite append_empty in Heq|rewrite append_cons in Heq].
        -- assert (String.prefix needle (String c hay) = true)
             by (apply prefix_app; eauto).
           congruence.
        -- injection Heq as _ Heq. by apply (Hno pre post).
      * intros Hno pre post Heq. apply (Hno (String c pre) post).
        by rewrite append_cons, Heq.
Qed.

(** No index is returned exactly when the needle does not occur. *)
Lemma indexOf_absent hay needle :
  indexOf hay needle = (-1)%Z ↔ ∀ pre post, hay ≠ pre +:+ needle +:+ post.
Proof. apply indexOfFrom_absent. lia. Qed.

(** An index that is returned splits the text at an occurrence. *)
Lemma indexOfFrom_found needle hay i j :
  (0 ≤ i)%Z → indexOfFrom needle hay i = j → j ≠ (-1)%Z →
  (i ≤ j)%Z ∧
  ∃ post, hay = takeChars (Z.to_nat (j - i)) hay +:+ needle +:+ post.
Proof.
  revert i. induction hay as [|c hay IH]; intros i Hi; cbn [indexOfFrom].
  - destruct (String.prefix needle "") eqn:E; [|lia].
    intros <- _. split; [lia|]. rewrite Z.sub_diag. simpl.
    by apply prefix_app.
  - destruct (String.prefix needle (String c hay)) eqn:E.
    + intros <- _. split; [lia|]. rewrite Z.sub_diag. simpl.
      by apply prefix_app.
    + intros Hj Hne. destruct (IH (i + 1)%Z ltac:(lia) Hj Hne) as [Hle [post Hp]].
      split; [lia|]. exists post.
      replace (Z.to_nat (j - i)) with (S (Z.to_nat (j - (i + 1)))) by lia.
      simpl. by rewrite append_cons, <- Hp.
Qed.

Lemma indexOf_found hay needle j :
  indexOf hay needle = j → j ≠ (-1)%Z →
  (0 ≤ j)%Z ∧ ∃ post, hay = slice hay 0 j +:+ needle +:+ post.
Proof.
  intros Hj Hne.
  destruct (indexOfFrom_found needle hay 0 j ltac:(lia) Hj Hne) as [Hle [post Hp]].
  split; [done|]. exists post. unfold slice. simpl.
  rewrite Nat.sub_0_r. by rewrite Z.sub_0_r in Hp.
Qed.

(** *** Decoding a reply *)

(** C5. parseTargetResponse on a string whose memory markers are absent or
    malformed (no start marker, no end marker, or the end marker not after
    the start marker) returns the whole input trimmed as the reply and no
    memory update.  With well-formed markers the reply is the trimmed text
    before the start marker.  The reply "Sure, here's my take..." followed
    by a memory note with the line "Topic: X" decodes to that reply and to
    a memory update whose topic is "X". *)
Theorem parseTargetResponse_markers readJson fullText :
  let startIdx := indexOf fullText MEMORY_START_MARKER in
  let endIdx := indexOf fullText MEMORY_END_MARKER in
  (((∀ pre post, fullText ≠ pre +:+ MEMORY_START_MARKER +:+ post) ∨
    (∀ pre post, fullText ≠ pre +:+ MEMORY_END_MARKER +:+ post) ∨
    (endIdx ≤ startIdx)%Z) →
   parseTargetResponse readJson fullText
   = {| reply := trim fullText; memoryUpdate := None |}) ∧
  (startIdx ≠ (-1)%Z → endIdx ≠ (-1)%Z → (startIdx < endIdx)%Z →
   reply (parseTargetResponse readJson fullText) = trim (slice fullText 0 startIdx) ∧
   ∃ post, fullText = slice fullText 0 startIdx +:+ MEMORY_START_MARKER +:+ post) ∧
  reply (parseTargetResponse readJson takeReply) = "Sure, here's my take..." ∧
  (∃ update, memoryUpdate (parseTargetResponse readJson takeReply) = Some update ∧
             s_topic update = JStr "X").
Proof.
  intros startIdx endIdx. split_and!.
  - intros Hbad. unfold parseTargetResponse.
    destruct (isEmpty fullText) eqn:Hempty.
    { destruct fullText; [reflexivity|discriminate]. }
    fold startIdx endIdx.
    assert ((startIdx =? -1)%Z || (endIdx =? -1)%Z || (endIdx <=? startIdx)%Z = true)
      as ->; [|done].
    rewrite !orb_true_iff, !Z.eqb_eq, Z.leb_le.
    destruct Hbad as [H|[H|H]].
    + left; left. by apply indexOf_absent.
    + left; right. by apply indexOf_absent.
    + by right.
  - intros Hs He Hlt. split.
    + unfold parseTargetResponse.
      destruct (isEmpty fullText) eqn:Hempty.
      { destruct fullText; [done|discriminate]. }
      fold startIdx endIdx.
      assert ((startIdx =? -1)%Z || (endIdx =? -1)%Z || (endIdx <=? startIdx)%Z = false)
        as ->.
      { rewrite !orb_false_iff, !Z.eqb_neq, Z.leb_gt. done. }
      by destruct (startsWithChar _ _).
    + by destruct (indexOf_found fullText MEMORY_START_MARKER startIdx eq_refl Hs).
  - reflexivity.
  - eexists. split; reflexivity.
Qed.

(** Instances: a reply without markers, and one with a memory note. *)
Lemma parseTargetResponse_markers_witness :
  parseTargetResponse (λ _, None) "  just a reply, no note  "
  = {| reply := "just a reply, no note"; memoryUpdate := None |} ∧
  reply (parseTargetResponse (λ _, None) openOnlyReply) = "Happy to help.".
Proof.
  split.
  - apply (proj1 (parseTargetResponse_markers (λ _, None) "  just a reply, no note  ")).
    right; right. vm_compute. discriminate.
  - pose proof (proj1 (proj2 (parseTargetResponse_markers (λ _, None) openOnlyReply)))
      as H.
    destruct H as [-> _]; [vm_compute; discriminate..|vm_compute; reflexivity|].
    vm_compute. reflexivity.
Defined.


(** *** The emptiness checks *)

Lemma parseSummary_noCountedData readJson rawText obj :
  readJson rawText = Some obj → noCountedData obj →
  hasData (parseSummary readJson rawText) = false.
Proof.
  intros Hread (Ht & Hg & Hc & He & Hd).
  unfold hasData, parseSummary. rewrite Hread. simpl.
  unfold orElse. rewrite Ht, Hg, Hc. simpl.
  assert (filter (λ e, truthy (se_name e) = true) (default [] (s_entities obj)) = [])
    as Hnone.
  { induction He as [|e l Hname _ IH]; [done|].
    rewrite filter_cons. destruct (decide _) as [Hy|]; [congruence|done]. }
  destruct (s_entities obj) as [es|]; simpl in Hnone; [rewrite Hnone|];
    destruct (s_decisions_made obj) as [ds|]; simpl in Hd; subst; reflexivity.
Qed.

(** C10. The emptiness check of parseMemoryBlock ignores open questions and
    constraints: a labeled block without a value for topic, goal, task,
    facts, decisions and entities yields null whatever follows "Open:" and
    "Constraints:", so those items are dropped.  The hasData test of the
    JSON branch of parseTargetResponse likewise finds no data in a block
    that only has open_questions and constraints. *)
Theorem emptiness_checks_ignore_open_and_constraints :
  (∀ blockStr,
     (∀ k, k ∈ countedKeys → readFields blockStr !! k = None) →
     parseMemoryBlock blockStr = None) ∧
  (∀ readJson fullText obj,
     let startIdx := indexOf fullText MEMORY_START_MARKER in
     let endIdx := indexOf fullText MEMORY_END_MARKER in
     let blockStr :=
       trim (slice fullText (startIdx + strlen MEMORY_START_MARKER) endIdx) in
     startIdx ≠ (-1)%Z → (startIdx < endIdx)%Z →
     startsWithChar "{" blockStr = true →
     readJson blockStr = Some obj →
     noCountedData obj →
     memoryUpdate (parseTargetResponse readJson fullText) = None) ∧
  (∀ readJson,
     field (readFields ("Open: which database?; which host?" +:+ nl
                        +:+ "Constraints: no backend; no API keys")) "open"
     = "which database?; which host?" ∧
     parseTargetResponse readJson openOnlyReply
     = {| reply := "Happy to help."; memoryUpdate := None |}).
Proof.
  split_and!.
  - intros blockStr Hnone.
    assert (Hf : ∀ k, k ∈ countedKeys → field (readFields blockStr) k = "").
    { intros k Hk. unfold field. by rewrite (Hnone k Hk). }
    unfold parseMemoryBlock. cbv zeta.
    rewrite !Hf by (apply list_elem_of_In; simpl; tauto).
    reflexivity.
  - intros readJson fullText obj startIdx endIdx blockStr Hs Hlt Hbrace Hread Hobj.
    unfold parseTargetResponse.
    destruct (isEmpty fullText) eqn:Hempty.
    { destruct fullText; [by vm_compute in Hs|discriminate]. }
    fold startIdx endIdx.
    assert ((startIdx =? -1)%Z || (endIdx =? -1)%Z || (endIdx <=? startIdx)%Z = false)
      as ->.
    { rewrite !orb_false_iff, !Z.eqb_neq, Z.leb_gt.
      destruct (indexOf_found fullText MEMORY_START_MARKER startIdx eq_refl Hs)
        as [Hpos _].
      lia. }
    fold blockStr. rewrite Hbrace. simpl.
    by rewrite (parseSummary_noCountedData readJson blockStr obj Hread Hobj).
  - intros readJson. split; vm_compute; reflexivity.
Qed.

(** Instances: a labeled note and a JSON note that only hold open questions
    and constraints. *)
Lemma emptiness_checks_ignore_open_and_constraints_witness :
  parseMemoryBlock ("Open: which database?; which host?" +:+ nl
                    +:+ "Constraints: no backend; no API keys") = None ∧
  memoryUpdate (parseTargetResponse readOpenOnly openOnlyJsonReply) = None.
Proof.
  split.
  - apply (proj1 emptiness_checks_ignore_open_and_constraints).
    intros k Hk. apply list_elem_of_In in Hk. simpl in Hk.
    repeat (destruct Hk as [<-|Hk]; [vm_compute; reflexivity|]). destruct Hk.
  - apply (proj1 (proj2 emptiness_checks_ignore_open_and_constraints)
             readOpenOnly openOnlyJsonReply openOnlyObject).
    + vm_compute. discriminate.
    + vm_compute. reflexivity.
    + vm_compute. reflexivity.
    + vm_compute. reflexivity.
    + unfold noCountedData, openOnlyObject. simpl. split_and!; try reflexivity.
      constructor.
Defined.

End SummarizeFacts.

(** ** utils/format.js *)

Section FormatFacts.
Import Js Memory Format Spec.

Lemma dash_line c : "- " +:+ c = String "-" (String " " c).
Proof. reflexivity. Qed.

Lemma dash_line_inj c c' : "- " +:+ c = "- " +:+ c' → c = c'.
Proof. rewrite !dash_line. congruence. Qed.

Lemma isDashLine_dash c : isDashLine ("- " +:+ c) = true.
Proof. unfold isDashLine. rewrite dash_line. simpl. by destruct c. Qed.

Lemma entityLine_dash e : isDashLine (entityLine e) = true.
Proof.
  unfold entityLine. destruct (truthy (summary e)).
  - apply (isDashLine_dash
             ((name e +:+ " (" +:+ toStr (type e) +:+ ")") +:+ ": " +:+ toStr (summary e))).
  - apply isDashLine_dash.
Qed.

Lemma filteredConstraints_spec memory c :
  c ∈ filteredConstraints memory ↔
  c ∈ constraints memory ∧ isMetaInstruction c = false.
Proof. unfold filteredConstraints. rewrite list_elem_of_filter. tauto. Qed.

Lemma constraintLines_spec memory l :
  l ∈ constraintLines memory →
  l = "Constraints:" ∨
  ∃ c, c ∈ constraints memory ∧ isMetaInstruction c = false ∧ l = "- " +:+ c.
Proof.
  unfold constraintLines.
  destruct (filteredConstraints memory) as [|c0 fs] eqn:E; [by intros ?%elem_of_nil|].
  rewrite <- E. intros [->|Hin]%elem_of_cons; [by left|right].
  apply list_elem_of_fmap in Hin as (c & -> & Hc).
  apply filteredConstraints_spec in Hc as [? ?]. eauto.
Qed.

Lemma filteredConstraints_dropMeta memory :
  filteredConstraints (dropMeta memory) = filteredConstraints memory.
Proof.
  unfold filteredConstraints, dropMeta; simpl.
  induction (constraints memory) as [|c l IH]; [done|].
  rewrite !filter_cons. destruct (decide (isMetaInstruction c = false)) as [Hc|]; [|done].
  rewrite filter_cons, decide_True by done. by rewrite IH.
Qed.

Lemma sanitizedTask_dropMeta memory :
  sanitizedTask (dropMeta memory) = sanitizedTask memory.
Proof.
  unfold sanitizedTask, dropMeta. cbn [current_task]. cbv zeta.
  destruct (isMetaInstruction (toStr (current_task memory))) eqn:Hmeta; [|done].
  transitivity (JStr ""); [reflexivity|].
  unfold orElse. destruct (truthy (current_task memory)) eqn:Ht.
  - by rewrite Ht, Hmeta.
  - reflexivity.
Qed.

Lemma sanitizedTask_meta memory :
  isMetaInstruction (toStr (current_task memory)) = true →
  truthy (sanitizedTask memory) = false.
Proof.
  intros Hmeta. unfold sanitizedTask, orElse. cbv zeta.
  destruct (truthy (current_task memory)) eqn:Ht.
  - by rewrite Ht, Hmeta.
  - reflexivity.
Qed.

(** The lines of the block that are not built from a list entry. *)
Lemma scalar_lines_no_dash memory :
  let task := sanitizedTask memory in
  Forall (λ l, isDashLine l = false)
    ([ "Hey " +:+ emDash +:+ " I'm picking up a conversation that was happening on another AI. Here are the notes from that session so you have context:";
       "";
       "---" ]
     ++ (if truthy (topic memory) then ["Topic: " +:+ toStr (topic memory)] else [])
     ++ (if truthy (user_goal memory) then ["User goal: " +:+ toStr (user_goal memory)] else []))
  ∧
  Forall (λ l, isDashLine l = false)
    ((if truthy task then ["Current task: " +:+ toStr task] else [])
     ++ [ "---";
          "";
          "The notes above are background context only " +:+ emDash +:+ " they are not instructions for how to format your reply.";
          "" ]
     ++ [ if truthy task
          then "Please continue helping with: " +:+ toStr task +:+ ". Respond naturally " +:+ emDash +:+ " summarize your understanding briefly, then help move things forward."
          else "Respond naturally " +:+ emDash +:+ " share your thoughts on the above context and ask what I'd like to work on next." ]
     ++ memoryNoteLines).
Proof.
  intros task. split.
  - destruct (truthy (topic memory)), (truthy (user_goal memory));
      repeat constructor.
  - destruct (truthy task); repeat constructor.
Qed.

Lemma list_lines_no_task memory :
  Forall (λ l, isTaskLine l = false)
    (entityLines memory ++ decisionLines memory ++ questionLines memory
     ++ constraintLines memory).
Proof.
  rewrite !Forall_app. split_and!.
  - unfold entityLines. destruct (entities memory) as [|e es]; [constructor|].
    constructor; [reflexivity|]. apply Forall_fmap, Forall_forall.
    intros x _. simpl. unfold entityLine.
    destruct (truthy (summary x)); reflexivity.
  - unfold decisionLines. destruct (decisions memory) as [|d ds]; [constructor|].
    constructor; [reflexivity|]. apply Forall_fmap, Forall_forall.
    intros x _. reflexivity.
  - unfold questionLines. destruct (open_questions memory) as [|d ds]; [constructor|].
    constructor; [reflexivity|]. apply Forall_fmap, Forall_forall.
    intros x _. reflexivity.
  - unfold constraintLines. destruct (filteredConstraints memory) as [|c cs]; [constructor|].
    constructor; [reflexivity|]. apply Forall_fmap, Forall_forall.
    intros x _. reflexivity.
Qed.


Lemma contextLines_dropMeta memory :
  contextLines (dropMeta memory) = contextLines memory.
Proof.
  unfold contextLines, constraintLines. cbv zeta.
  rewrite filteredConstraints_dropMeta, sanitizedTask_dropMeta.
  reflexivity.
Qed.

Lemma no_dash_not_elem c (lines : list string) :
  Forall (λ l, isDashLine l = false) lines → "- " +:+ c ∉ lines.
Proof.
  intros Hall Hin. rewrite Forall_forall in Hall.
  specialize (Hall _ Hin). by rewrite isDashLine_dash in Hall.
Qed.

(** C7. No constraint that matches a meta-instruction pattern (a mention of
    "json", "no other text", "browser extension", "summarizing the
    conversation", ...) is written by formatContextBlock: the block is the
    one of the memory without those entries, the constraint section only
    lists constraints that pass the filter, and a line made of a rejected
    constraint can only come from an entity, a decision or an open
    question.  A current_task that matches a pattern is dropped: neither the
    "Current task:" line nor the instruction built on the task is written,
    the generic instruction is. *)
Theorem meta_instructions_are_not_formatted memory :
  formatContextBlock (dropMeta memory) = formatContextBlock memory ∧
  (∀ l, l ∈ constraintLines memory →
        l = "Constraints:" ∨
        ∃ c, c ∈ constraints memory ∧ isMetaInstruction c = false ∧ l = "- " +:+ c) ∧
  (∀ c, isMetaInstruction c = true →
        "- " +:+ c ∈ contextLines memory →
        "- " +:+ c ∈ entityLines memory ++ decisionLines memory ++ questionLines memory) ∧
  (isMetaInstruction (toStr (current_task memory)) = true →
     Forall (λ l, isTaskLine l = false) (contextLines memory) ∧
     genericInstruction ∈ contextLines memory) ∧
  Forall (λ t, isMetaInstruction t = true)
    [ "json"; "structured output"; "no other text"; "browser extension";
      "summarizing the conversation"; "Reply must be valid JSON only" ].
Proof.
  split_and!.
  - unfold formatContextBlock. by rewrite contextLines_dropMeta.
  - apply constraintLines_spec.
  - intros c Hmeta Hin. unfold contextLines in Hin. cbv zeta in Hin.
    destruct (scalar_lines_no_dash memory) as [Hhead Htail]. cbv zeta in Htail.
    rewrite !elem_of_app in Hin. rewrite !elem_of_app.
    destruct Hin as [Hin|[Hin|[Hin|[Hin|[Hin|[Hin|[Hin|[Hin|[Hin|[Hin|Hin]]]]]]]]]];
      try tauto.
    + exfalso. eapply (no_dash_not_elem c); [exact Hhead|].
      rewrite !elem_of_app. tauto.
    + exfalso. eapply (no_dash_not_elem c); [exact Hhead|].
      rewrite !elem_of_app. tauto.
    + exfalso. eapply (no_dash_not_elem c); [exact Hhead|].
      rewrite !elem_of_app. tauto.
    + exfalso. apply constraintLines_spec in Hin as [Hin|(c' & _ & Hc' & Heq)].
      * by rewrite dash_line in Hin.
      * apply dash_line_inj in Heq as ->. congruence.
    + exfalso. eapply (no_dash_not_elem c); [exact Htail|].
      rewrite !elem_of_app. tauto.
    + exfalso. eapply (no_dash_not_elem c); [exact Htail|].
      rewrite !elem_of_app. tauto.
    + exfalso. eapply (no_dash_not_elem c); [exact Htail|].
      rewrite !elem_of_app. tauto.
    + exfalso. eapply (no_dash_not_elem c); [exact Htail|].
      rewrite !elem_of_app. tauto.
  - intros Hmeta. apply sanitizedTask_meta in Hmeta.
    unfold contextLines. cbv zeta. rewrite Hmeta. split.
    + pose proof (list_lines_no_task memory) as Hlists.
      rewrite !Forall_app in Hlists. destruct Hlists as (He & Hd & Hq & Hc).
      rewrite !Forall_app.
      split_and!; try done;
        first [ by repeat constructor
              | by destruct (truthy (topic memory)); repeat constructor
              | by destruct (truthy (user_goal memory)); repeat constructor ].
    + rewrite !elem_of_app. do 9 right. left. apply list_elem_of_singleton.
      reflexivity.
  - repeat constructor.
Qed.

(** An instance: a constraint and a task about the JSON summary are left
    out, the constraint about the backend stays. *)
Lemma meta_instructions_are_not_formatted_witness :
  Forall (λ l, isTaskLine l = false) (contextLines pollutedMemory) ∧
  genericInstruction ∈ contextLines pollutedMemory ∧
  constraintLines pollutedMemory = ["Constraints:"; "- no backend"].
Proof.
  split_and!.
  - apply (proj1 (proj2 (proj2 (proj2 (meta_instructions_are_not_formatted pollutedMemory))))).
    vm_compute. reflexivity.
  - apply (proj1 (proj2 (proj2 (proj2 (meta_instructions_are_not_formatted pollutedMemory))))).
    vm_compute. reflexivity.
  - vm_compute. reflexivity.
Defined.

End FormatFacts.

(** ** background.js *)

Section BackgroundFacts.
Import Js Memory Background Spec.
Variable readJson : string → option Summary.

(** A message whose type is the ready type of a registered model reaches the
    READY branch. *)
Lemma ready_dispatch st message sender model :
  model ∈ MODEL_REGISTRY →
  m_type message = readyType model →
  onMessage readJson st message sender = onReady st sender.
Proof.
  intros Hin Htype. unfold onMessage. rewrite Htype.
  apply list_elem_of_In in Hin. simpl in Hin.
  repeat (destruct Hin as [<-|Hin]; [reflexivity|]). destruct Hin.
Qed.

Lemma onReady_neverInBoth st sender :
  neverInBoth st → neverInBoth (fst (onReady st sender)).
Proof.
  intros Hinv. unfold onReady.
  destruct sender as [tab|]; [|done].
  destruct (pendingContext st !! tab) as [pending|] eqn:E; [|done].
  intros tab'. simpl. destruct (decide (tab' = tab)) as [->|Hne].
  - left. apply lookup_delete_eq.
  - rewrite lookup_delete_ne, lookup_insert_ne by done. apply Hinv.
Qed.

Lemma onResponse_neverInBoth st model content sender :
  neverInBoth st → neverInBoth (fst (onResponse readJson st model content sender)).
Proof.
  intros Hinv. unfold onResponse.
  destruct sender as [tab|]; [|done].
  destruct (pendingReview st !! tab) as [review|] eqn:E; [|done].
  intros tab'. simpl. destruct (decide (tab' = tab)) as [->|Hne].
  - right. apply lookup_delete_eq.
  - rewrite lookup_delete_ne by done. apply Hinv.
Qed.

Lemma onMessage_neverInBoth st message sender :
  neverInBoth st → neverInBoth (fst (onMessage readJson st message sender)).
Proof.
  intros Hinv. unfold onMessage.
  destruct (String.eqb (m_type message) "GET_MODELS"); [done|].
  destruct (String.eqb (m_type message) "CAPTURE"); [done|].
  destruct (getModelByMessageType (m_type message)) as [model|]; [|done].
  destruct (String.eqb (m_type message) (readyType model)).
  - by apply onReady_neverInBoth.
  - destruct (String.eqb (m_type message) (responseType model)); [|done].
    by apply onResponse_neverInBoth.
Qed.

Lemma reachable_neverInBoth st : Background.reachable readJson st → neverInBoth st.
Proof.
  induction 1 as [|st st' _ IH Hstep].
  - intros tab. left. apply lookup_empty.
  - destruct Hstep as [st message sender|st tab handoff Hc Hr].
    + by apply onMessage_neverInBoth.
    + intros tab'. simpl. destruct (decide (tab' = tab)) as [->|Hne].
      * by right.
      * rewrite lookup_insert_ne by done. apply IH.
Qed.

(** C8. A READY message from a tab with a pending handoff removes the
    handoff, records a pending review with the same source tab and
    conversation, and answers with the context block and the conversation
    identifier.  A READY message from a tab without a pending handoff is
    answered with null, records no review and leaves both maps as they
    were.  No tab is ever in both maps. *)
Theorem ready_moves_handoff_to_review st message sender model :
  model ∈ MODEL_REGISTRY →
  m_type message = readyType model →
  (∀ tab pending,
     sender = Some tab → pendingContext st !! tab = Some pending →
     onMessage readJson st message sender
     = ({| pendingContext := delete tab (pendingContext st);
           pendingReview :=
             <[tab := {| r_sourceTabId := h_sourceTabId pending;
                         r_conversationId := h_conversationId pending |}]>
               (pendingReview st) |},
        [RespondInject (contextBlock pending) (h_conversationId pending)]) ∧
     pendingContext (fst (onMessage readJson st message sender)) !! tab = None ∧
     pendingReview (fst (onMessage readJson st message sender)) !! tab
     = Some {| r_sourceTabId := h_sourceTabId pending;
               r_conversationId := h_conversationId pending |}) ∧
  ((∀ tab, sender = Some tab → pendingContext st !! tab = None) →
     onMessage readJson st message sender = (st, [RespondNull])) ∧
  (neverInBoth st → neverInBoth (fst (onMessage readJson st message sender))) ∧
  (Background.reachable readJson st → neverInBoth st).
Proof.
  intros Hin Htype.
  rewrite (ready_dispatch st message sender model Hin Htype).
  split_and!.
  - intros tab pending -> Hpending. unfold onReady. rewrite Hpending.
    split_and!; [done|apply lookup_delete_eq|apply lookup_insert_eq].
  - intros Hnone. unfold onReady. destruct sender as [tab|]; [|done].
    by rewrite (Hnone tab eq_refl).
  - apply onReady_neverInBoth.
  - apply reachable_neverInBoth.
Qed.

End BackgroundFacts.

Section BackgroundExamples.
Import Js Memory Background Spec.

(** Instances: tab 7 is waiting for its context, tab 8 is a regular visit. *)
Lemma ready_moves_handoff_to_review_witness :
  onMessage (λ _, None) waitingState (readyFrom "CLAUDE_READY") (Some 7%positive)
  = ({| pendingContext := delete 7%positive (pendingContext waitingState);
        pendingReview :=
          <[7%positive := mkReview 3%positive "conv_1"]> ∅ |},
     [RespondInject "the context block" "conv_1"]) ∧
  onMessage (λ _, None) waitingState (readyFrom "CLAUDE_READY") (Some 8%positive)
  = (waitingState, [RespondNull]).
Proof.
  assert (Hin : mkModel "claude" "Claude" "https://claude.ai"
                  "CLAUDE_READY" "CLAUDE_RESPONSE" ∈ MODEL_REGISTRY).
  { apply list_elem_of_In. simpl. tauto. }
  split.
  - apply (proj1 (ready_moves_handoff_to_review (λ _, None) waitingState
                    (readyFrom "CLAUDE_READY") (Some 7%positive) _ Hin eq_refl)
             7%positive (mkHandoff "the context block" 3%positive "conv_1")
             eq_refl).
    reflexivity.
  - apply (proj1 (proj2 (ready_moves_handoff_to_review (λ _, None) waitingState
                    (readyFrom "CLAUDE_READY") (Some 8%positive) _ Hin eq_refl))).
    intros tab [= <-]. reflexivity.
Defined.

End BackgroundExamples.

(** ** The response detector *)

Section DetectorFacts.
Import Js Detector Spec.
Variables (snapshot : string) (observe : nat → string).

Lemma firstGrowth_unique g g' :
  firstGrowth snapshot observe g → firstGrowth snapshot observe g' → g = g'.
Proof.
  intros [Hg Hbefore] [Hg' Hbefore'].
  destruct (Nat.lt_trichotomy g g') as [Hlt|[->|Hlt]]; [|done|].
  - by destruct (Hbefore' g Hlt).
  - by destruct (Hbefore g' Hlt).
Qed.

Lemma firstUnchanged_unique g n n' :
  firstUnchanged observe g n → firstUnchanged observe g n' → n = n'.
Proof.
  intros [Hn Hbefore] [Hn' Hbefore'].
  destruct (Nat.lt_trichotomy n n') as [Hlt|[->|Hlt]]; [|done|].
  - by destruct (Hbefore' n Hlt).
  - by destruct (Hbefore n' Hlt).
Qed.

Lemma settlesAt_unique n n' :
  settlesAt snapshot observe n → settlesAt snapshot observe n' → n = n'.
Proof.
  intros (_ & g & Hg & Hn) (_ & g' & Hg' & Hn').
  rewrite <- (firstGrowth_unique g g' Hg Hg') in Hn'.
  by eapply firstUnchanged_unique.
Qed.

(** *** Phase 2 *)

Lemma polling_phase2 fuel : ∀ n st g c s o,
  phase st = 2%Z →
  firstGrowth snapshot observe g →
  stableCount st = Z.of_nat c → c ≤ 3 → s + c + 1 = n → g ≤ s →
  lastLength st = strlen (observe s) →
  (∀ k, s ≤ k < n → strlen (observe k) = strlen (observe s)) →
  (s = g ∨ strlen (observe (s - 1)) ≠ strlen (observe s)) →
  elapsed st = (500 * Z.of_nat n)%Z →
  (∀ m, m < n → ¬ unchangedAt observe g m) →
  polling fuel snapshot observe n st = Some o →
  settledOk snapshot observe o.
Proof.
  induction fuel as [|fuel IH];
    intros n st g c s o Hphase Hg Hcount Hc Hs Hgs Hlast Hrun Hmax Helapsed Hnone;
    [done|].
  cbn [polling]. unfold tick, TIMEOUT_MS, STABLE_NEEDED, POLL_MS.
  rewrite Hphase, Helapsed, Hlast, Hcount.
  destruct (Z.leb_spec 90000 (500 * Z.of_nat n)) as [Hover|Hunder].
  { intros [= <-]. intros (m & (Hm & g' & Hg' & [Hm' _])).
    rewrite <- (firstGrowth_unique g g' Hg Hg') in Hm'.
    apply (Hnone m); [lia|done]. }
  change (2 =? 1)%Z with false. cbn iota.
  destruct (Z.eqb_spec (strlen (observe n)) (strlen (observe s))) as [Heq|Hneq].
  - destruct (Z.leb_spec 4 (Z.of_nat c + 1)) as [Hfour|Hless].
    + intros [= <-]. exists n. split; [|done].
      split; [lia|]. exists g. split; [done|]. split; [|done].
      split; [lia|]. intros k Hk.
      destruct (decide (k = n)) as [->|Hkn]; [done|].
      rewrite Heq. apply Hrun. lia.
    + apply (IH (S n) _ g (S c) s); simpl; try done; try lia.
      * intros k Hk. destruct (decide (k = n)) as [->|Hkn]; [done|].
        apply Hrun. lia.
      * intros m Hm [Hgm Hwin]. destruct (decide (m = n)) as [->|Hmn].
        -- destruct Hmax as [->|Hmax]; [lia|]. apply Hmax.
           rewrite (Hwin (s - 1)) by lia. rewrite (Hwin s) by lia. done.
        -- apply (Hnone m); [lia|done].
  - apply (IH (S n) _ g 0 n); simpl; try done; try lia.
    + intros k Hk. by replace k with n by lia.
    + right. replace (n - 0) with n by lia.
      rewrite (Hrun (n - 1)) by lia. done.
    + intros m Hm [Hgm Hwin]. destruct (decide (m = n)) as [->|Hmn].
      * apply Hneq. rewrite <- (Hrun (n - 1)) by lia. symmetry. apply Hwin. lia.
      * apply (Hnone m); [lia|done].
Qed.

(** *** Phase 1 *)

Lemma polling_phase1 fuel : ∀ n st o,
  phase st = 1%Z →
  stableCount st = 0%Z →
  elapsed st = (500 * Z.of_nat n)%Z →
  (∀ i, i < n → ¬ grown snapshot observe i) →
  polling fuel snapshot observe n st = Some o →
  settledOk snapshot observe o.
Proof.
  induction fuel as [|fuel IH]; intros n st o Hphase Hcount Helapsed Hnone; [done|].
  cbn [polling]. unfold tick, TIMEOUT_MS, MIN_NEW_CHARS, POLL_MS.
  rewrite Hphase, Helapsed.
  destruct (Z.leb_spec 90000 (500 * Z.of_nat n)) as [Hover|Hunder].
  { intros [= <-]. intros (m & (Hm & g & [Hg _] & [[Hgm _] _])).
    destruct (decide (g < n)) as [Hlt|Hge]; [by apply (Hnone g)|lia]. }
  change (1 =? 1)%Z with true. cbn iota.
  destruct (Z.ltb_spec (strlen snapshot + 50) (strlen (observe n))) as [Hgrow|Hstay].
  - assert (Hfirst : firstGrowth snapshot observe n) by (by split).
    intros Hpoll.
    refine (polling_phase2 fuel (S n) _ n 0 n o _ Hfirst _ _ _ _ _ _ _ _ _ Hpoll).
    + reflexivity.
    + exact Hcount.
    + lia.
    + lia.
    + lia.
    + reflexivity.
    + intros k Hk. by replace k with n by lia.
    + by left.
    + simpl. lia.
    + intros m Hm [Hgm _]. lia.
  - intros Hpoll. refine (IH (S n) _ o _ _ _ _ Hpoll).
    + reflexivity.
    + exact Hcount.
    + simpl. lia.
    + intros i Hi. destruct (decide (i = n)) as [->|Hin].
      * unfold grown. lia.
      * apply Hnone. lia.
Qed.

(** *** The promise always settles *)

Lemma polling_settles fuel : ∀ n st,
  elapsed st = (500 * Z.of_nat n)%Z → n ≤ 180 → 181 ≤ fuel + n →
  is_Some (polling fuel snapshot observe n st).
Proof.
  induction fuel as [|fuel IH]; intros n st Helapsed Hn Hfuel; [lia|].
  cbn [polling]. unfold tick, TIMEOUT_MS, POLL_MS. rewrite Helapsed.
  destruct (Z.leb_spec 90000 (500 * Z.of_nat n)) as [Hover|Hunder]; [by eexists|].
  assert (Hnext : ∀ st', elapsed st' = (500 * Z.of_nat n + 500)%Z →
                         is_Some (polling fuel snapshot observe (S n) st')).
  { intros st' Hst'. apply IH; [rewrite Hst'|..]; lia. }
  destruct (phase st =? 1)%Z.
  - destruct (_ <? _)%Z; by apply Hnext.
  - destruct (_ =? _)%Z; [|by apply Hnext].
    destruct (_ <=? _)%Z; [by eexists|by apply Hnext].
Qed.


(** C6 (amended). The detector leaves phase 1 at the first poll whose text is
    more than 50 characters longer than the baseline: with a baseline of 100
    characters a text of 140 does not end phase 1 and one of 170 does.  It
    then succeeds at the first poll that is the fourth in a row to find the
    length of the text unchanged, and returns what it extracts from the
    text of that poll.  If no such poll is among the 180 polls of the 90
    seconds, the promise is rejected as timed out.  The promise always
    settles. *)
Theorem detector_waits_for_growth_then_equal_lengths initialText :
  (∀ st currentText,
     phase st = 1%Z → (elapsed st < TIMEOUT_MS)%Z →
     ∃ st', tick snapshot st currentText = Rescheduled st' ∧
            phase st' = if (strlen snapshot + 50 <? strlen currentText)%Z
                        then 2%Z else 1%Z) ∧
  (∀ r, waitForTargetResponse snapshot initialText observe = Some (Response r)
        ↔ ∃ n, settlesAt snapshot observe n
               ∧ r = extractTargetResponse snapshot (observe n)) ∧
  (waitForTargetResponse snapshot initialText observe = Some Timeout
   ↔ ¬ ∃ n, settlesAt snapshot observe n) ∧
  is_Some (waitForTargetResponse snapshot initialText observe) ∧
  (∃ st140 st170,
     tick baseline100 (initialPoll baseline100) (repeatChar "a" 140) = Rescheduled st140 ∧
     phase st140 = 1%Z ∧
     tick baseline100 (initialPoll baseline100) (repeatChar "a" 170) = Rescheduled st170 ∧
     phase st170 = 2%Z).
Proof.
  assert (Hok : ∀ o, waitForTargetResponse snapshot initialText observe = Some o →
                     settledOk snapshot observe o).
  { intros o. apply (polling_phase1 maxTicks 0); try done. intros i Hi. lia. }
  assert (Hsome : is_Some (waitForTargetResponse snapshot initialText observe)).
  { apply polling_settles; [done|lia|unfold maxTicks; lia]. }
  split_and!.
  - intros st currentText Hphase Helapsed. unfold tick, MIN_NEW_CHARS.
    rewrite Hphase. destruct (Z.leb_spec TIMEOUT_MS (elapsed st)); [lia|].
    change (1 =? 1)%Z with true. cbn iota.
    destruct (_ <? _)%Z; eexists; split; reflexivity.
  - intros r. split; [apply (Hok (Response r))|].
    intros (n & Hn & ->). destruct Hsome as [[|r'] Hres].
    + destruct (Hok _ Hres). eauto.
    + destruct (Hok _ Hres) as (n' & Hn' & ->).
      by rewrite Hres, (settlesAt_unique n n' Hn Hn').
  - split; [apply (Hok Timeout)|].
    intros Hnever. destruct Hsome as [[|r'] Hres]; [done|].
    destruct (Hok _ Hres) as (n' & Hn' & _). destruct Hnever. eauto.
  - exact Hsome.
  - eexists _, _. split_and!; reflexivity.
Qed.

End DetectorFacts.

Section DetectorExamples.
Import Js Detector Spec.

Lemma steadyPage_settles : settlesAt baseline100 steadyPage 5.
Proof.
  split; [lia|]. exists 1. split; split.
  - unfold grown. vm_compute. reflexivity.
  - intros i Hi. replace i with 0 by lia. unfold grown. vm_compute. discriminate.
  - split; [lia|]. intros k Hk.
    destruct k as [|k]; [lia|]. reflexivity.
  - intros m Hm [Hgm _]. lia.
Qed.

(** An instance: 140 characters, then 170 that stay; the detector resolves
    at the sixth poll with the 70 new characters. *)
Lemma detector_waits_for_growth_then_equal_lengths_witness :
  waitForTargetResponse baseline100 baseline100 steadyPage
  = Some (Response (repeatChar "a" 70)).
Proof.
  apply (proj1 (proj2 (detector_waits_for_growth_then_equal_lengths
                         baseline100 steadyPage baseline100))).
  exists 5. split; [exact steadyPage_settles|]. vm_compute. reflexivity.
Defined.

(** C6 (counterexample). The page grows to 170 characters and is rewritten
    at every poll without changing its length: no two texts the detector
    reads are the same, and it resolves at the sixth poll. *)
Lemma detector_resolves_on_changing_text :
  waitForTargetResponse baseline100 baseline100 flickeringPage
  = Some (Response (repeatChar "f" 70)) ∧
  NoDup (map flickeringPage (seq 0 6)) ∧
  Forall (λ n, ¬ identicalAt flickeringPage n) (seq 0 6).
Proof.
  split_and!.
  - vm_compute. reflexivity.
  - apply (bool_decide_unpack _). vm_compute. exact I.
  - repeat constructor; intros (H3 & _ & _ & Hlast); try lia;
      vm_compute in Hlast; discriminate.
Qed.

(** *** What the extraction keeps *)

(** C9 (evaluation of the code). After the slice at the length of the
    baseline, a line of exactly ten characters is discarded and a line of
    eleven is kept: the filter keeps a trimmed line only when it is longer
    than ten characters. *)
Theorem extraction_drops_line_of_ten :
  extractTargetResponse "prompt" ("prompt" +:+ "0123456789") = "" ∧
  extractTargetResponse "prompt" ("prompt" +:+ "0123456789a") = "0123456789a" ∧
  extractTargetResponse "prompt"
    ("prompt" +:+ "first line of the reply" +:+ nl +:+ "Copy" +:+ nl
     +:+ "  0123456789  " +:+ nl +:+ "last line of the reply")
  = "first line of the reply" +:+ nl +:+ "last line of the reply" ∧
  (∀ beforeText afterText l,
     l ∈ meaningfulLines beforeText afterText → (11 ≤ strlen l)%Z).
Proof.
  split_and!; [vm_compute; reflexivity..|].
  intros beforeText afterText l Hl. unfold meaningfulLines in Hl.
  apply list_elem_of_filter in Hl as [Hlen _].
  apply Z.ltb_lt in Hlen. lia.
Qed.

End DetectorExamples.

(** * Further properties *)

(** ** utils/memory.js: merging *)

Section MergeFacts.
Import Js Memory Spec More.

(** What a merge that returns has built before eviction. *)
Lemma mergeMemory_inv memory summary now memory' :
  mergeMemory memory summary now = Some memory' →
  ∃ ents decs qs,
    whenArray (s_entities summary)
      (mergeEntities now (entities memory)) (entities memory) = Some ents ∧
    whenArray (s_decisions_made summary)
      (mergeItems now (decisions memory)) (decisions memory) = Some decs ∧
    whenArray (s_open_questions summary)
      (mergeItems now (open_questions memory)) (open_questions memory) = Some qs ∧
    memory' = evict
      {| version := version memory;
         conversation_id := conversation_id memory;
         created_at := created_at memory;
         updated_at := now;
         topic := orElse (s_topic summary) (topic memory);
         user_goal := orElse (s_user_goal summary) (user_goal memory);
         entities := ents;
         decisions := decs;
         open_questions := qs;
         constraints :=
           match s_constraints summary with
           | Some l => mergeConstraints (constraints memory) l
           | None => constraints memory
           end;
         current_task := orElse (s_current_task summary) (current_task memory);
         iteration_count := iteration_count memory + 1 |}.
Proof.
  unfold mergeMemory.
  destruct (whenArray (s_entities summary) _ _) as [ents|]; simpl; [|done].
  destruct (whenArray (s_decisions_made summary) _ _) as [decs|]; simpl; [|done].
  destruct (whenArray (s_open_questions summary) _ _) as [qs|]; simpl; [|done].
  intros [= <-]. by eexists _, _, _.
Qed.

(** *** When a merge throws *)





End MergeFacts.

(** ** utils/memory.js: what a stored memory looks like *)

Section StoredFacts.
Import Js Memory Spec More.

(** *** No fuzzy duplicates *)

Lemma apart_snoc items x :
  apart items →
  Forall (λ y, fuzzyDuplicate (text y) (text x) = false) items →
  apart (items ++ [x]).
Proof.
  induction items as [|y items IH]; simpl; [by intros _ _; split; [constructor|]|].
  intros [Hy Hrest] [Hyx Hall]%Forall_cons. split.
  - apply Forall_app. split; [done|by constructor].
  - by apply IH.
Qed.

Lemma apart_drop n items : apart items → apart (drop n items).
Proof.
  revert n. induction items as [|y items IH]; intros [|n]; simpl; try done.
  intros [_ Hrest]. by apply IH.
Qed.

Lemma apart_lookup items i j a b :
  apart items → i < j → items !! i = Some a → items !! j = Some b →
  fuzzyDuplicate (text a) (text b) = false.
Proof.
  revert i j. induction items as [|y items IH]; intros i j Hap Hij Ha Hb; [done|].
  destruct Hap as [Hy Hrest]. destruct j as [|j]; [lia|].
  destruct i as [|i]; simpl in *.
  - injection Ha as <-. rewrite Forall_forall in Hy. apply Hy.
    by eapply list_elem_of_lookup_2.
  - apply (IH i j); [done|lia|done..].
Qed.

Lemma isDuplicate_false items t :
  isDuplicate items t = Some false →
  Forall (λ y, fuzzyDuplicate (text y) t = false) items.
Proof.
  induction items as [|y items IH]; simpl; [constructor|].
  destruct (isEmpty (text y)); [done|].
  destruct (String.eqb _ _) eqn:E1; [done|].
  destruct (_ || _) eqn:E2; [done|].
  intros Hrest. constructor; [|by apply IH].
  unfold fuzzyDuplicate. cbv zeta. rewrite E1. simpl. by rewrite E2.
Qed.

Lemma mergeItems_apart now incoming : ∀ items items',
  apart items → mergeItems now items incoming = Some items' → apart items'.
Proof.
  induction incoming as [|v rest IH]; intros items items' Hap; simpl.
  - by intros [= <-].
  - destruct (isEmpty (trim (toStr v))); [by apply IH|].
    destruct (isDuplicate items (trim (toStr v))) as [[|]|] eqn:E; [by apply IH| |done].
    apply IH. apply apart_snoc; [done|]. by apply isDuplicate_false.
Qed.

Lemma whenArray_mergeItems_apart now field items items' :
  apart items → whenArray field (mergeItems now items) items = Some items' →
  apart items'.
Proof.
  destruct field as [l|]; simpl; [by apply mergeItems_apart|by intros ? [= <-]].
Qed.

Lemma reachable_apart memory :
  reachable memory → apart (decisions memory) ∧ apart (open_questions memory).
Proof.
  induction 1 as [cid now|m s now m' _ [IHd IHq] Hm]; [done|].
  apply mergeMemory_inv in Hm as (ents & decs & qs & _ & Hd & Hq & ->).
  unfold evict, lastN; simpl. split.
  - destruct (_ <? _); [apply apart_drop|];
      exact (whenArray_mergeItems_apart _ _ _ _ IHd Hd).
  - destruct (_ <? _); [apply apart_drop|];
      exact (whenArray_mergeItems_apart _ _ _ _ IHq Hq).
Qed.

(** X2. In a memory produced by merges no decision is a fuzzy duplicate of a
    decision stored before it (equal, or one containing the other, without
    regard to case), and likewise for the open questions. *)
Theorem stored_items_are_not_fuzzy_duplicates memory :
  reachable memory →
  (∀ i j a b, i < j →
     decisions memory !! i = Some a → decisions memory !! j = Some b →
     fuzzyDuplicate (text a) (text b) = false) ∧
  (∀ i j a b, i < j →
     open_questions memory !! i = Some a → open_questions memory !! j = Some b →
     fuzzyDuplicate (text a) (text b) = false).
Proof.
  intros [Hd Hq]%reachable_apart.
  split; intros i j a b; by apply apart_lookup.
Qed.

Lemma afterDecisions_reachable : reachable afterDecisions.
Proof.
  apply (reachable_merge (createEmptyMemory "conv_1" day1) decisionSummary day1).
  - apply reachable_empty.
  - reflexivity.
Qed.

(** An instance: of four decisions that repeat each other two are stored. *)
Lemma stored_items_are_not_fuzzy_duplicates_witness :
  mergeMemory (createEmptyMemory "conv_1" day1) decisionSummary day1
  = Some afterDecisions ∧
  fuzzyDuplicate "Use SQLite" "Deploy on Fly" = false.
Proof.
  split; [reflexivity|].
  apply (proj1 (stored_items_are_not_fuzzy_duplicates afterDecisions
                  afterDecisions_reachable) 0 1
           {| text := "Use SQLite"; added_at := day1 |}
           {| text := "Deploy on Fly"; added_at := day1 |});
    [lia|reflexivity|reflexivity].
Defined.

(** *** Stored strings are trimmed *)

Lemma isEmpty_false s : isEmpty s = false ↔ s ≠ EmptyString.
Proof. by destruct s. Qed.

Lemma tidy_trim s : isEmpty (trim s) = false → tidy (trim s).
Proof. intros H. split; [apply trim_idem|by apply isEmpty_false]. Qed.

Lemma mergeItems_tidy now incoming : ∀ items items',
  Forall (λ it, tidy (text it)) items →
  mergeItems now items incoming = Some items' →
  Forall (λ it, tidy (text it)) items'.
Proof.
  induction incoming as [|v rest IH]; intros items items' Hall; simpl.
  - by intros [= <-].
  - destruct (isEmpty (trim (toStr v))) eqn:Ht; [by apply IH|].
    destruct (isDuplicate items (trim (toStr v))) as [[|]|]; [by apply IH| |done].
    apply IH. apply Forall_app. split; [done|].
    constructor; [|constructor]. by apply tidy_trim.
Qed.

Lemma mergeConstraints_tidy incoming : ∀ cons,
  NoDup cons ∧ Forall tidy cons →
  NoDup (mergeConstraints cons incoming) ∧
  Forall tidy (mergeConstraints cons incoming).
Proof.
  induction incoming as [|v rest IH]; intros cons [Hnd Hall]; simpl; [done|].
  destruct (isEmpty (trim (toStr v))) eqn:Ht; [by apply IH|].
  case_bool_decide as Hin; [by apply IH|].
  apply IH. split.
  - apply NoDup_app. split_and!; [done| |apply NoDup_singleton].
    intros c Hc ->%list_elem_of_singleton. done.
  - apply Forall_app. split; [done|].
    constructor; [|constructor]. by apply tidy_trim.
Qed.

Lemma updateExisting_names k inc now ents ents' :
  updateExisting k inc now ents = Some ents' → map name ents' = map name ents.
Proof.
  revert ents'. induction ents as [|e rest IH]; intros ents'; simpl; [done|].
  destruct (String.eqb _ _); [by intros [= <-]|].
  destruct (updateExisting k inc now rest) as [rest'|]; [|done].
  intros [= <-]. simpl. f_equal. by apply IH.
Qed.

Lemma mergeEntity_names_trimmed now ents inc ents' :
  Forall (λ n, trim n = n) (map name ents) →
  mergeEntity now ents inc = Some ents' →
  Forall (λ n, trim n = n) (map name ents').
Proof.
  intros Hall. unfold mergeEntity.
  destruct (negb (truthy (se_name inc))); [by intros [= <-]|].
  destruct (se_name inc) as [n|]; [|done].
  destruct (updateExisting _ _ _ _) as [upd|] eqn:E.
  - intros [= <-]. by rewrite (updateExisting_names _ _ _ _ _ E).
  - intros [= <-]. rewrite map_app. apply Forall_app. split; [done|].
    constructor; [apply trim_idem|constructor].
Qed.

Lemma mergeEntities_names_trimmed now incoming : ∀ ents ents',
  Forall (λ n, trim n = n) (map name ents) →
  mergeEntities now ents incoming = Some ents' →
  Forall (λ n, trim n = n) (map name ents').
Proof.
  induction incoming as [|inc rest IH]; intros ents ents' Hall; simpl.
  - by intros [= <-].
  - destruct (mergeEntity now ents inc) as [mid|] eqn:E; simpl; [|done].
    apply IH. by eapply mergeEntity_names_trimmed.
Qed.

Lemma reachable_tidy memory :
  reachable memory →
  (NoDup (constraints memory) ∧ Forall tidy (constraints memory)) ∧
  Forall (λ it, tidy (text it)) (decisions memory) ∧
  Forall (λ it, tidy (text it)) (open_questions memory) ∧
  Forall (λ n, trim n = n) (map name (entities memory)).
Proof.
  induction 1 as [cid now|m s now m' _ ([IHn IHc] & IHd & IHq & IHe) Hm].
  { split_and!; constructor. }
  apply mergeMemory_inv in Hm as (ents & decs & qs & He & Hd & Hq & ->).
  assert (Forall (λ it, tidy (text it)) decs) as Hdecs.
  { destruct (s_decisions_made s); simpl in Hd;
      [exact (mergeItems_tidy _ _ _ _ IHd Hd)|by injection Hd as <-]. }
  assert (Forall (λ it, tidy (text it)) qs) as Hqs.
  { destruct (s_open_questions s); simpl in Hq;
      [exact (mergeItems_tidy _ _ _ _ IHq Hq)|by injection Hq as <-]. }
  assert (Forall (λ n, trim n = n) (map name ents)) as Hents.
  { destruct (s_entities s); simpl in He;
      [exact (mergeEntities_names_trimmed _ _ _ _ IHe He)|by injection He as <-]. }
  assert (NoDup (match s_constraints s with
                 | Some l => mergeConstraints (constraints m) l
                 | None => constraints m
                 end) ∧
          Forall tidy (match s_constraints s with
                       | Some l => mergeConstraints (constraints m) l
                       | None => constraints m
                       end)) as [Hcn Hct].
  { destruct (s_constraints s); [by apply mergeConstraints_tidy|done]. }
  unfold evict, lastN; simpl. split_and!.
  - destruct (_ <? _); [|done].
    eapply sublist_NoDup; [exact Hcn|apply sublist_drop].
  - destruct (_ <? _); [by apply Forall_drop|done].
  - destruct (_ <? _); [by apply Forall_drop|done].
  - destruct (_ <? _); [by apply Forall_drop|done].
  - destruct (_ <? _); [|done].
    apply List.Forall_map, Forall_take.
    rewrite (sort_Permutation entityCompare ents).
    by apply List.Forall_map in Hents.
Qed.

(** X3. In a memory produced by merges the constraints are pairwise
    distinct, every constraint and every text of a decision or open question
    is trimmed and not empty, and every entity name is trimmed. *)
Theorem stored_strings_are_tidy memory :
  reachable memory →
  NoDup (constraints memory) ∧
  Forall tidy (constraints memory) ∧
  Forall (λ it, tidy (text it)) (decisions memory ++ open_questions memory) ∧
  Forall (λ e, trim (name e) = name e) (entities memory).
Proof.
  intros ([Hn Hc] & Hd & Hq & He)%reachable_tidy.
  split_and!; [done..|by apply Forall_app|by apply List.Forall_map in He].
Qed.

(** An instance: of three submitted constraints one is stored, trimmed. *)
Lemma stored_strings_are_tidy_witness :
  constraints afterDecisions = ["no backend"] ∧
  NoDup (constraints afterDecisions) ∧ Forall tidy (constraints afterDecisions).
Proof.
  split; [reflexivity|].
  destruct (stored_strings_are_tidy afterDecisions afterDecisions_reachable)
    as (Hn & Hc & _).
  by split.
Defined.

End StoredFacts.

(** ** utils/memory.js: merging twice, scalars, entities below the limit *)

Section MergeAgainFacts.
Import Js Memory Spec More.

(** *** The loops only append *)



(** *** A text that was merged is found again *)

Lemma isDuplicate_app_true items ext t :
  isDuplicate items t = Some true → isDuplicate (items ++ ext) t = Some true.
Proof.
  induction items as [|y items IH]; simpl; [done|].
  destruct (isEmpty (text y)); [done|].
  destruct (String.eqb _ _); [done|].
  destruct (_ || _); [done|]. apply IH.
Qed.



Lemma covered_app items ext incoming :
  covered items incoming → covered (items ++ ext) incoming.
Proof.
  intros H. eapply Forall_impl; [exact H|].
  intros v [?|?]; [by left|right].
  by apply isDuplicate_app_true.
Qed.







(** *** Eviction below the limits *)






(** *** What a merge does to the scalar fields *)

Lemma evict_scalars memory :
  version (evict memory) = version memory ∧
  conversation_id (evict memory) = conversation_id memory ∧
  created_at (evict memory) = created_at memory ∧
  updated_at (evict memory) = updated_at memory ∧
  topic (evict memory) = topic memory ∧
  user_goal (evict memory) = user_goal memory ∧
  current_task (evict memory) = current_task memory ∧
  iteration_count (evict memory) = iteration_count memory.
Proof. by split_and!. Qed.

Lemma orElse_truthy a b : truthy b = true → truthy (orElse a b) = true.
Proof. unfold orElse. by destruct (truthy a) eqn:E. Qed.

Lemma orElse_falsy a b : truthy a = false → orElse a b = b.
Proof. unfold orElse. by intros ->. Qed.

(** X5. A merge that returns keeps the identity of the memory (version,
    conversation id, creation time), stamps [updated_at] with the time of
    the merge, counts one more iteration, and never erases the topic, the
    goal or the task: a falsy value in the summary leaves the stored one,
    and a stored truthy value is followed by a truthy one. *)
Theorem merge_keeps_identity_and_scalars memory summary now memory' :
  mergeMemory memory summary now = Some memory' →
  version memory' = version memory ∧
  conversation_id memory' = conversation_id memory ∧
  created_at memory' = created_at memory ∧
  updated_at memory' = now ∧
  iteration_count memory' = (iteration_count memory + 1)%Z ∧
  (truthy (s_topic summary) = false → topic memory' = topic memory) ∧
  (truthy (s_user_goal summary) = false → user_goal memory' = user_goal memory) ∧
  (truthy (s_current_task summary) = false →
     current_task memory' = current_task memory) ∧
  (truthy (topic memory) = true → truthy (topic memory') = true) ∧
  (truthy (user_goal memory) = true → truthy (user_goal memory') = true) ∧
  (truthy (current_task memory) = true → truthy (current_task memory') = true).
Proof.
  intros (ents & decs & qs & _ & _ & _ & ->)%mergeMemory_inv.
  match goal with |- context [evict ?m] =>
    destruct (evict_scalars m) as (-> & -> & -> & -> & -> & -> & -> & ->) end.
  simpl. split_and!; try done; try apply orElse_falsy; apply orElse_truthy.
Qed.

(** An instance: a later summary without a topic leaves the topic of the
    memory, and the merge is counted. *)
Lemma merge_keeps_identity_and_scalars_witness :
  ∃ m2, mergeMemory afterDecisions (entitySummary undefined []) day2 = Some m2 ∧
        conversation_id m2 = "conv_1" ∧ created_at m2 = day1 ∧
        updated_at m2 = day2 ∧ iteration_count m2 = 2%Z ∧
        topic m2 = JStr "Storage".
Proof.
  destruct (mergeMemory afterDecisions (entitySummary undefined []) day2)
    as [m2|] eqn:E; [|vm_compute in E; discriminate E].
  exists m2. split; [reflexivity|].
  destruct (merge_keeps_identity_and_scalars _ _ _ _ E)
    as (_ & Hid & Hc & Hu & Hi & Ht & _).
  split_and!; [exact Hid|exact Hc|exact Hu|exact Hi|exact (Ht eq_refl)].
Defined.

End MergeAgainFacts.

(** ** utils/memory.js: which entities a merge keeps *)

Section EntityFacts.
Import Js Memory Spec More.

Lemma updateExisting_Some_key k inc now ents ents' :
  updateExisting k inc now ents = Some ents' → k ∈ entityKeys ents.
Proof.
  revert ents'. induction ents as [|e rest IH]; intros ents'; simpl; [done|].
  destruct (String.eqb (nameKey (name e)) k) eqn:E.
  - intros _. apply String.eqb_eq in E as ->. apply list_elem_of_here.
  - destruct (updateExisting k inc now rest) as [rest'|]; [|done].
    intros _. apply list_elem_of_further. by eapply IH.
Qed.

Lemma entityKeys_length ents : length (entityKeys ents) = length ents.
Proof. apply length_map. Qed.

Lemma mergeEntity_keys now ents inc ents' :
  mergeEntity now ents inc = Some ents' →
  entityKeys ents `prefix_of` entityKeys ents' ∧
  length ents' ≤ S (length ents) ∧
  (∀ n, se_name inc = JStr n → isEmpty n = false →
        nameKey n ∈ entityKeys ents').
Proof.
  unfold mergeEntity.
  destruct (se_name inc) as [n|t shown] eqn:En; simpl.
  - destruct (isEmpty n) eqn:Hn; simpl.
    { intros [= <-]. split_and!; [done|lia|]. intros ? [= <-]. congruence. }
    destruct (updateExisting (nameKey n) inc now ents) as [upd|] eqn:E.
    + intros [= <-].
      pose proof (updateExisting_keys _ _ _ _ _ E) as Hk.
      rewrite Hk. split_and!; [done| |].
      * rewrite <- (entityKeys_length upd), Hk, entityKeys_length. lia.
      * intros ? [= <-] _. by eapply updateExisting_Some_key.
    + intros [= <-]. rewrite entityKeys_app. simpl. rewrite nameKey_trim.
      split_and!.
      * by apply prefix_app_r.
      * rewrite length_app. simpl. lia.
      * intros ? [= <-] _. apply elem_of_app. right. apply list_elem_of_here.
  - destruct (negb t); [|done].
    intros [= <-]. split_and!; [done|lia|done].
Qed.

Lemma prefix_elem {A} (l1 l2 : list A) x : l1 `prefix_of` l2 → x ∈ l1 → x ∈ l2.
Proof. intros [ext ->] H. apply elem_of_app. by left. Qed.

Lemma mergeEntities_keys now incoming : ∀ ents ents',
  mergeEntities now ents incoming = Some ents' →
  entityKeys ents `prefix_of` entityKeys ents' ∧
  length ents' ≤ length ents + length incoming ∧
  (∀ e n, e ∈ incoming → se_name e = JStr n → isEmpty n = false →
          nameKey n ∈ entityKeys ents').
Proof.
  induction incoming as [|inc rest IH]; intros ents ents'.
  - simpl. intros [= <-]. split_and!; [done|lia|].
    intros e n He. by apply elem_of_nil in He.
  - cbn [mergeEntities].
    destruct (mergeEntity now ents inc) as [mid|] eqn:E; [|done].
    simpl. intros Hrest.
    destruct (mergeEntity_keys _ _ _ _ E) as (K1 & L1 & N1).
    destruct (IH _ _ Hrest) as (K2 & L2 & N2).
    split_and!.
    + by etrans.
    + lia.
    + intros e n [->|He]%elem_of_cons Hn Hne.
      * apply (prefix_elem _ _ _ K2). by apply (N1 n).
      * by apply (N2 e n).
Qed.

(** X6. As long as the entities of the memory and of the summary together do
    not exceed the limit of thirty, a merge loses no entity and moves none:
    the keys of the memory are still there, in their order and before the
    new ones, and every incoming entity with a non-empty string name is
    stored under its trimmed, lowercased name. *)
Theorem merge_below_limit_keeps_every_entity memory summary now memory' :
  mergeMemory memory summary now = Some memory' →
  length (entities memory) + length (default [] (s_entities summary)) ≤ 30 →
  entityKeys (entities memory) `prefix_of` entityKeys (entities memory') ∧
  (∀ e n, e ∈ default [] (s_entities summary) → se_name e = JStr n →
          isEmpty n = false → nameKey n ∈ entityKeys (entities memory')).
Proof.
  intros (ents & decs & qs & He & _ & _ & ->)%mergeMemory_inv Hlen.
  assert (entityKeys (entities memory) `prefix_of` entityKeys ents ∧
          length ents ≤ 30 ∧
          (∀ e n, e ∈ default [] (s_entities summary) → se_name e = JStr n →
                  isEmpty n = false → nameKey n ∈ entityKeys ents))
    as (K & L & N).
  { destruct (s_entities summary) as [incoming|]; simpl in *.
    - destruct (mergeEntities_keys _ _ _ _ He) as (K & L & N).
      split_and!; [done|lia|done].
    - injection He as <-. split_and!; [done|lia|].
      intros e n Hin. by apply elem_of_nil in Hin. }
  unfold evict; simpl. unfold maxEntities.
  by rewrite (proj2 (Nat.ltb_ge 30 _) L).
Qed.

(** An instance: [Paris] merged into an empty memory is found as [paris]. *)
Lemma merge_below_limit_keeps_every_entity_witness :
  ∃ m, mergeMemory (createEmptyMemory "conv_1" day1) tripSummary day1 = Some m ∧
       "paris" ∈ entityKeys (entities m).
Proof.
  destruct (mergeMemory (createEmptyMemory "conv_1" day1) tripSummary day1)
    as [m|] eqn:E; [|vm_compute in E; discriminate E].
  exists m. split; [reflexivity|].
  refine (proj2 (merge_below_limit_keeps_every_entity _ _ _ _ E _)
            {| se_name := JStr "Paris"; se_type := JStr "tool";
               se_summary := JStr "destination" |} "Paris" _ eq_refl eq_refl).
  - simpl. lia.
  - apply list_elem_of_here.
Defined.

(** *** Eviction prefers the entities mentioned most *)

(** X7. Eviction never drops an entity in favour of one with fewer mentions:
    an entity of the memory with strictly more mentions than some entity that
    was kept is kept as well. *)
Theorem evict_keeps_the_more_mentioned memory kept other :
  kept ∈ entities (evict memory) →
  other ∈ entities memory →
  (mentions kept < mentions other)%Z →
  other ∈ entities (evict memory).
Proof.
  unfold evict; simpl.
  destruct (maxEntities <? length (entities memory)); [|done].
  intros Hk Ho Hlt.
  rewrite <- (sort_Permutation entityCompare (entities memory)) in Ho.
  rewrite <- (take_drop maxEntities (sort entityCompare (entities memory))) in Ho.
  apply elem_of_app in Ho as [Ho|Ho]; [done|].
  pose proof (evict_prefers_more_mentions memory kept other Hk Ho). lia.
Qed.

(** An instance: among thirty-one entities, [item30] with two mentions stays
    because [item1] with one mention stays. *)
Lemma evict_keeps_the_more_mentioned_witness :
  length (entities crowdedMemory) = 31 ∧
  {| name := "item30"; type := JStr "other"; summary := JStr "";
     mentions := 2; last_updated := day2 |} ∈ entities (evict crowdedMemory).
Proof.
  split; [reflexivity|].
  apply (evict_keeps_the_more_mentioned crowdedMemory (freshEntity "item1" day1)).
  - apply (bool_decide_unpack _). vm_compute. exact I.
  - apply (bool_decide_unpack _). vm_compute. exact I.
  - simpl. lia.
Defined.

End EntityFacts.

(** ** utils/memory.js: the stored records *)

Section StorageFacts.
Import Js Memory Spec More Storage.

Lemma memoryKey_inj a b : memoryKey a = memoryKey b → a = b.
Proof.
  unfold memoryKey. rewrite !append_cons, !append_empty. by intros [= ->].
Qed.



Lemma readMemory_reachable store failed conversationId now :
  consistent store →
  reachable (readMemory store failed conversationId now) ∧
  conversation_id (readMemory store failed conversationId now) = conversationId.
Proof.
  intros Hc. unfold readMemory.
  destruct failed; [split; [constructor|done]|].
  destruct (store !! memoryKey conversationId) as [m|] eqn:E;
    [|split; [constructor|done]].
  destruct (Hc _ _ E) as [Hk Hr]. split; [done|].
  symmetry. by apply memoryKey_inj.
Qed.

Lemma mergeMemory_conversation_id memory summary now memory' :
  mergeMemory memory summary now = Some memory' →
  conversation_id memory' = conversation_id memory.
Proof. by intros (? & ? & ? & _ & _ & _ & ->)%mergeMemory_inv. Qed.

(** X9. The read-merge-write chain keeps the store consistent: when every
    record is filed under the key of its own conversation and is a memory
    that merges can produce, the same holds after the chain, also when the
    write lands on records that changed since the read; the chain touches no
    other key than that of its conversation; and a write that succeeds
    stores a memory of that conversation. *)
Theorem merge_chain_keeps_store_consistent store later readFailed writeFailed
    conversationId summary nowRead nowMerge store' :
  consistent store → consistent later →
  mergeIntoStore store later readFailed writeFailed conversationId summary
    nowRead nowMerge = Some store' →
  consistent store' ∧
  (∀ k, k ≠ memoryKey conversationId → store' !! k = later !! k) ∧
  (writeFailed = false →
   ∃ merged, store' !! memoryKey conversationId = Some merged ∧
             conversation_id merged = conversationId ∧
             mergeMemory (readMemory store readFailed conversationId nowRead)
               summary nowMerge = Some merged).
Proof.
  intros Hs Hl. unfold mergeIntoStore.
  destruct (readMemory_reachable store readFailed conversationId nowRead Hs)
    as [Hr Hid].
  destruct (mergeMemory _ summary nowMerge) as [merged|] eqn:E; [|done].
  intros [= <-].
  pose proof (mergeMemory_conversation_id _ _ _ _ E) as Hid'.
  rewrite Hid in Hid'.
  unfold writeMemory. rewrite Hid'.
  destruct writeFailed.
  - split_and!; [done|done|done].
  - split_and!.
    + intros k m. destruct (decide (k = memoryKey conversationId)) as [->|Hne].
      * rewrite lookup_insert_eq. intros [= <-]. split; [by rewrite Hid'|].
        by eapply reachable_merge.
      * rewrite lookup_insert_ne by done. apply Hl.
    + intros k Hne. by rewrite lookup_insert_ne.
    + intros _. exists merged. by rewrite lookup_insert_eq.
Qed.

Lemma consistent_empty : consistent ∅.
Proof. intros k m Hk. by rewrite lookup_empty in Hk. Qed.

(** An instance: the first capture of a conversation, on an empty store. *)
Lemma merge_chain_keeps_store_consistent_witness :
  ∃ store',
    mergeIntoStore ∅ ∅ false false "conv_1" decisionSummary day1 day1
    = Some store' ∧
    consistent store' ∧
    store' !! memoryKey "conv_1" = Some afterDecisions.
Proof.
  exists (<[memoryKey "conv_1" := afterDecisions]> ∅).
  assert (mergeIntoStore ∅ ∅ false false "conv_1" decisionSummary day1 day1
          = Some (<[memoryKey "conv_1" := afterDecisions]> ∅)) as E.
  { reflexivity. }
  split; [exact E|].
  split; [|apply lookup_insert_eq].
  exact (proj1 (merge_chain_keeps_store_consistent _ _ _ _ _ _ _ _ _
                  consistent_empty consistent_empty E)).
Defined.

End StorageFacts.

(** ** utils/models.js and background.js: routing of messages *)

Section RoutingFacts.
Import Js Memory Summarize Background Spec More.
Variable readJson : string → option Summary.

Lemma registry_cases (P : Model → Prop) :
  Forall P MODEL_REGISTRY → ∀ m, m ∈ MODEL_REGISTRY → P m.
Proof. intros H m Hm. by eapply Forall_forall in H. Qed.

(** X10. The message types of the registry are unambiguous: the ready type
    and the response type of a registered model are both routed to that very
    model, a type that is routed is the ready or the response type of the
    model found, no ready type is the response type of any model, and the
    two types the listener handles first belong to no model. *)
Theorem message_types_route_to_their_model :
  (∀ m, m ∈ MODEL_REGISTRY →
        getModelByMessageType (readyType m) = Some m ∧
        getModelByMessageType (responseType m) = Some m) ∧
  (∀ type m, getModelByMessageType type = Some m →
        m ∈ MODEL_REGISTRY ∧ (type = readyType m ∨ type = responseType m)) ∧
  (∀ m m', m ∈ MODEL_REGISTRY → m' ∈ MODEL_REGISTRY →
        readyType m ≠ responseType m') ∧
  getModelByMessageType "GET_MODELS" = None ∧
  getModelByMessageType "CAPTURE" = None.
Proof.
  split_and!; [| | |done|done].
  - apply (registry_cases
             (λ m, getModelByMessageType (readyType m) = Some m ∧
                   getModelByMessageType (responseType m) = Some m)).
    by repeat constructor.
  - intros type m Hfind. unfold getModelByMessageType in Hfind.
    apply find_some in Hfind as [Hin Hor].
    split; [by apply list_elem_of_In|].
    apply orb_true_iff in Hor as [H|H]; apply String.eqb_eq in H; auto.
  - intros m m' Hm Hm'. revert m Hm m' Hm'.
    apply (registry_cases (λ m, ∀ m', m' ∈ MODEL_REGISTRY →
                                 readyType m ≠ responseType m')).
    repeat constructor;
      apply (registry_cases (λ m', _ ≠ responseType m'));
      by repeat constructor.
Qed.

(** X11. The list for the dropdown holds the registered models except the
    one named as the source, in the order of the registry: an entry is in the
    list exactly when it is the key and name of a registered model other than
    the source; naming a registered source leaves four of the five models,
    naming none leaves all five. *)
Theorem model_list_excludes_the_source :
  (∀ sourceModel k n,
     (k, n) ∈ getModelList sourceModel ↔
     (∃ m, m ∈ MODEL_REGISTRY ∧ key m = k ∧ name m = n) ∧ sourceModel ≠ Some k) ∧
  (∀ m, m ∈ MODEL_REGISTRY → length (getModelList (Some (key m))) = 4) ∧
  length (getModelList None) = 5 ∧
  length (getModelList (Some EmptyString)) = 5.
Proof.
  split_and!; [| |done|done];
    [|apply (registry_cases
               (λ m, length (getModelList (Some (key m))) = 4));
      by repeat constructor].
  intros src k n. unfold getModelList. split.
  - intros H. apply list_elem_of_In, in_map_iff in H as (m & Heq & Hm).
    injection Heq as <- <-.
    apply list_elem_of_In, list_elem_of_filter in Hm as [Hf Hm].
    split; [by eauto|]. intros ->.
    rewrite String.eqb_refl, andb_true_r in Hf. revert Hf.
    revert m Hm.
    apply (registry_cases (λ m, negb (isEmpty (key m)) = false → False)).
    by repeat constructor.
  - intros [(m & Hm & <- & <-) Hne].
    apply list_elem_of_In, in_map_iff. exists m. split; [done|].
    apply list_elem_of_In, list_elem_of_filter. split; [|done].
    destruct src as [s|]; [|done].
    destruct (isEmpty s); [done|]. simpl.
    apply String.eqb_neq. congruence.
Qed.

(** *** The RESPONSE branch *)

Lemma response_dispatch st message sender model :
  model ∈ MODEL_REGISTRY →
  m_type message = responseType model →
  onMessage readJson st message sender
  = onResponse readJson st model (m_content message) sender.
Proof.
  intros Hin Htype. unfold onMessage. rewrite Htype.
  apply list_elem_of_In in Hin. simpl in Hin.
  repeat (destruct Hin as [<-|Hin]; [reflexivity|]). destruct Hin.
Qed.

(** X12. A RESPONSE message from a tab under review removes the review and
    nothing else, and ends by sending to the source tab recorded in the
    review the critique made of the name of the responding model and the
    reply part of the content; before that it starts at most one merge, of
    the memory update of the content into the conversation of the review.
    A second RESPONSE from the same tab, like one from a tab that is not
    under review or from no tab, does nothing. *)
Theorem response_sends_one_critique st message sender model :
  model ∈ MODEL_REGISTRY →
  m_type message = responseType model →
  let parsed := parseTargetResponse readJson (m_content message) in
  let result := onMessage readJson st message sender in
  (∀ tab review,
     sender = Some tab → pendingReview st !! tab = Some review →
     pendingReview (fst result) = delete tab (pendingReview st) ∧
     pendingContext (fst result) = pendingContext st ∧
     snd result
     = match memoryUpdate parsed with
       | Some update =>
           if isEmpty (r_conversationId review) then []
           else [MergeUpdate (r_conversationId review) update]
       | None => []
       end
       ++ [SendCritique (r_sourceTabId review)
             (critiqueContent (name model) (reply parsed))] ∧
     (∀ message' model',
        model' ∈ MODEL_REGISTRY → m_type message' = responseType model' →
        onMessage readJson (fst result) message' sender = (fst result, []))) ∧
  ((∀ tab, sender = Some tab → pendingReview st !! tab = None) →
     result = (st, [])).
Proof.
  intros Hin Htype parsed result. subst result.
  rewrite (response_dispatch st message sender model Hin Htype).
  split.
  - intros tab review -> Hreview. unfold onResponse. rewrite Hreview. simpl.
    split_and!; [done|done|done|].
    intros message' model' Hin' Htype'.
    rewrite (response_dispatch _ message' (Some tab) model' Hin' Htype').
    unfold onResponse. simpl. by rewrite lookup_delete_eq.
  - intros Hnone. unfold onResponse. destruct sender as [tab|]; [|done].
    by rewrite (Hnone tab eq_refl).
Qed.

(** X13. A handoff that runs to its end leaves no trace: after the tab was
    created, a READY message from it is answered with the context block and
    the conversation of the handoff, a RESPONSE message from it sends the
    critique to the source tab of the handoff, and the two maps are then
    what they were before the tab was created. *)
Theorem completed_handoff_restores_the_state st tab handoff ready response
    readyModel respModel :
  pendingContext st !! tab = None →
  pendingReview st !! tab = None →
  readyModel ∈ MODEL_REGISTRY → m_type ready = readyType readyModel →
  respModel ∈ MODEL_REGISTRY → m_type response = responseType respModel →
  let st1 := onTabCreated st tab handoff in
  let afterReady := onMessage readJson st1 ready (Some tab) in
  let afterResponse := onMessage readJson (fst afterReady) response (Some tab) in
  snd afterReady
  = [RespondInject (contextBlock handoff) (h_conversationId handoff)] ∧
  last (snd afterResponse)
  = Some (SendCritique (h_sourceTabId handoff)
            (critiqueContent (name respModel)
               (reply (parseTargetResponse readJson (m_content response))))) ∧
  fst afterResponse = st.
Proof.
  intros Hc Hr Hin1 Hty1 Hin2 Hty2 st1 afterReady afterResponse.
  subst afterResponse afterReady st1.
  rewrite (ready_dispatch readJson _ ready (Some tab) readyModel Hin1 Hty1).
  unfold onReady, onTabCreated. simpl. rewrite lookup_insert_eq. simpl.
  split; [done|].
  rewrite (response_dispatch _ response (Some tab) respModel Hin2 Hty2).
  unfold onResponse. simpl. rewrite lookup_insert_eq. simpl.
  split; [by rewrite last_snoc|].
  destruct st as [ctx rev]; simpl in *. f_equal.
  - rewrite delete_insert_eq. by apply delete_id.
  - rewrite delete_insert_eq. by apply delete_id.
Qed.

(** X14. A message changes the entries of no tab but its sender: for every
    other tab both maps hold what they held; in particular a message that
    comes from no tab changes neither map. *)
Theorem message_touches_only_its_sender st message sender tab :
  sender ≠ Some tab →
  pendingContext (fst (onMessage readJson st message sender)) !! tab
  = pendingContext st !! tab ∧
  pendingReview (fst (onMessage readJson st message sender)) !! tab
  = pendingReview st !! tab.
Proof.
  intros Hne. unfold onMessage.
  destruct (String.eqb (m_type message) "GET_MODELS"); [done|].
  destruct (String.eqb (m_type message) "CAPTURE"); [done|].
  destruct (getModelByMessageType (m_type message)) as [model|]; [|done].
  destruct (String.eqb (m_type message) (readyType model)).
  - unfold onReady. destruct sender as [t|]; [|done].
    destruct (pendingContext st !! t); [|done]. simpl.
    assert (t ≠ tab) by congruence.
    by rewrite lookup_delete_ne, lookup_insert_ne.
  - destruct (String.eqb (m_type message) (responseType model)); [|done].
    unfold onResponse. destruct sender as [t|]; [|done].
    destruct (pendingReview st !! t); [|done]. simpl.
    assert (t ≠ tab) by congruence.
    by rewrite lookup_delete_ne.
Qed.

End RoutingFacts.

Section RoutingExamples.
Import Js Memory Summarize Background Spec More.

(** An instance: tab 7 is under review for tab 3; DeepSeek answers. *)
Lemma response_sends_one_critique_witness :
  onMessage (λ _, None)
    {| pendingContext := ∅;
       pendingReview := {[ 7%positive := mkReview 3%positive "conv_1" ]} |}
    (mkMessage "DEEPSEEK_RESPONSE" None None "" "" "Looks right.")
    (Some 7%positive)
  = ({| pendingContext := ∅;
        pendingReview := delete 7%positive
                           {[ 7%positive := mkReview 3%positive "conv_1" ]} |},
     [SendCritique 3%positive
        (critiqueContent "DeepSeek" "Looks right.")]) ∧
  onMessage (λ _, None) initialState
    (mkMessage "DEEPSEEK_RESPONSE" None None "" "" "Looks right.")
    (Some 7%positive)
  = (initialState, []).
Proof.
  assert (Hin : mkModel "deepseek" "DeepSeek" "https://chat.deepseek.com/"
                  "DEEPSEEK_READY" "DEEPSEEK_RESPONSE" ∈ MODEL_REGISTRY).
  { apply list_elem_of_In. simpl. tauto. }
  split.
  - assert (Hl : pendingReview
                   {| pendingContext := ∅;
                      pendingReview :=
                        {[ 7%positive := mkReview 3%positive "conv_1" ]} |}
                 !! 7%positive = Some (mkReview 3%positive "conv_1")).
    { reflexivity. }
    destruct (proj1 (response_sends_one_critique (λ _, None) _
               (mkMessage "DEEPSEEK_RESPONSE" None None "" "" "Looks right.")
               (Some 7%positive) _ Hin eq_refl)
             7%positive (mkReview 3%positive "conv_1") eq_refl Hl)
      as (H1 & H2 & H3 & _).
    apply injective_projections; [|exact H3].
    reflexivity.
  - apply (proj2 (response_sends_one_critique (λ _, None) initialState
               (mkMessage "DEEPSEEK_RESPONSE" None None "" "" "Looks right.")
               (Some 7%positive) _ Hin eq_refl)).
    intros tab _. reflexivity.
Defined.

(** An instance: a handoff from tab 3 to the new tab 7, read by Claude. *)
Lemma completed_handoff_restores_the_state_witness :
  fst (onMessage (λ _, None)
         (fst (onMessage (λ _, None)
                 (onTabCreated initialState 7%positive
                    (mkHandoff "the context block" 3%positive "conv_1"))
                 (readyFrom "CLAUDE_READY") (Some 7%positive)))
         (mkMessage "CLAUDE_RESPONSE" None None "" "" "Looks right.")
         (Some 7%positive))
  = initialState.
Proof.
  assert (Hin : mkModel "claude" "Claude" "https://claude.ai"
                  "CLAUDE_READY" "CLAUDE_RESPONSE" ∈ MODEL_REGISTRY).
  { apply list_elem_of_In. simpl. tauto. }
  assert (Hc : pendingContext initialState !! 7%positive = None) by reflexivity.
  assert (Hr : pendingReview initialState !! 7%positive = None) by reflexivity.
  exact (proj2 (proj2 (completed_handoff_restores_the_state (λ _, None)
           initialState 7%positive
           (mkHandoff "the context block" 3%positive "conv_1")
           (readyFrom "CLAUDE_READY")
           (mkMessage "CLAUDE_RESPONSE" None None "" "" "Looks right.")
           _ _ Hc Hr Hin eq_refl Hin eq_refl))).
Defined.

(** An instance: the READY message of tab 8 leaves the handoff of tab 7. *)
Lemma message_touches_only_its_sender_witness :
  pendingContext
    (fst (onMessage (λ _, None) waitingState (readyFrom "CLAUDE_READY")
            (Some 8%positive))) !! 7%positive
  = Some (mkHandoff "the context block" 3%positive "conv_1").
Proof.
  assert (Hne : Some 8%positive ≠ Some 7%positive) by discriminate.
  etrans;
    [exact (proj1 (message_touches_only_its_sender (λ _, None) waitingState
                     (readyFrom "CLAUDE_READY") (Some 8%positive) 7%positive
                     Hne))|].
  reflexivity.
Defined.

End RoutingExamples.

(** ** Strings: occurrences, trimming, splitting *)

Section StringMore.
Import Js Memory Spec More.

Lemma app_assoc_str a b c : (a +:+ b) +:+ c = a +:+ (b +:+ c).
Proof.
  induction a as [|x a IH]; [done|]. rewrite !append_cons. by f_equal.
Qed.

Lemma app_nil_r_str a : a +:+ "" = a.
Proof. induction a as [|x a IH]; [done|]. rewrite append_cons. by f_equal. Qed.

Lemma lacks_nil c : lacks c "".
Proof.
  apply indexOf_absent. intros [|x pre] post; rewrite ?append_cons; done.
Qed.

Lemma lacks_cons c a s : lacks c (String a s) ↔ a ≠ c ∧ lacks c s.
Proof.
  unfold lacks. rewrite !indexOf_absent. split.
  - intros H. split.
    + intros ->. by apply (H "" s).
    + intros pre post ->. by apply (H (String a pre) post).
  - intros [Hne H] [|x pre] post; rewrite !append_cons, ?append_empty.
    + intros [= -> _]. done.
    + intros [= _ ->]. by apply (H pre post).
Qed.

Lemma lacks_app c a b : lacks c (a +:+ b) ↔ lacks c a ∧ lacks c b.
Proof.
  induction a as [|x a IH].
  - rewrite append_empty. split; [intros H; split; [apply lacks_nil|done]|].
    by intros [_ ?].
  - rewrite append_cons, !lacks_cons, IH. tauto.
Qed.

Lemma trimStart_suffix s : ∃ ws, s = ws +:+ trimStart s.
Proof.
  induction s as [|c s [ws IH]]; simpl; [by exists ""|].
  destruct (isWhiteSpace c).
  - exists (String c ws). rewrite append_cons. by f_equal.
  - by exists "".
Qed.

Lemma trimEnd_prefix s : ∃ ws, s = trimEnd s +:+ ws.
Proof.
  induction s as [|c s [ws IH]]; simpl; [by exists ""|].
  destruct (trimEnd s) as [|d t] eqn:E.
  - destruct (isWhiteSpace c).
    + exists (String c s). by rewrite append_empty.
    + exists s. by rewrite append_cons, append_empty.
  - exists ws. rewrite append_cons. by f_equal.
Qed.

(** The trimmed text is a part of the text. *)
Lemma trim_part s : ∃ before after, s = before +:+ trim s +:+ after.
Proof.
  destruct (trimStart_suffix s) as [before Hb].
  destruct (trimEnd_prefix (trimStart s)) as [after Ha].
  exists before, after. unfold trim. by rewrite <- Ha.
Qed.

Lemma lacks_trim c s : lacks c s → lacks c (trim s).
Proof.
  destruct (trim_part s) as (before & after & Hs). intros H.
  rewrite Hs in H. by apply lacks_app in H as [_ [H _]%lacks_app].
Qed.

Lemma split_nonempty sep s : split sep s ≠ [].
Proof.
  induction s as [|c s IH]; simpl; [done|].
  destruct (Ascii.eqb c sep); [done|]. by destruct (split sep s).
Qed.

Lemma split_lacks sep s : Forall (lacks sep) (split sep s).
Proof.
  induction s as [|c s IH]; simpl.
  - constructor; [apply lacks_nil|constructor].
  - destruct (Ascii.eqb c sep) eqn:E.
    + constructor; [apply lacks_nil|done].
    + apply Ascii.eqb_neq in E.
      destruct (split sep s) as [|h t]; inversion IH; subst.
      * constructor; [|constructor].
        apply lacks_cons. split; [done|apply lacks_nil].
      * constructor; [|done]. by apply lacks_cons.
Qed.

Lemma split_whole sep p : lacks sep p → split sep p = [p].
Proof.
  induction p as [|c p IH]; [done|].
  intros [Hne Hp]%lacks_cons. simpl.
  rewrite (proj2 (Ascii.eqb_neq c sep) Hne). by rewrite (IH Hp).
Qed.

Lemma split_app sep p rest :
  lacks sep p → split sep (p +:+ String sep rest) = p :: split sep rest.
Proof.
  induction p as [|c p IH].
  - intros _. rewrite append_empty. simpl. by rewrite Ascii.eqb_refl.
  - intros [Hne Hp]%lacks_cons. rewrite append_cons. simpl.
    rewrite (proj2 (Ascii.eqb_neq c sep) Hne). by rewrite (IH Hp).
Qed.

Lemma takeChars_app p x : takeChars (String.length p) (p +:+ x) = p.
Proof.
  induction p as [|c p IH]; [done|].
  rewrite append_cons. simpl. by f_equal.
Qed.

Lemma dropChars_app p x : dropChars (String.length p) (p +:+ x) = x.
Proof. induction p as [|c p IH]; [done|]. by rewrite append_cons. Qed.

Lemma indexOfFrom_char_app c p rest i :
  lacks c p →
  indexOfFrom (String c "") (p +:+ String c rest) i = (i + strlen p)%Z.
Proof.
  revert i. induction p as [|a p IH]; intros i.
  - intros _. rewrite append_empty. cbn [indexOfFrom].
    rewrite (proj2 (prefix_app (String c "") (String c rest))); [|by exists rest].
    unfold strlen. simpl. lia.
  - intros [Hne Hp]%lacks_cons. rewrite append_cons. cbn [indexOfFrom].
    destruct (String.prefix _ _) eqn:E.
    + apply prefix_app in E as [post E].
      rewrite append_cons, append_empty in E. by injection E as -> _.
    + rewrite (IH _ Hp). unfold strlen. simpl String.length. lia.
Qed.

Lemma indexOf_char_app c p rest :
  lacks c p → indexOf (p +:+ String c rest) (String c "") = strlen p.
Proof. intros H. unfold indexOf. by rewrite indexOfFrom_char_app. Qed.

Lemma slice_app p x : slice (p +:+ x) 0 (strlen p) = p.
Proof.
  unfold slice, strlen. simpl. rewrite Nat.sub_0_r, Nat2Z.id.
  apply takeChars_app.
Qed.

Lemma sliceFrom_app c p x : sliceFrom (p +:+ String c x) (strlen p + 1) = x.
Proof.
  unfold sliceFrom, strlen.
  replace (Z.to_nat (Z.of_nat (String.length p) + 1))
    with (S (String.length p)) by lia.
  replace (p +:+ String c x) with ((p +:+ String c "") +:+ x)
    by (by rewrite app_assoc_str, append_cons, append_empty).
  replace (S (String.length p)) with (String.length (p +:+ String c "")).
  - apply dropChars_app.
  - clear. induction p as [|a p IH]; [done|]. rewrite append_cons. simpl. lia.
Qed.

Lemma tidy_nonempty s : tidy s → isEmpty s = false.
Proof. intros [_ H]. by destruct s. Qed.

End StringMore.

(** ** utils/summarize-generic.js: the memory note *)

Section ParserFacts.
Import Js Memory Summarize Spec More.

Lemma tidy_of_trim s : isEmpty (trim s) = false → tidy (trim s).
Proof.
  intros H. split; [apply trim_idem|]. intros E. by rewrite E in H.
Qed.

Lemma splitSemicolons_items str : Forall listItem (splitSemicolons str).
Proof.
  unfold splitSemicolons. destruct (isEmpty str); [constructor|].
  apply Forall_forall. intros s [Hlen Hin]%list_elem_of_filter.
  apply list_elem_of_In, in_map_iff in Hin as (p & <- & Hp).
  split.
  - apply tidy_of_trim. by destruct (trim p).
  - apply lacks_trim.
    pose proof (split_lacks ";" str) as Hall.
    rewrite Forall_forall in Hall. by apply Hall, list_elem_of_In.
Qed.

Lemma trim_space s : trim (String " " s) = trim s.
Proof. reflexivity. Qed.

Lemma join_cons2 sep p q r :
  join sep (p :: q :: r) = p +:+ sep +:+ join sep (q :: r).
Proof. reflexivity. Qed.

Lemma lacks_space_cons p : lacks ";" p → lacks ";" (String " " p).
Proof. intros H. apply lacks_cons. by split. Qed.

Lemma split_join items :
  items ≠ [] → Forall listItem items →
  map trim (split ";" (join "; " items)) = items ∧
  map trim (split ";" (String " " (join "; " items))) = items.
Proof.
  induction items as [|p [|q r] IH]; [done| |]; intros _ Hl.
  - inversion Hl as [|?? [[Ht _] Hp] _]; subst. simpl join.
    rewrite !split_whole by (by try apply lacks_space_cons).
    simpl. by rewrite trim_space, Ht.
  - inversion Hl as [|?? [[Ht _] Hp] Hrest]; subst.
    destruct (IH ltac:(done) Hrest) as [_ IH2].
    rewrite join_cons2.
    change ("; " +:+ join "; " (q :: r))
      with (String ";" (String " " (join "; " (q :: r)))).
    split.
    + rewrite split_app by done. rewrite map_cons. by rewrite IH2, Ht.
    + rewrite <- append_cons.
      rewrite split_app by (by apply lacks_space_cons).
      rewrite map_cons. by rewrite IH2, trim_space, Ht.
Qed.

Lemma filter_nonempty items :
  Forall listItem items →
  filter (λ s, (0 <? strlen s)%Z = true) items = items.
Proof.
  induction 1 as [|s items [[_ Hne] _] _ IH]; [done|].
  rewrite filter_cons_True, IH; [done|]. by destruct s.
Qed.

(** X15. Lists written with semicolons: every item [splitSemicolons] returns
    is trimmed, not empty and without a semicolon; and items of that kind,
    joined by a semicolon and a space as the memory note asks, are read back
    as they were. *)
Theorem semicolon_lists_round_trip :
  (∀ str, Forall listItem (splitSemicolons str)) ∧
  (∀ items, Forall listItem items →
            splitSemicolons (join "; " items) = items).
Proof.
  split; [apply splitSemicolons_items|].
  intros [|p r] Hl; [done|].
  unfold splitSemicolons.
  assert (isEmpty (join "; " (p :: r)) = false) as ->.
  { inversion Hl as [|?? [[_ Hne] _] _]; subst.
    destruct p as [|c p]; [done|]. by destruct r. }
  rewrite (proj1 (split_join (p :: r) ltac:(done) Hl)).
  by apply filter_nonempty.
Qed.

(** An instance: the two constraints of the memory note. *)
Lemma semicolon_lists_round_trip_witness :
  join "; " ["no backend"; "no API keys"] = "no backend; no API keys" ∧
  splitSemicolons "no backend; no API keys" = ["no backend"; "no API keys"].
Proof.
  split; [reflexivity|].
  apply (proj2 semicolon_lists_round_trip ["no backend"; "no API keys"]).
  repeat constructor; done.
Defined.

(** *** Entity entries *)

Lemma orStr_nonempty a b : b ≠ "" → orStr a b ≠ "".
Proof. unfold orStr. by destruct a. Qed.

Lemma orStr_trimmed a b : trim a = a → trim b = b → trim (orStr a b) = orStr a b.
Proof. unfold orStr. by destruct (isEmpty a). Qed.

Lemma isEmpty_tidy s : tidy s → isEmpty s = false.
Proof. intros [_ H]. by destruct s. Qed.

Lemma strlen_not_absent s : (strlen s =? -1)%Z = false.
Proof. apply Z.eqb_neq. unfold strlen. lia. Qed.

Lemma parseEntityEntry_Some entry e :
  parseEntityEntry entry = Some e →
  ∃ n t s, e = strEntity n t s ∧ tidy n ∧ t ≠ "" ∧ trim s = s.
Proof.
  unfold parseEntityEntry. cbv zeta.
  destruct (indexOf entry "/" =? -1)%Z.
  { destruct (isEmpty (trim entry)) eqn:E; [done|]. intros [= <-].
    eexists _, _, _. split; [done|]. split_and!; [by apply tidy_of_trim|done..]. }
  destruct (indexOf _ "/" =? -1)%Z.
  - destruct (isEmpty (trim _)) eqn:E; [done|]. intros [= <-].
    eexists _, _, _. split; [done|].
    split_and!; [by apply tidy_of_trim|by apply orStr_nonempty|done].
  - destruct (isEmpty (trim _)) eqn:E; [done|]. intros [= <-].
    eexists _, _, _. split; [done|].
    split_and!; [by apply tidy_of_trim|by apply orStr_nonempty|apply trim_idem].
Qed.

(** X16. Entity entries: an entry that [parseEntityEntry] accepts always has
    a trimmed, non-empty name and a non-empty type; an entry written as
    name/type/summary is read back as that name, type and summary, where
    only the summary may contain further slashes and an empty type reads as
    [other]; and a name alone reads as an entity of type [other]. *)
Theorem entity_entries_round_trip :
  (∀ entry e, parseEntityEntry entry = Some e →
     ∃ n t s, e = strEntity n t s ∧ tidy n ∧ t ≠ "" ∧ trim s = s) ∧
  (∀ n t s, tidy n → lacks "/" n → trim t = t → lacks "/" t → trim s = s →
     parseEntityEntry (n +:+ "/" +:+ t +:+ "/" +:+ s)
     = Some (strEntity n (orStr t "other") s)) ∧
  (∀ n, tidy n → lacks "/" n →
     parseEntityEntry n = Some (strEntity n "other" "")).
Proof.
  split_and!; [apply parseEntityEntry_Some| |].
  - intros n t s Hn Hln Ht Hlt Hs.
    change (n +:+ "/" +:+ t +:+ "/" +:+ s)
      with (n +:+ String "/" (t +:+ String "/" s)).
    unfold parseEntityEntry. cbv zeta.
    rewrite (indexOf_char_app "/" n _ Hln), strlen_not_absent.
    rewrite slice_app, sliceFrom_app.
    rewrite (indexOf_char_app "/" t _ Hlt), strlen_not_absent.
    rewrite slice_app, sliceFrom_app.
    destruct Hn as [Hn Hne]. rewrite Hn, Ht, Hs.
    by destruct n.
  - intros n [Hn Hne] Hln. unfold parseEntityEntry. cbv zeta.
    unfold lacks in Hln. rewrite Hln. simpl. rewrite Hn. by destruct n.
Qed.

(** An instance: the summary of the entry holds a slash. *)
Lemma entity_entries_round_trip_witness :
  parseEntityEntry "chrome.storage.local/technology/KV store, read/write"
  = Some (strEntity "chrome.storage.local" "technology" "KV store, read/write").
Proof.
  apply (proj1 (proj2 entity_entries_round_trip)
           "chrome.storage.local" "technology" "KV store, read/write");
    repeat split; done.
Defined.

(** *** The labeled block *)

Lemma readLine_tidy fields rawLine :
  map_Forall (λ _ v, tidy v) fields →
  map_Forall (λ _ v, tidy v) (readLine fields rawLine).
Proof.
  intros H. unfold readLine. cbv zeta.
  destruct (isEmpty (trim rawLine)); [done|].
  destruct (indexOf _ ":" =? -1)%Z; [done|].
  destruct (isEmpty (trim _)) eqn:E; [done|].
  apply map_Forall_insert_2; [by apply tidy_of_trim|done].
Qed.

Lemma foldl_readLine_tidy lines : ∀ fields,
  map_Forall (λ _ v, tidy v) fields →
  map_Forall (λ _ v, tidy v) (foldl readLine fields lines).
Proof.
  induction lines as [|l lines IH]; intros fields H; [done|].
  simpl. by apply IH, readLine_tidy.
Qed.

Lemma field_trimmed blockStr k :
  trim (field (readFields blockStr) k) = field (readFields blockStr) k.
Proof.
  unfold field.
  destruct (readFields blockStr !! k) as [v|] eqn:E; [|done].
  pose proof (foldl_readLine_tidy (split newline blockStr) ∅
                (map_Forall_empty _)) as H.
  by destruct (H k v E).
Qed.

Lemma counted_data t g c (f d : list string) (e : list SummaryEntity) o q :
  isEmpty t && isEmpty g && isEmpty c
  && (length f =? 0)%nat && (length d =? 0)%nat && (length e =? 0)%nat = false →
  hasData {| s_topic := JStr t; s_user_goal := JStr g;
             s_important_facts := Some (map JStr f);
             s_decisions_made := Some (map JStr d);
             s_current_task := JStr c; s_entities := Some e;
             s_open_questions := o; s_constraints := q |} = true
  ∨ nonEmptyArray (Some (map JStr f)) = true.
Proof.
  unfold hasData. simpl.
  destruct t; simpl; [|by left].
  destruct g; simpl; [|by left].
  destruct c; simpl; [|by left].
  destruct f; simpl; [|by right].
  destruct d; simpl; [|by left; destruct e].
  destruct e; simpl; [done|by left].
Qed.

Lemma keepSome_entities parts :
  Forall (λ e, ∃ n t s, e = strEntity n t s ∧ tidy n ∧ t ≠ "" ∧ trim s = s)
         (keepSome (map parseEntityEntry parts)).
Proof.
  apply Forall_forall. intros e He. unfold keepSome in He.
  apply list_elem_of_omap in He as (o & Ho & Hid). simpl in Hid. subst o.
  apply list_elem_of_In, in_map_iff in Ho as (entry & Hp & _).
  by eapply parseEntityEntry_Some.
Qed.

Lemma parseMemoryBlock_counted blockStr update :
  parseMemoryBlock blockStr = Some update →
  hasData update = true ∨ nonEmptyArray (s_important_facts update) = true.
Proof.
  unfold parseMemoryBlock. cbv zeta.
  destruct (_ && _) eqn:Hdata; [done|]. intros [= <-]. simpl.
  apply counted_data. exact Hdata.
Qed.

(** X17. A memory update read from a labeled block is well formed: topic,
    goal and task are trimmed strings, the four lists hold trimmed,
    non-empty items, every entity has a trimmed non-empty string name and a
    non-empty type, and there is a topic, goal, task, fact, decision or
    entity.  Merging such an update into a memory that merges can produce
    never throws. *)
Theorem memory_block_update_is_mergeable blockStr update :
  parseMemoryBlock blockStr = Some update →
  (∃ t g c, s_topic update = JStr t ∧ s_user_goal update = JStr g ∧
            s_current_task update = JStr c ∧
            trim t = t ∧ trim g = g ∧ trim c = c) ∧
  semicolonList (s_important_facts update) ∧
  semicolonList (s_decisions_made update) ∧
  semicolonList (s_open_questions update) ∧
  semicolonList (s_constraints update) ∧
  (∃ ents, s_entities update = Some ents ∧
           Forall (λ e, ∃ n t s, e = strEntity n t s ∧ tidy n ∧ t ≠ ""
                                 ∧ trim s = s) ents) ∧
  (hasData update = true ∨ nonEmptyArray (s_important_facts update) = true) ∧
  (∀ memory now, reachable memory →
                 is_Some (mergeMemory memory update now)).
Proof.
  intros Hparse. pose proof (parseMemoryBlock_counted _ _ Hparse) as Hcounted.
  revert Hparse Hcounted.
  unfold parseMemoryBlock. cbv zeta.
  destruct (_ && _) eqn:Hdata; [done|]. intros [= <-] Hcounted. simpl.
  split_and!.
  - eexists _, _, _. split_and!; [done..| | |];
      repeat apply orStr_trimmed; try apply field_trimmed; done.
  - eexists. split; [done|apply splitSemicolons_items].
  - eexists. split; [done|apply splitSemicolons_items].
  - eexists. split; [done|apply splitSemicolons_items].
  - eexists. split; [done|apply splitSemicolons_items].
  - eexists. split; [done|apply keepSome_entities].
  - exact Hcounted.
  - intros memory now Hr. apply mergeMemory_returns; [done|].
    unfold namesAreStrings. simpl.
    eapply Forall_impl; [apply keepSome_entities|].
    intros e (n & t & s & -> & _). right. by exists n.
Qed.

(** An instance: a block with a topic and two decisions. *)
Lemma memory_block_update_is_mergeable_witness :
  ∃ update,
    parseMemoryBlock ("Topic: Storage" +:+ nl +:+ "- Decisions: Use SQLite; Deploy on Fly")
    = Some update ∧
    s_topic update = JStr "Storage" ∧
    s_decisions_made update = Some [JStr "Use SQLite"; JStr "Deploy on Fly"] ∧
    is_Some (mergeMemory afterDecisions update day2).
Proof.
  destruct (parseMemoryBlock
              ("Topic: Storage" +:+ nl +:+ "- Decisions: Use SQLite; Deploy on Fly"))
    as [update|] eqn:E; [|vm_compute in E; discriminate E].
  exists update. split; [reflexivity|].
  pose proof E as E'. vm_compute in E'. injection E' as <-.
  split; [reflexivity|]. split; [reflexivity|].
  exact (proj2 (proj2 (proj2 (proj2 (proj2 (proj2 (proj2
           (memory_block_update_is_mergeable _ _ E)))))))
         afterDecisions day2 afterDecisions_reachable).
Defined.

End ParserFacts.

(** ** utils/summarize-generic.js: the reply part *)

Section ReplyFacts.
Import Js Memory Summarize Spec More.
Variable readJson : string → option Summary.

Lemma takeChars_prefix n : ∀ hay, ∃ post, hay = takeChars n hay +:+ post.
Proof.
  induction n as [|n IH]; intros hay; simpl; [by exists hay|].
  destruct hay as [|c hay]; [by exists ""|].
  destruct (IH hay) as [post Hp]. exists post.
  rewrite append_cons. by f_equal.
Qed.

Lemma app_eq_nil_str a b : a +:+ b = "" → a = "" ∧ b = "".
Proof. destruct a; [by rewrite append_empty|by rewrite append_cons]. Qed.

(** The text before the first occurrence holds no occurrence. *)
Lemma indexOfFrom_first needle : ∀ hay i j,
  needle ≠ "" → (0 ≤ i)%Z →
  indexOfFrom needle hay i = j → j ≠ (-1)%Z →
  ∀ pre post, takeChars (Z.to_nat (j - i)) hay ≠ pre +:+ needle +:+ post.
Proof.
  induction hay as [|c hay IH]; intros i j Hne Hi; cbn [indexOfFrom].
  - destruct (String.prefix needle ""); [|done].
    intros <- _ pre post. rewrite Z.sub_diag. simpl. intros E. symmetry in E.
    apply app_eq_nil_str in E as [_ E]. by apply app_eq_nil_str in E as [E _].
  - destruct (String.prefix needle (String c hay)) eqn:Hp.
    + intros <- _ pre post. rewrite Z.sub_diag. simpl. intros E. symmetry in E.
      apply app_eq_nil_str in E as [_ E]. by apply app_eq_nil_str in E as [E _].
    + intros Hj Hj1.
      destruct (indexOfFrom_found needle hay (i + 1) j ltac:(lia) Hj Hj1)
        as [Hle _].
      replace (Z.to_nat (j - i)) with (S (Z.to_nat (j - (i + 1)))) by lia.
      simpl. intros [|x pre] post.
      * rewrite append_empty. intros E.
        destruct (takeChars_prefix (Z.to_nat (j - (i + 1))) hay) as [rest Hr].
        assert (String.prefix needle (String c hay) = true) as Ht; [|congruence].
        apply prefix_app. exists (post +:+ rest).
        rewrite <- app_assoc_str, <- E, append_cons. by f_equal.
      * rewrite append_cons. intros [= _ E].
        by apply (IH (i + 1)%Z j Hne ltac:(lia) Hj Hj1 pre post).
Qed.

Lemma slice_before_first hay needle :
  needle ≠ "" → indexOf hay needle ≠ (-1)%Z →
  indexOf (slice hay 0 (indexOf hay needle)) needle = (-1)%Z.
Proof.
  intros Hne Hfound. apply indexOf_absent. intros pre post.
  unfold slice. simpl. rewrite Nat.sub_0_r.
  pose proof (indexOfFrom_first needle hay 0 (indexOf hay needle) Hne
                ltac:(lia) eq_refl Hfound pre post) as H.
  by rewrite Z.sub_0_r in H.
Qed.

Lemma absent_trim s needle :
  indexOf s needle = (-1)%Z → indexOf (trim s) needle = (-1)%Z.
Proof.
  rewrite !indexOf_absent. intros H pre post E.
  destruct (trim_part s) as (before & after & Hs).
  apply (H (before +:+ pre) (post +:+ after)).
  rewrite Hs at 1. rewrite E. by rewrite !app_assoc_str.
Qed.

(** X18. What [parseTargetResponse] hands on: the reply is always trimmed;
    a memory update is returned only when both markers are found in order,
    and then the reply does not contain the start marker, and the update
    has a topic, goal, task, entity, decision or fact. *)
Theorem reply_never_carries_the_memory_note fullText :
  let parsed := parseTargetResponse readJson fullText in
  trim (reply parsed) = reply parsed ∧
  (∀ update, memoryUpdate parsed = Some update →
     indexOf fullText MEMORY_START_MARKER ≠ (-1)%Z ∧
     (indexOf fullText MEMORY_START_MARKER
      < indexOf fullText MEMORY_END_MARKER)%Z ∧
     indexOf (reply parsed) MEMORY_START_MARKER = (-1)%Z ∧
     (hasData update = true ∨
      nonEmptyArray (s_important_facts update) = true)).
Proof.
  intros parsed. subst parsed. unfold parseTargetResponse.
  destruct (isEmpty fullText); [done|]. cbv zeta.
  destruct (Z.eqb_spec (indexOf fullText MEMORY_START_MARKER) (-1)) as [|Hs];
    simpl; [split; [apply trim_idem|done]|].
  destruct (Z.eqb_spec (indexOf fullText MEMORY_END_MARKER) (-1)) as [|He];
    simpl; [split; [apply trim_idem|done]|].
  destruct (Z.leb_spec (indexOf fullText MEMORY_END_MARKER)
              (indexOf fullText MEMORY_START_MARKER)) as [|Hlt];
    simpl; [split; [apply trim_idem|done]|].
  assert (indexOf (trim (slice fullText 0 (indexOf fullText MEMORY_START_MARKER)))
            MEMORY_START_MARKER = (-1)%Z) as Hclean.
  { by apply absent_trim, slice_before_first. }
  destruct (startsWithChar "{" _); simpl.
  - split; [apply trim_idem|].
    destruct (hasData _) eqn:Hd; [|done].
    intros update [= <-]. split_and!; [done|lia|done|by left].
  - split; [apply trim_idem|].
    intros update Hu. split_and!; [done|lia|done|].
    by apply (parseMemoryBlock_counted _ _ Hu).
Qed.

End ReplyFacts.

Section ReplyExamples.
Import Js Memory Summarize Spec More.

(** An instance: the reply of the decoding scenario. *)
Lemma reply_never_carries_the_memory_note_witness :
  reply (parseTargetResponse (λ _, None) takeReply) = "Sure, here's my take..." ∧
  indexOf (reply (parseTargetResponse (λ _, None) takeReply)) MEMORY_START_MARKER
  = (-1)%Z.
Proof.
  split; [reflexivity|].
  destruct (memoryUpdate (parseTargetResponse (λ _, None) takeReply))
    as [update|] eqn:E; [|vm_compute in E; discriminate E].
  exact (proj1 (proj2 (proj2
           (proj2 (reply_never_carries_the_memory_note (λ _, None) takeReply)
              update E)))).
Defined.

End ReplyExamples.

(** ** utils/format.js: what the context block shows *)

Section FormatFacts.
Import Js Memory Summarize Format Spec More.

Lemma occursIn_app pre needle post : occursIn needle (pre +:+ needle +:+ post).
Proof.
  intros H. pose proof (proj1 (indexOf_absent _ _) H) as Habsent.
  by apply (Habsent pre post).
Qed.

Lemma occursIn_join sep line lines :
  line ∈ lines → occursIn line (join sep lines).
Proof.
  intros Hin.
  assert (∃ pre post, join sep lines = pre +:+ line +:+ post)
    as (pre & post & ->); [|apply occursIn_app].
  induction lines as [|p [|q r] IH].
  - by apply elem_of_nil in Hin.
  - apply list_elem_of_singleton in Hin as ->. exists "", "".
    by rewrite append_empty, app_nil_r_str.
  - rewrite join_cons2. apply elem_of_cons in Hin as [->|Hin].
    + by exists "", (sep +:+ join sep (q :: r)).
    + destruct (IH Hin) as (pre & post & ->).
      exists (p +:+ sep +:+ pre), post. by rewrite !app_assoc_str.
Qed.

Lemma elem_of_map_2 {A B} (f : A → B) x l : x ∈ l → f x ∈ map f l.
Proof. intros H. apply list_elem_of_In, in_map, list_elem_of_In, H. Qed.

Lemma entityLines_elem memory e :
  e ∈ entities memory → entityLine e ∈ entityLines memory.
Proof.
  unfold entityLines. destruct (entities memory) as [|x l] eqn:E.
  - intros H. by apply elem_of_nil in H.
  - intros H. apply list_elem_of_further. by apply elem_of_map_2.
Qed.

Lemma decisionLines_elem memory d :
  d ∈ decisions memory → itemLine d ∈ decisionLines memory.
Proof.
  unfold decisionLines. destruct (decisions memory) as [|x l] eqn:E.
  - intros H. by apply elem_of_nil in H.
  - intros H. apply list_elem_of_further. by apply elem_of_map_2.
Qed.

Lemma questionLines_elem memory q :
  q ∈ open_questions memory → itemLine q ∈ questionLines memory.
Proof.
  unfold questionLines. destruct (open_questions memory) as [|x l] eqn:E.
  - intros H. by apply elem_of_nil in H.
  - intros H. apply list_elem_of_further. by apply elem_of_map_2.
Qed.

Lemma constraintLines_elem memory c :
  c ∈ constraints memory → isMetaInstruction c = false →
  "- " +:+ c ∈ constraintLines memory.
Proof.
  intros Hin Hmeta. unfold constraintLines.
  assert (c ∈ filteredConstraints memory) as Hf.
  { unfold filteredConstraints. by apply list_elem_of_filter. }
  destruct (filteredConstraints memory) as [|x l].
  - by apply elem_of_nil in Hf.
  - apply list_elem_of_further. by apply (elem_of_map_2 (λ c, "- " +:+ c)).
Qed.

Lemma contextLines_sections memory l :
  ((truthy (topic memory) = true ∧ l = "Topic: " +:+ toStr (topic memory))
   ∨ (truthy (user_goal memory) = true
      ∧ l = "User goal: " +:+ toStr (user_goal memory))
   ∨ l ∈ entityLines memory ∨ l ∈ decisionLines memory
   ∨ l ∈ questionLines memory ∨ l ∈ constraintLines memory
   ∨ l ∈ memoryNoteLines) →
  l ∈ contextLines memory.
Proof.
  unfold contextLines. cbv zeta. rewrite !elem_of_app.
  intros [[Ht ->]|[[Hg ->]|[H|[H|[H|[H|H]]]]]].
  - right. left. rewrite Ht. apply list_elem_of_here.
  - do 2 right. left. rewrite Hg. apply list_elem_of_here.
  - do 3 right. by left.
  - do 4 right. by left.
  - do 5 right. by left.
  - do 6 right. by left.
  - by do 10 right.
Qed.

(** X19. The context block shows what the memory holds: the line of every
    entity, of every decision and of every open question, the line of every
    constraint that is not a meta-instruction, the topic and the goal when
    there is one, and always the request for a memory note between the two
    markers that [parseTargetResponse] looks for. *)
Theorem context_block_shows_the_memory memory :
  let block := formatContextBlock memory in
  (∀ e, e ∈ entities memory → occursIn (entityLine e) block) ∧
  (∀ d, d ∈ decisions memory → occursIn (itemLine d) block) ∧
  (∀ q, q ∈ open_questions memory → occursIn (itemLine q) block) ∧
  (∀ c, c ∈ constraints memory → isMetaInstruction c = false →
        occursIn ("- " +:+ c) block) ∧
  (truthy (topic memory) = true →
     occursIn ("Topic: " +:+ toStr (topic memory)) block) ∧
  (truthy (user_goal memory) = true →
     occursIn ("User goal: " +:+ toStr (user_goal memory)) block) ∧
  occursIn MEMORY_START_MARKER block ∧
  occursIn MEMORY_END_MARKER block.
Proof.
  intros block. subst block. unfold formatContextBlock.
  split_and!.
  - intros e He. apply occursIn_join, contextLines_sections.
    do 2 right. left. by apply entityLines_elem.
  - intros d Hd. apply occursIn_join, contextLines_sections.
    do 3 right. left. by apply decisionLines_elem.
  - intros q Hq. apply occursIn_join, contextLines_sections.
    do 4 right. left. by apply questionLines_elem.
  - intros c Hc Hmeta. apply occursIn_join, contextLines_sections.
    do 5 right. left. by apply constraintLines_elem.
  - intros Ht. apply occursIn_join, contextLines_sections. by left.
  - intros Hg. apply occursIn_join, contextLines_sections. right. by left.
  - apply occursIn_join, contextLines_sections. do 6 right.
    apply list_elem_of_In. simpl. tauto.
  - apply occursIn_join, contextLines_sections. do 6 right.
    apply list_elem_of_In. simpl. tauto.
Qed.

(** An instance: the stored constraint and a stored decision are shown. *)
Lemma context_block_shows_the_memory_witness :
  occursIn "- no backend" (formatContextBlock afterDecisions) ∧
  occursIn "- Deploy on Fly" (formatContextBlock afterDecisions) ∧
  occursIn "Topic: Storage" (formatContextBlock afterDecisions).
Proof.
  destruct (context_block_shows_the_memory afterDecisions)
    as (_ & Hd & _ & Hc & Ht & _).
  split_and!.
  - apply (Hc "no backend"); [apply list_elem_of_here|].
    vm_compute. reflexivity.
  - apply (Hd {| text := "Deploy on Fly"; added_at := day1 |}).
    apply list_elem_of_further, list_elem_of_here.
  - apply Ht. reflexivity.
Defined.

(** *** The filter ignores case *)













End FormatFacts.

(** ** content/chatgpt.js: the detector of the summary reply *)

Section SourceDetectorFacts.
Import Js SourceDetector More.
Variable countBefore : Z.
Variable page : nat → list string.







End SourceDetectorFacts.

Section SourceDetectorExamples.
Import Js SourceDetector More.


End SourceDetectorExamples.

(** ** Content scripts: what the extraction reads *)

Section ExtractionFacts.
Import Js More.

Lemma dropChars_all n : ∀ s, String.length s ≤ n → dropChars n s = "".
Proof.
  induction n as [|n IH]; intros [|c s]; simpl; try done; try lia.
  intros H. apply IH. lia.
Qed.

(** X22. The extraction only uses the length of the text read before the
    prompt was sent: what it returns is read from the characters of the
    page beyond that length, whatever stands before them; a page that is
    not longer than the earlier text gives the empty response; and the
    response is trimmed. *)
Theorem extraction_reads_beyond_the_baseline :
  (∀ beforeText pre new,
     strlen pre = strlen beforeText →
     Detector.extractTargetResponse beforeText (pre +:+ new)
     = Detector.extractTargetResponse "" new) ∧
  (∀ beforeText afterText,
     (strlen afterText ≤ strlen beforeText)%Z →
     Detector.extractTargetResponse beforeText afterText = "") ∧
  (∀ beforeText afterText,
     trim (Detector.extractTargetResponse beforeText afterText)
     = Detector.extractTargetResponse beforeText afterText).
Proof.
  split_and!.
  - intros beforeText pre new Hlen.
    unfold Detector.extractTargetResponse, Detector.meaningfulLines. cbv zeta.
    rewrite <- Hlen.
    assert (sliceFrom (pre +:+ new) (strlen pre) = sliceFrom new (strlen ""))
      as ->; [|done].
    unfold sliceFrom, strlen. rewrite Nat2Z.id. by rewrite dropChars_app.
  - intros beforeText afterText Hlen.
    unfold Detector.extractTargetResponse, Detector.meaningfulLines. cbv zeta.
    unfold sliceFrom. rewrite dropChars_all; [done|].
    unfold strlen in *. lia.
  - intros. apply trim_idem.
Qed.

(** An instance: the page lost text since the prompt was sent. *)
Lemma extraction_reads_beyond_the_baseline_witness :
  Detector.extractTargetResponse "the earlier text" "the earlier" = "" ∧
  Detector.extractTargetResponse "prompt" ("prompt" +:+ "a reply of some length")
  = Detector.extractTargetResponse "" "a reply of some length".
Proof.
  destruct extraction_reads_beyond_the_baseline as (Hnew & Hshort & _).
  split.
  - apply Hshort. unfold strlen. simpl. lia.
  - by apply Hnew.
Defined.

End ExtractionFacts.

(** ** utils/memory.js: where the stored data comes from *)

Section ProvenanceFacts.
Import Js Memory Spec More.

Lemma mergeItems_new now incoming : ∀ items items',
  mergeItems now items incoming = Some items' →
  ∃ ext, items' = items ++ ext ∧
         Forall (λ it, added_at it = now
                       ∧ ∃ v, v ∈ incoming ∧ text it = trim (toStr v)) ext.
Proof.
  induction incoming as [|v rest IH]; intros items items'; simpl.
  - intros [= <-]. exists []. by rewrite app_nil_r.
  - assert (∀ ext,
      Forall (λ it, added_at it = now
                    ∧ ∃ v, v ∈ rest ∧ text it = trim (toStr v)) ext →
      Forall (λ it, added_at it = now
                    ∧ ∃ v', v' ∈ v :: rest ∧ text it = trim (toStr v')) ext)
      as Hweak.
    { intros ext H. eapply Forall_impl; [exact H|].
      intros it (? & v' & ? & ?). split; [done|]. exists v'.
      split; [by apply list_elem_of_further|done]. }
    destruct (isEmpty (trim (toStr v))).
    { intros (ext & -> & Hl)%IH. exists ext. split; [done|by apply Hweak]. }
    destruct (isDuplicate items (trim (toStr v))) as [[|]|]; [| |done].
    + intros (ext & -> & Hl)%IH. exists ext. split; [done|by apply Hweak].
    + intros (ext & -> & Hl)%IH. eexists (_ :: ext).
      split; [by rewrite <- app_assoc|].
      constructor; [|by apply Hweak]. simpl. split; [done|].
      exists v. split; [apply list_elem_of_here|done].
Qed.

Lemma mergeConstraints_new incoming : ∀ cons,
  ∃ ext, mergeConstraints cons incoming = cons ++ ext ∧
         Forall (λ c, ∃ v, v ∈ incoming ∧ c = trim (toStr v)) ext.
Proof.
  induction incoming as [|v rest IH]; intros cons; simpl.
  - exists []. by rewrite app_nil_r.
  - assert (∀ ext,
      Forall (λ c, ∃ v, v ∈ rest ∧ c = trim (toStr v)) ext →
      Forall (λ c, ∃ v', v' ∈ v :: rest ∧ c = trim (toStr v')) ext) as Hweak.
    { intros ext H. eapply Forall_impl; [exact H|].
      intros c (v' & ? & ?). exists v'.
      split; [by apply list_elem_of_further|done]. }
    destruct (isEmpty (trim (toStr v))).
    { destruct (IH cons) as (ext & -> & Hl). exists ext.
      split; [done|by apply Hweak]. }
    case_bool_decide.
    + destruct (IH cons) as (ext & -> & Hl). exists ext.
      split; [done|by apply Hweak].
    + destruct (IH (cons ++ [trim (toStr v)])) as (ext & -> & Hl).
      eexists (_ :: ext). split; [by rewrite <- app_assoc|].
      constructor; [|by apply Hweak].
      exists v. split; [apply list_elem_of_here|done].
Qed.

Lemma mergeEntity_new_keys now ents inc ents' k :
  mergeEntity now ents inc = Some ents' →
  k ∈ entityKeys ents' →
  k ∈ entityKeys ents ∨ ∃ n, se_name inc = JStr n ∧ k = nameKey n.
Proof.
  unfold mergeEntity.
  destruct (negb (truthy (se_name inc))); [intros [= <-]; by left|].
  destruct (se_name inc) as [n|]; [|done].
  destruct (updateExisting (nameKey n) inc now ents) as [upd|] eqn:E.
  - intros [= <-]. rewrite (updateExisting_keys _ _ _ _ _ E). by left.
  - intros [= <-]. rewrite entityKeys_app. simpl. rewrite nameKey_trim.
    intros [?|Hk]%elem_of_app; [by left|].
    apply list_elem_of_singleton in Hk as ->. right. by exists n.
Qed.

Lemma mergeEntities_new_keys now incoming k : ∀ ents ents',
  mergeEntities now ents incoming = Some ents' →
  k ∈ entityKeys ents' →
  k ∈ entityKeys ents
  ∨ ∃ e n, e ∈ incoming ∧ se_name e = JStr n ∧ k = nameKey n.
Proof.
  induction incoming as [|inc rest IH]; intros ents ents'.
  - simpl. intros [= <-]. by left.
  - cbn [mergeEntities].
    destruct (mergeEntity now ents inc) as [mid|] eqn:E; [|done].
    simpl. intros Hrest Hk.
    destruct (IH _ _ Hrest Hk) as [Hmid|(e & n & He & Hn & ->)].
    + destruct (mergeEntity_new_keys _ _ _ _ _ E Hmid) as [?|(n & Hn & ->)];
        [by left|].
      right. exists inc, n. split; [apply list_elem_of_here|done].
    + right. exists e, n. split; [by apply list_elem_of_further|done].
Qed.

Lemma lastN_elem {A} n (l : list A) x :
  x ∈ (if (n <? length l)%nat then lastN n l else l) → x ∈ l.
Proof.
  destruct (n <? length l)%nat; [|done].
  unfold lastN. intros H.
  rewrite <- (take_drop (length l - n) l). apply elem_of_app. by right.
Qed.

(** X23. A merge invents nothing: every decision and open question of the
    result was in the memory or carries the time of the merge and the
    trimmed text of an item of the summary; every constraint was in the
    memory or is the trimmed text of a constraint of the summary; every
    entity key was in the memory or is the key of a named entity of the
    summary.  The facts of the summary are not stored: the result is the
    same whatever they are. *)
Theorem merge_adds_only_what_the_summary_names memory summary now memory' :
  mergeMemory memory summary now = Some memory' →
  (∀ it, it ∈ decisions memory' →
     it ∈ decisions memory ∨
     (added_at it = now ∧
      ∃ v, v ∈ default [] (s_decisions_made summary) ∧ text it = trim (toStr v))) ∧
  (∀ it, it ∈ open_questions memory' →
     it ∈ open_questions memory ∨
     (added_at it = now ∧
      ∃ v, v ∈ default [] (s_open_questions summary) ∧ text it = trim (toStr v))) ∧
  (∀ c, c ∈ constraints memory' →
     c ∈ constraints memory ∨
     ∃ v, v ∈ default [] (s_constraints summary) ∧ c = trim (toStr v)) ∧
  (∀ k, k ∈ entityKeys (entities memory') →
     k ∈ entityKeys (entities memory) ∨
     ∃ e n, e ∈ default [] (s_entities summary) ∧ se_name e = JStr n
            ∧ k = nameKey n) ∧
  (∀ facts, mergeMemory memory (withFacts summary facts) now = Some memory').
Proof.
  intros Hm. split_and!; [..|by intros facts].
  - apply mergeMemory_inv in Hm as (ents & decs & qs & _ & Hd & _ & ->).
    intros it Hit%lastN_elem. simpl in Hit.
    destruct (s_decisions_made summary) as [l|]; simpl in *.
    + apply mergeItems_new in Hd as (ext & -> & Hext).
      apply elem_of_app in Hit as [?|Hit]; [by left|right].
      rewrite Forall_forall in Hext. by apply Hext.
    + injection Hd as <-. by left.
  - apply mergeMemory_inv in Hm as (ents & decs & qs & _ & _ & Hq & ->).
    intros it Hit%lastN_elem. simpl in Hit.
    destruct (s_open_questions summary) as [l|]; simpl in *.
    + apply mergeItems_new in Hq as (ext & -> & Hext).
      apply elem_of_app in Hit as [?|Hit]; [by left|right].
      rewrite Forall_forall in Hext. by apply Hext.
    + injection Hq as <-. by left.
  - apply mergeMemory_inv in Hm as (ents & decs & qs & _ & _ & _ & ->).
    intros c Hc%lastN_elem. simpl in Hc.
    destruct (s_constraints summary) as [l|]; simpl in *; [|by left].
    destruct (mergeConstraints_new l (constraints memory)) as (ext & E & Hext).
    rewrite E in Hc.
    apply elem_of_app in Hc as [?|Hc]; [by left|right].
    rewrite Forall_forall in Hext. by apply Hext.
  - apply mergeMemory_inv in Hm as (ents & decs & qs & He & _ & _ & ->).
    intros k Hk. unfold entityKeys in Hk.
    apply list_elem_of_In, in_map_iff in Hk as (e & <- & Hin).
    apply list_elem_of_In, evict_entities_elem in Hin. simpl in Hin.
    assert (nameKey (name e) ∈ entityKeys ents) as Hk.
    { by apply (elem_of_map_2 (λ e, nameKey (name e))). }
    destruct (s_entities summary) as [l|]; simpl in *.
    + by apply (mergeEntities_new_keys _ _ _ _ _ He).
    + injection He as <-. by left.
Qed.

(** An instance: the same memory results with and without facts, and its
    decisions carry the time of the merge. *)
Lemma merge_adds_only_what_the_summary_names_witness :
  mergeMemory (createEmptyMemory "conv_1" day1)
    (withFacts decisionSummary (Some [JStr "SQLite is a library"])) day1
  = Some afterDecisions ∧
  Forall (λ it, added_at it = day1) (decisions afterDecisions).
Proof.
  assert (mergeMemory (createEmptyMemory "conv_1" day1) decisionSummary day1
          = Some afterDecisions) as E by reflexivity.
  destruct (merge_adds_only_what_the_summary_names _ _ _ _ E)
    as (Hd & _ & _ & _ & Hf).
  split; [apply Hf|].
  apply Forall_forall. intros it Hit.
  destruct (Hd it Hit) as [Hold|[Hnow _]]; [|done].
  by apply elem_of_nil in Hold.
Defined.

End ProvenanceFacts.
